(** * Panel-method core of aeronauty-site: a shallow embedding and its properties

    The development follows [lib/panels]: [types.ts], [geometry.ts],
    [influence.ts], [solver.ts] and [stream.ts].  JavaScript numbers are IEEE
    binary64 values, modelled by the primitive floats of the kernel; integer
    valued numbers that only count or index (panel counts, array indices,
    loop bounds) are [Z] or [nat].  Arrays are lists.  A thrown exception is
    the [Err] case of [Result]. *)

From Stdlib Require Import ZArith List String Ascii Bool Lia.
From Stdlib Require Uint63.
From Stdlib Require Import Floats.
Import ListNotations.

Set Warnings "-inexact-float".
#[local] Open Scope float_scope.

(** ** Exceptions *)

(** The three ways the code can throw: the two [throw new Error(...)] sites and
    the [TypeError] of reading a property of [undefined]. *)
Inductive Error : Type :=
| NacaDigitsError                 (* 'NACA digits must be 4 digits' *)
| SingularMatrix (row : nat)      (* `Singular matrix at row ${k}` *)
| TypeError.

Inductive Result (A : Type) : Type :=
| Ok (a : A)
| Err (e : Error).
Arguments Ok {A} a.
Arguments Err {A} e.

Definition bind {A B : Type} (r : Result A) (k : A -> Result B) : Result B :=
  match r with
  | Ok a => k a
  | Err e => Err e
  end.

Notation "'let*' x ':=' r 'in' k" := (bind r (fun x => k))
  (at level 10, x name, r at level 100, k at level 200).

(** ** The host library

    [Math.cos], [Math.sin], [Math.atan], [Math.atan2], [Math.log] and the
    exponentiation operator are implementation-approximated in ECMAScript, and
    [toExponential]/[toFixed] only format numbers: they are interfaces of the
    host, and everything below is stated for every implementation of them.
    [Math.sqrt] and [Math.abs] are the IEEE operations. *)
Class MathLib : Type := {
  Math_cos : float -> float;
  Math_sin : float -> float;
  Math_atan : float -> float;
  Math_atan2 : float -> float -> float;
  Math_log : float -> float;
  Math_pow : float -> float -> float
}.

Class NumberFormat : Type := {
  toExponential : float -> Z -> string;
  toFixed : float -> Z -> string
}.

Definition Math_PI : float := 3.141592653589793.
Definition Math_sqrt : float -> float := PrimFloat.sqrt.
Definition Math_abs : float -> float := PrimFloat.abs.

(** [x > y] and [x >= y] of JavaScript. *)
Definition gtb (x y : float) : bool := y <? x.
Definition geb (x y : float) : bool := y <=? x.
Infix ">?" := gtb (at level 70, no associativity) : float_scope.
Infix ">=?" := geb (at level 70, no associativity) : float_scope.

(** An integer valued number as a float (exact below 2^53). *)
Definition num (z : Z) : float :=
  if (z <? 0)%Z then - of_uint63 (Uint63.of_Z (- z)) else of_uint63 (Uint63.of_Z z).

Definition numNat (n : nat) : float := num (Z.of_nat n).

(** [Math.max(...xs)] and [Math.min(...xs)] as ECMAScript defines them: the
    scan starts from [-Infinity] (resp. [+Infinity]), a [NaN] argument makes the
    result [NaN], and [+0] counts as larger than [-0]. *)
Definition isNegZero (x : float) : bool :=
  match classify x with NZero => true | _ => false end.
Definition isPosZero (x : float) : bool :=
  match classify x with PZero => true | _ => false end.

Definition maxStep (highest number : float) : float :=
  if isPosZero number && isNegZero highest then number
  else if number >? highest then number else highest.

Definition minStep (lowest number : float) : float :=
  if isNegZero number && isPosZero lowest then number
  else if number <? lowest then number else lowest.

Definition Math_max (xs : list float) : float :=
  if existsb is_nan xs then nan else fold_left maxStep xs neg_infinity.

Definition Math_min (xs : list float) : float :=
  if existsb is_nan xs then nan else fold_left minStep xs infinity.

(** Array reads.  [index] is [a[i]] where the code goes on to read a property
    of the element ([None] is [undefined]); [getNum] is a numeric read whose
    [undefined] becomes [NaN] in arithmetic. *)
Definition index {A : Type} (a : list A) (i : Z) : option A :=
  if (i <? 0)%Z then None else nth_error a (Z.to_nat i).

Definition getNum (a : list float) (i : nat) : float := nth i a nan.

(** [for (let i = lo; i < hi; i++) acc = body i acc]. *)
Definition forRange {S : Type} (lo hi : nat) (body : nat -> S -> S) (init : S) : S :=
  fold_left (fun acc i => body i acc) (seq lo (hi - lo)) init.

(** ** [types.ts] *)

Record Point2D : Type := mkPoint { px : float; py : float }.
Definition Vector2D : Type := Point2D.

Record Panel : Type := mkPanel {
  x1 : float; y1 : float; x2 : float; y2 : float;
  length : float;
  angle : float;
  tangent : Vector2D;
  normal : Vector2D;
  controlPoint : Point2D
}.

Record AirfoilGeometry : Type := mkGeometry {
  points : list Point2D;
  panels : list Panel;
  chord : float;
  teUpperIndex : Z;
  teLowerIndex : Z
}.

Record FlowConditions : Type := mkFlow {
  velocity : float;
  density : float;
  angleOfAttack : float
}.

Record PanelSolution : Type := mkSolution {
  sigma : list float;
  gamma : float;
  cp : list float;
  vt : list float;
  clGamma : float;
  clPressure : float;
  residual : float;
  iterations : Z
}.

Record Streamline : Type := mkStreamline {
  sl_points : list Point2D;
  complete : bool
}.

Record Bounds : Type := mkBounds {
  xMin : float; xMax : float; yMin : float; yMax : float
}.

Record StreamlineField : Type := mkField {
  streamlines : list Streamline;
  bounds : Bounds
}.

Record NacaParameters : Type := mkNaca {
  digits : string;
  nPoints : nat;
  naca_chord : float
}.

Record PanelMethodParameters : Type := mkParams {
  nPanels : Z;
  epsilon : float;
  regularization : float;
  maxIterations : Z;
  tolerance : float
}.

(** ** [geometry.ts] *)

Section Geometry.
Context {M : MathLib}.

(** The digits of the NACA designation: [/^\d{4}$/] and the three [parseInt]s. *)
Definition digitValue (c : ascii) : option Z :=
  let n := nat_of_ascii c in
  if ((48 <=? n) && (n <=? 57))%nat then Some (Z.of_nat (n - 48)) else None.

Definition parseNacaDigits (digits : string) : option (Z * Z * Z) :=
  match list_ascii_of_string digits with
  | [c0; c1; c2; c3] =>
      match digitValue c0, digitValue c1, digitValue c2, digitValue c3 with
      | Some d0, Some d1, Some d2, Some d3 => Some (d0, d1, (10 * d2 + d3)%Z)
      | _, _, _, _ => None
      end
  | _ => None
  end.

(** Thickness distribution at the normalized station [xc]. *)
Definition thickness (t chord xc : float) : float :=
  (t * chord / 0.2) * (
    0.2969 * Math_sqrt xc -
    0.1260 * xc -
    0.3516 * xc * xc +
    0.2843 * xc * xc * xc -
    0.1015 * xc * xc * xc * xc).

(** Camber line [yc] and its slope [dyc_dx]. *)
Definition camber (m p chord xc : float) : float * float :=
  if m =? 0 then (0, 0)
  else if xc <=? p then
    ((m * chord) * (2 * p * xc - xc * xc) / (p * p),
     (2 * m) * (p - xc) / (p * p))
  else
    ((m * chord) * ((1 - 2 * p) + 2 * p * xc - xc * xc) / ((1 - p) * (1 - p)),
     (2 * m) * (p - xc) / ((1 - p) * (1 - p))).

Definition upperPoint (m p t chord xi : float) : Point2D :=
  let xc := xi / chord in
  let yt := thickness t chord xc in
  let '(yc, dyc_dx) := camber m p chord xc in
  let theta := Math_atan dyc_dx in
  mkPoint (xi - yt * Math_sin theta) (yc + yt * Math_cos theta).

Definition lowerPoint (m p t chord xi : float) : Point2D :=
  let xc := xi / chord in
  let yt := thickness t chord xc in
  let '(yc, dyc_dx) := camber m p chord xc in
  let theta := Math_atan dyc_dx in
  mkPoint (xi + yt * Math_sin theta) (yc - yt * Math_cos theta).

(** The chordwise stations [x[0..halfPoints]] (cosine spacing). *)
Definition stations (halfPoints : nat) (chord : float) : list float :=
  let beta := map (fun i => Math_PI * numNat i / numNat halfPoints)
                  (seq 0 (halfPoints + 1)) in
  map (fun b => chord * (1 - Math_cos b) / 2) beta.

(** [nPoints] is taken as a count, a non-negative integer; a [NaN], negative
    or fractional [nPoints] is outside this definition. *)
Definition naca4 (digits : string) (nPoints : nat) (chord : float)
  : Result (list Point2D) :=
  match parseNacaDigits digits with
  | None => Err NacaDigitsError
  | Some (d0, d1, d23) =>
      let m := num d0 / 100 in
      let p := num d1 / 10 in
      let t := num d23 / 100 in
      let halfPoints := (nPoints / 2)%nat in
      let x := stations halfPoints chord in
      (* first loop: i = 0 .. halfPoints - 1 *)
      let upper := map (fun i => upperPoint m p t chord (getNum x i))
                       (seq 0 halfPoints) in
      (* second loop: i = halfPoints downto 0 *)
      let lower := map (fun i => lowerPoint m p t chord (getNum x i))
                       (rev (seq 0 (halfPoints + 1))) in
      Ok (upper ++ lower)
  end.

(** The panel built by one iteration of the loop of [panelize]. *)
Definition makePanel (epsilon : float) (p1 p2 : Point2D) : Panel :=
  let dx := px p2 - px p1 in
  let dy := py p2 - py p1 in
  let length := Math_sqrt (dx * dx + dy * dy) in
  let angle := Math_atan2 dy dx in
  let tangent := mkPoint (Math_cos angle) (Math_sin angle) in
  let normal := mkPoint (Math_sin angle) (- Math_cos angle) in
  let midX := (px p1 + px p2) / 2 in
  let midY := (py p1 + py p2) / 2 in
  let controlPoint := mkPoint (midX - epsilon * px normal) (midY - epsilon * py normal) in
  mkPanel (px p1) (py p1) (px p2) (py p2) length angle tangent normal controlPoint.

Definition undefinedPoint : Point2D := mkPoint nan nan.

(** [params.nPanels] is taken as an integer of either sign; a [NaN] or
    fractional request is outside this definition. *)
Definition panelize (points : list Point2D) (params : PanelMethodParameters)
  : list Panel :=
  let len := List.length points in
  let nPanels := Z.min (nPanels params) (Z.of_nat len - 1) in
  let xCoords := map px points in
  let chord := Math_max xCoords - Math_min xCoords in
  let epsilon := epsilon params * chord in
  map (fun i =>
         let p1 := nth i points undefinedPoint in
         let p2 := nth ((i + 1) mod len) points undefinedPoint in
         makePanel epsilon p1 p2)
      (seq 0 (Z.to_nat nPanels)).

Definition createAirfoilGeometry (nacaParams : NacaParameters)
  (panelParams : PanelMethodParameters) : Result AirfoilGeometry :=
  let* points := naca4 (digits nacaParams) (nPoints nacaParams) (naca_chord nacaParams) in
  let panels := panelize points panelParams in
  Ok (mkGeometry points panels (naca_chord nacaParams)
                 0 (Z.of_nat (List.length panels) - 1)).

Definition globalToLocal (globalPoint : Point2D) (panel : Panel) : Point2D :=
  let dx := px globalPoint - x1 panel in
  let dy := py globalPoint - y1 panel in
  let cosB := px (tangent panel) in
  let sinB := py (tangent panel) in
  mkPoint (dx * cosB + dy * sinB) (- dx * sinB + dy * cosB).

Definition localToGlobal (localVector : Vector2D) (panel : Panel) : Vector2D :=
  let cosB := px (tangent panel) in
  let sinB := py (tangent panel) in
  mkPoint (px localVector * cosB - py localVector * sinB)
          (px localVector * sinB + py localVector * cosB).

Definition dot (v1 v2 : Vector2D) : float := px v1 * px v2 + py v1 * py v2.

End Geometry.

(** ** [influence.ts] *)

Section Influence.
Context {M : MathLib}.

Definition TWO_PI : float := 2 * Math_PI.
Definition FOUR_PI : float := 4 * Math_PI.
Definition SINGULARITY_THRESHOLD : float := 1e-10.

Definition zeroVector : Vector2D := mkPoint 0 0.

(** The first guard of both kernels: the field point is on the panel line. *)
Definition onPanel (X Y L : float) : bool :=
  (Math_abs Y <? SINGULARITY_THRESHOLD)
  && ((X >=? - SINGULARITY_THRESHOLD) && (X <=? L + SINGULARITY_THRESHOLD)).

(** The second guard: the field point is at an end point of the panel. *)
Definition atEndpoint (R1_sq R2_sq : float) : bool :=
  (R1_sq <? SINGULARITY_THRESHOLD * SINGULARITY_THRESHOLD)
  || (R2_sq <? SINGULARITY_THRESHOLD * SINGULARITY_THRESHOLD).

(** The arctangent difference both kernels share. *)
Definition atanTerm (X Y s1 s2 : float) : float :=
  Math_atan2 (s2 * Y) ((X - s2) * (X - s2) + Y * Y) -
  Math_atan2 (s1 * Y) ((X - s1) * (X - s1) + Y * Y).

(** The velocity [{ x: u_local, y: v_local }] of the source kernel in the frame
    of the panel. *)
Definition sourceLocal (X Y s1 s2 R1_sq R2_sq sourceStrength : float) : Vector2D :=
  let u_local := (sourceStrength / TWO_PI) * atanTerm X Y s1 s2 in
  let v_local := (sourceStrength / FOUR_PI) * Math_log (R2_sq / R1_sq) in
  mkPoint u_local v_local.

(** The same pair for the vortex kernel. *)
Definition vortexLocal (X Y s1 s2 R1_sq R2_sq vortexStrength : float) : Vector2D :=
  let u_local := - (vortexStrength / FOUR_PI) * Math_log (R2_sq / R1_sq) in
  let v_local := (vortexStrength / TWO_PI) * atanTerm X Y s1 s2 in
  mkPoint u_local v_local.

Definition sourceInfluence (fieldPoint : Point2D) (panel : Panel)
  (sourceStrength : float) : Vector2D :=
  let local := globalToLocal fieldPoint panel in
  let X := px local in
  let Y := py local in
  let L := length panel in
  let s1 := 0 in
  let s2 := L in
  if onPanel X Y L then zeroVector
  else
    let R1_sq := X * X + Y * Y in
    let R2_sq := (X - L) * (X - L) + Y * Y in
    if atEndpoint R1_sq R2_sq then zeroVector
    else
      localToGlobal (sourceLocal X Y s1 s2 R1_sq R2_sq sourceStrength) panel.

Definition vortexInfluence (fieldPoint : Point2D) (panel : Panel)
  (vortexStrength : float) : Vector2D :=
  let local := globalToLocal fieldPoint panel in
  let X := px local in
  let Y := py local in
  let L := length panel in
  let s1 := 0 in
  let s2 := L in
  if onPanel X Y L then zeroVector
  else
    let R1_sq := X * X + Y * Y in
    let R2_sq := (X - L) * (X - L) + Y * Y in
    if atEndpoint R1_sq R2_sq then zeroVector
    else
      localToGlobal (vortexLocal X Y s1 s2 R1_sq R2_sq vortexStrength) panel.

Definition sourceInfluenceNormal (controlPoint : Point2D) (sourcePanel : Panel)
  (controlNormal : Vector2D) (sourceStrength : float) : float :=
  dot (sourceInfluence controlPoint sourcePanel sourceStrength) controlNormal.

Definition sourceInfluenceTangent (controlPoint : Point2D) (sourcePanel : Panel)
  (controlTangent : Vector2D) (sourceStrength : float) : float :=
  dot (sourceInfluence controlPoint sourcePanel sourceStrength) controlTangent.

Definition vortexInfluenceNormal (controlPoint : Point2D) (vortexPanel : Panel)
  (controlNormal : Vector2D) (vortexStrength : float) : float :=
  dot (vortexInfluence controlPoint vortexPanel vortexStrength) controlNormal.

Definition vortexInfluenceTangent (controlPoint : Point2D) (vortexPanel : Panel)
  (controlTangent : Vector2D) (vortexStrength : float) : float :=
  dot (vortexInfluence controlPoint vortexPanel vortexStrength) controlTangent.

(** [sourceStrengths[i]] handed to a parameter with default value [1.0]: an
    [undefined] argument takes the default. *)
Definition strengthAt (sourceStrengths : list float) (i : nat) : float :=
  nth i sourceStrengths 1.

(** [acc += term j] for every panel [j], in index order. *)
Definition sumOver {A : Type} (xs : list A) (term : nat -> A -> float)
  (init : float) : float :=
  fold_left (fun acc jp => acc + term (fst jp) (snd jp))
            (combine (seq 0 (List.length xs)) xs) init.

Definition totalVelocity (fieldPoint : Point2D) (panels : list Panel)
  (sourceStrengths : list float) (totalCirculation : float)
  (freestream : Vector2D) : Vector2D :=
  let step (kernel : nat -> Panel -> Vector2D) (acc : Vector2D) :=
    fold_left (fun acc jp =>
                 let vel := kernel (fst jp) (snd jp) in
                 mkPoint (px acc + px vel) (py acc + py vel))
              (combine (seq 0 (List.length panels)) panels) acc in
  let afterSources :=
    step (fun i p => sourceInfluence fieldPoint p (strengthAt sourceStrengths i))
         freestream in
  let circulationPerPanel := totalCirculation / numNat (List.length panels) in
  step (fun _ p => vortexInfluence fieldPoint p circulationPerPanel) afterSources.

Definition buildSourceInfluenceMatrix (panels : list Panel) : list (list float) :=
  map (fun pi =>
         map (fun pj => sourceInfluenceNormal (controlPoint pi) pj (normal pi) 1)
             panels)
      panels.

Definition buildVortexInfluenceVector (panels : list Panel) : list float :=
  let n := List.length panels in
  let unitCirculationPerPanel := 1 / numNat n in
  map (fun pi =>
         sumOver panels
           (fun _ pj => vortexInfluenceNormal (controlPoint pi) pj (normal pi)
                          unitCirculationPerPanel)
           0)
      panels.

Record KuttaCoefficients : Type := mkKutta {
  sourceCoeffs : list float;
  vortexCoeff : float
}.

Definition buildKuttaCoefficients (panels : list Panel)
  (teUpperIndex teLowerIndex : Z) : Result KuttaCoefficients :=
  let n := List.length panels in
  match index panels teUpperIndex, index panels teLowerIndex with
  | Some upper, Some lower =>
      let upperControlPoint := controlPoint upper in
      let upperTangent := tangent upper in
      let lowerControlPoint := controlPoint lower in
      let lowerTangent := tangent lower in
      let sourceCoeffs :=
        map (fun pj =>
               sourceInfluenceTangent upperControlPoint pj upperTangent 1 -
               sourceInfluenceTangent lowerControlPoint pj lowerTangent 1)
            panels in
      let unitCirculationPerPanel := 1 / numNat n in
      let vortexCoeff :=
        sumOver panels
          (fun _ pj =>
             vortexInfluenceTangent upperControlPoint pj upperTangent
               unitCirculationPerPanel -
             vortexInfluenceTangent lowerControlPoint pj lowerTangent
               unitCirculationPerPanel)
          0 in
      Ok (mkKutta sourceCoeffs vortexCoeff)
  | _, _ => Err TypeError
  end.

End Influence.

(** ** [solver.ts] *)

Definition Matrix : Type := list (list float).

(** [a[i][j]] of a matrix whose row [i] exists. *)
Definition entry (a : Matrix) (i j : nat) : float := getNum (nth i a []) j.

(** [a[i] = v] for an index inside the array (every write of the solver is). *)
Fixpoint setNth {A : Type} (a : list A) (i : nat) (v : A) : list A :=
  match a, i with
  | [], _ => []
  | _ :: rest, O => v :: rest
  | h :: rest, S i' => h :: setNth rest i' v
  end.

Section LinearSolve.

Definition PIVOT_TOLERANCE : float := 1e-14.

(** [[...A[i], b[i]]] for every row, then [augmented[i][i] += regularization]. *)
Definition augment (A : Matrix) (b : list float) : Matrix :=
  map (fun i => nth i A [] ++ [getNum b i]) (seq 0 (List.length A)).

Definition regularize (augmented : Matrix) (regularization : float) : Matrix :=
  forRange 0 (List.length augmented)
    (fun i aug =>
       let row := nth i aug [] in
       setNth aug i (setNth row i (getNum row i + regularization)))
    augmented.

(** The pivot search of step [k]. *)
Definition findPivot (augmented : Matrix) (k n : nat) : nat :=
  forRange (k + 1) n
    (fun i maxRow =>
       if Math_abs (entry augmented i k) >? Math_abs (entry augmented maxRow k)
       then i else maxRow)
    k.

Definition swapRows (augmented : Matrix) (k maxRow : nat) : Matrix :=
  if Nat.eqb maxRow k then augmented
  else
    let rowK := nth k augmented [] in
    let rowMax := nth maxRow augmented [] in
    setNth (setNth augmented k rowMax) maxRow rowK.

(** [for (j = k; j <= n; j++) row[j] -= factor * pivotRow[j]]. *)
Definition eliminateRow (pivotRow : list float) (k n : nat) (row : list float)
  : list float :=
  let factor := getNum row k / getNum pivotRow k in
  forRange k (n + 1)
    (fun j r => setNth r j (getNum r j - factor * getNum pivotRow j))
    row.

Definition eliminateColumn (augmented : Matrix) (k n : nat) : Matrix :=
  forRange (k + 1) n
    (fun i aug => setNth aug i (eliminateRow (nth k aug []) k n (nth i aug [])))
    augmented.

(** The elimination loop over the steps [ks]. *)
Fixpoint eliminate (ks : list nat) (n : nat) (augmented : Matrix) : Result Matrix :=
  match ks with
  | [] => Ok augmented
  | k :: ks' =>
      let swapped := swapRows augmented k (findPivot augmented k n) in
      if Math_abs (entry swapped k k) <? PIVOT_TOLERANCE
      then Err (SingularMatrix k)
      else eliminate ks' n (eliminateColumn swapped k n)
  end.

Definition backSubstitute (augmented : Matrix) (n : nat) : list float :=
  fold_left
    (fun x i =>
       let xi := entry augmented i n in
       let xi := forRange (i + 1) n
                   (fun j acc => acc - entry augmented i j * getNum x j) xi in
       setNth x i (xi / entry augmented i i))
    (rev (seq 0 n))
    (repeat 0 n).

Definition solveLinearSystem (A : Matrix) (b : list float) (regularization : float)
  : Result (list float) :=
  let n := List.length A in
  let augmented := regularize (augment A b) regularization in
  let* reduced := eliminate (seq 0 n) n augmented in
  Ok (backSubstitute reduced n).

Definition calculateResidual (A : Matrix) (x b : list float) : float :=
  let n := List.length A in
  let residualSumSq :=
    forRange 0 n
      (fun i acc =>
         let axRow := forRange 0 (List.length x)
                        (fun j s => s + entry A i j * getNum x j) 0 in
         let residualRow := axRow - getNum b i in
         acc + residualRow * residualRow)
      0 in
  Math_sqrt residualSumSq.

End LinearSolve.

Section Solver.
Context {M : MathLib} {F : NumberFormat}.

Definition calculateLiftFromPressure (panels : list Panel) (cp : list float)
  (chord : float) : float :=
  sumOver panels
    (fun i panel =>
       let deltaP := - getNum cp i in
       let deltaX := x2 panel - x1 panel in
       deltaP * deltaX * py (normal panel) / chord)
    0.

Definition freestreamOf (flow : FlowConditions) : Vector2D :=
  mkPoint (velocity flow * Math_cos (angleOfAttack flow))
          (velocity flow * Math_sin (angleOfAttack flow)).

(** The first half of [solvePanelMethod]: the extended matrix and the right
    hand side handed to [solveLinearSystem]. *)
Definition assembleSystem (geometry : AirfoilGeometry) (flow : FlowConditions)
  : Result (Matrix * list float) :=
  let panels := panels geometry in
  let n := List.length panels in
  let freestream := freestreamOf flow in
  let A := buildSourceInfluenceMatrix panels in
  let bGamma := buildVortexInfluenceVector panels in
  let rhsBC :=
    map (fun p => - (px freestream * px (normal p) + py freestream * py (normal p)))
        panels in
  let rowsBC :=
    map (fun i => map (fun j => entry A i j) (seq 0 n) ++ [getNum bGamma i])
        (seq 0 n) in
  let* kuttaCoeffs :=
    buildKuttaCoefficients panels (teUpperIndex geometry) (teLowerIndex geometry) in
  let rowKutta :=
    map (fun j => getNum (sourceCoeffs kuttaCoeffs) j) (seq 0 n)
    ++ [vortexCoeff kuttaCoeffs] in
  match index panels (teUpperIndex geometry), index panels (teLowerIndex geometry) with
  | Some upper, Some lower =>
      let freestreamUpperTangent := dot freestream (tangent upper) in
      let freestreamLowerTangent := dot freestream (tangent lower) in
      let rhsK := - (freestreamUpperTangent - freestreamLowerTangent) in
      Ok (rowsBC ++ [rowKutta], rhsBC ++ [rhsK])
  | _, _ => Err TypeError
  end.

(** The tangential velocity at control point [i]. *)
Definition tangentialVelocity (panels : list Panel) (freestream : Vector2D)
  (sigma : list float) (gamma : float) (pi : Panel) : float :=
  let n := List.length panels in
  let controlPoint := controlPoint pi in
  let tangent := tangent pi in
  let vtLocal := dot freestream tangent in
  let vtLocal :=
    sumOver panels
      (fun j pj => sourceInfluenceTangent controlPoint pj tangent (strengthAt sigma j))
      vtLocal in
  let gammaPerPanel := gamma / numNat n in
  sumOver panels
    (fun _ pj => vortexInfluenceTangent controlPoint pj tangent gammaPerPanel)
    vtLocal.

(** [cp[i] = 1 - (vtLocal / flow.velocity) ** 2]. *)
Definition pressureCoefficient (flow : FlowConditions) (vtLocal : float) : float :=
  1 - Math_pow (vtLocal / velocity flow) 2.

(** The second half of [solvePanelMethod]: everything after the solve. *)
Definition postProcess (geometry : AirfoilGeometry) (flow : FlowConditions)
  (extendedA : Matrix) (rhs solution : list float) : PanelSolution :=
  let panels := panels geometry in
  let n := List.length panels in
  let freestream := freestreamOf flow in
  let sigma := firstn n solution in
  let gamma := getNum solution n in
  let vt := map (tangentialVelocity panels freestream sigma gamma) panels in
  let cp := map (pressureCoefficient flow) vt in
  let clGamma := (2 * gamma) / (velocity flow * chord geometry) in
  let clPressure := calculateLiftFromPressure panels cp (chord geometry) in
  let residual := calculateResidual extendedA solution rhs in
  mkSolution sigma gamma cp vt clGamma clPressure residual 1.

Definition solvePanelMethod (geometry : AirfoilGeometry) (flow : FlowConditions)
  (params : PanelMethodParameters) : Result PanelSolution :=
  let* system := assembleSystem geometry flow in
  let '(extendedA, rhs) := system in
  let* solution := solveLinearSystem extendedA rhs (regularization params) in
  Ok (postProcess geometry flow extendedA rhs solution).

Record Validation : Type := mkValidation {
  isValid : bool;
  warnings : list string
}.

Definition validateSolution (solution : PanelSolution) (geometry : AirfoilGeometry)
  (flow : FlowConditions) : Validation :=
  let warnings := [] in
  let isValid := true in
  let '(warnings, isValid) :=
    if residual solution >? 1e-6
    then (warnings ++ ["High residual: " ++ toExponential (residual solution) 2]%string,
          false)
    else (warnings, isValid) in
  let alphaRad := angleOfAttack flow in
  let thinAirfoilCL := 2 * Math_PI * alphaRad in
  let clDiff := Math_abs (clGamma solution - thinAirfoilCL) in
  let warnings :=
    if (Math_abs alphaRad >? 0.01) && (clDiff >? Math_abs thinAirfoilCL * 0.5)
    then warnings ++ ["CL deviates significantly from thin-airfoil theory: "
                      ++ toFixed (clGamma solution) 3 ++ " vs "
                      ++ toFixed thinAirfoilCL 3]%string
    else warnings in
  let clMethodDiff := Math_abs (clGamma solution - clPressure solution) in
  let warnings :=
    if clMethodDiff >? 0.1
    then warnings ++ ["CL methods disagree: Γ=" ++ toFixed (clGamma solution) 3
                      ++ ", pressure=" ++ toFixed (clPressure solution) 3]%string
    else warnings in
  let maxCp := Math_max (cp solution) in
  let minCp := Math_min (cp solution) in
  let warnings :=
    if (maxCp >? 2) || (minCp <? -10)
    then warnings ++ ["Extreme Cp values: max=" ++ toFixed maxCp 2
                      ++ ", min=" ++ toFixed minCp 2]%string
    else warnings in
  mkValidation isValid warnings.

End Solver.

(** ** [stream.ts] *)

Section Stream.
Context {M : MathLib}.

Definition fieldVelocity (point : Point2D) (geometry : AirfoilGeometry)
  (solution : PanelSolution) (flow : FlowConditions) : Vector2D :=
  totalVelocity point (panels geometry) (sigma solution) (gamma solution)
                (freestreamOf flow).

(** [a !== b] on booleans. *)
Definition crosses (pi pj point : Point2D) : bool :=
  negb (Bool.eqb (py pi >? py point) (py pj >? py point))
  && (px point <? (px pj - px pi) * (py point - py pi) / (py pj - py pi) + px pi).

(** Even-odd ray casting; the loop runs [i = 0 .. n-1] with [j] the previous
    index, starting at [n - 1]. *)
Definition isInsideAirfoil (point : Point2D) (airfoilPoints : list Point2D) : bool :=
  let n := List.length airfoilPoints in
  forRange 0 n
    (fun i inside =>
       let j := match i with O => (n - 1)%nat | S i' => i' end in
       let pi := nth i airfoilPoints undefinedPoint in
       let pj := nth j airfoilPoints undefinedPoint in
       if crosses pi pj point then negb inside else inside)
    false.

Record TraceParams : Type := mkTraceParams {
  stepSize : float;
  maxSteps : nat;
  tp_bounds : Bounds;
  minVelocity : float
}.

Definition outOfBounds (b : Bounds) (p : Point2D) : bool :=
  (px p <? xMin b) || (px p >? xMax b) || (py p <? yMin b) || (py p >? yMax b).

Definition speed (v : Vector2D) : float := Math_sqrt (px v * px v + py v * py v).

Section Trace.
Variables (geometry : AirfoilGeometry) (solution : PanelSolution)
          (flow : FlowConditions) (params : TraceParams).

(** The [for (step = 0; step < maxSteps; step++)] loop: [steps] iterations are
    left, [pts] is the array [points] so far. *)
Fixpoint traceLoop (steps : nat) (currentPoint : Point2D) (pts : list Point2D)
  : Streamline :=
  match steps with
  | O => mkStreamline pts false
  | S steps' =>
      let vel1 := fieldVelocity currentPoint geometry solution flow in
      let speed1 := speed vel1 in
      if speed1 <? minVelocity params then mkStreamline pts false
      else
        let halfStep := stepSize params / 2 in
        let midPoint :=
          mkPoint (px currentPoint + halfStep * px vel1 / speed1)
                  (py currentPoint + halfStep * py vel1 / speed1) in
        if outOfBounds (tp_bounds params) midPoint then mkStreamline pts true
        else if isInsideAirfoil midPoint (points geometry) then mkStreamline pts false
        else
          let vel2 := fieldVelocity midPoint geometry solution flow in
          let speed2 := speed vel2 in
          if speed2 <? minVelocity params then mkStreamline pts false
          else
            let nextPoint :=
              mkPoint (px currentPoint + stepSize params * px vel2 / speed2)
                      (py currentPoint + stepSize params * py vel2 / speed2) in
            if outOfBounds (tp_bounds params) nextPoint then mkStreamline pts true
            else if isInsideAirfoil nextPoint (points geometry)
            then mkStreamline pts false
            else traceLoop steps' nextPoint (pts ++ [nextPoint])
  end.

Definition traceStreamline (startPoint : Point2D) : Streamline :=
  let pts := [startPoint] in
  let currentPoint := startPoint in
  if isInsideAirfoil currentPoint (points geometry)
  then mkStreamline pts false
  else traceLoop (maxSteps params) currentPoint pts.

End Trace.

Record FieldParams : Type := mkFieldParams {
  nStreamlines : nat;
  fp_stepSize : float;
  fp_maxSteps : nat;
  seedDistance : float;
  yRange : float
}.

Definition fieldBounds (geometry : AirfoilGeometry) (params : FieldParams) : Bounds :=
  let xCoords := map px (points geometry) in
  let yCoords := map py (points geometry) in
  mkBounds (Math_min xCoords - seedDistance params)
           (Math_max xCoords + seedDistance params)
           (Math_min yCoords - yRange params)
           (Math_max yCoords + yRange params).

Definition fieldTraceParams (geometry : AirfoilGeometry) (flow : FlowConditions)
  (params : FieldParams) : TraceParams :=
  mkTraceParams (fp_stepSize params) (fp_maxSteps params)
                (fieldBounds geometry params) (velocity flow * 0.01).

Definition generateStreamlineField (geometry : AirfoilGeometry)
  (solution : PanelSolution) (flow : FlowConditions) (params : FieldParams)
  : StreamlineField :=
  let bounds := fieldBounds geometry params in
  let seedX := xMin bounds + seedDistance params * 0.1 in
  let streamlines :=
    forRange 0 (nStreamlines params)
      (fun i streamlines =>
         let t := numNat i / (numNat (nStreamlines params) - 1) in
         let seedY := yMin bounds + t * (yMax bounds - yMin bounds) in
         let startPoint := mkPoint seedX seedY in
         if isInsideAirfoil startPoint (points geometry) then streamlines
         else
           let streamline :=
             traceStreamline geometry solution flow
               (fieldTraceParams geometry flow params) startPoint in
           if (5 <? List.length (sl_points streamline))%nat
           then streamlines ++ [streamline]
           else streamlines)
      [] in
  mkField streamlines bounds.

End Stream.

(** ** The solver with its rows in a store

    [solveLinearSystem] overwrites the rows of [augmented] in place and swaps
    them by reference, while [extendedA], whose rows it copied, is read again
    afterwards for the residual.  Here the rows are objects of a store and a
    matrix is the array of their addresses, so that which row object a write
    reaches is part of the model. *)

Module Store.

Definition Addr : Type := nat.
Definition t : Type := list (list float).

Definition read (s : t) (a : Addr) : list float := nth a s [].
Definition write (s : t) (a : Addr) (row : list float) : t := setNth s a row.

(** [row[j] = v] on the row object at [a]. *)
Definition writeCell (s : t) (a : Addr) (j : nat) (v : float) : t :=
  write s a (setNth (read s a) j v).

(** Fresh row objects, one per row of [rows]. *)
Definition allocRows (rows : Matrix) (s : t) : list Addr * t :=
  (seq (List.length s) (List.length rows), s ++ rows).

Definition deref (s : t) (m : list Addr) : Matrix := map (read s) m.

(** [m] is an array of distinct addresses of [s]. *)
Definition wellFormed (m : list Addr) (s : t) : Prop :=
  NoDup m /\ forall a, In a m -> (a < List.length s)%nat.

End Store.

Section StoreSolver.
Context {M : MathLib}.
Import Store.

Definition entryS (s : Store.t) (m : list Addr) (i j : nat) : float :=
  getNum (read s (nth i m 0%nat)) j.

Definition regularizeS (augmented : list Addr) (regularization : float)
  (s : Store.t) : Store.t :=
  forRange 0 (List.length augmented)
    (fun i s =>
       writeCell s (nth i augmented 0%nat) i (entryS s augmented i i + regularization))
    s.

Definition findPivotS (s : Store.t) (augmented : list Addr) (k n : nat) : nat :=
  forRange (k + 1) n
    (fun i maxRow =>
       if Math_abs (entryS s augmented i k) >? Math_abs (entryS s augmented maxRow k)
       then i else maxRow)
    k.

(** The swap exchanges two addresses; no row object is touched. *)
Definition swapRowsS (augmented : list Addr) (k maxRow : nat) : list Addr :=
  if Nat.eqb maxRow k then augmented
  else
    let rowK := nth k augmented 0%nat in
    let rowMax := nth maxRow augmented 0%nat in
    setNth (setNth augmented k rowMax) maxRow rowK.

Definition eliminateRowS (augmented : list Addr) (i k n : nat) (s : Store.t)
  : Store.t :=
  let factor := entryS s augmented i k / entryS s augmented k k in
  forRange k (n + 1)
    (fun j s =>
       writeCell s (nth i augmented 0%nat) j
         (entryS s augmented i j - factor * entryS s augmented k j))
    s.

Definition eliminateColumnS (augmented : list Addr) (k n : nat) (s : Store.t)
  : Store.t :=
  forRange (k + 1) n (fun i s => eliminateRowS augmented i k n s) s.

Fixpoint eliminateS (ks : list nat) (n : nat) (augmented : list Addr)
  (s : Store.t) : Result (list Addr) * Store.t :=
  match ks with
  | [] => (Ok augmented, s)
  | k :: ks' =>
      let swapped := swapRowsS augmented k (findPivotS s augmented k n) in
      if Math_abs (entryS s swapped k k) <? PIVOT_TOLERANCE
      then (Err (SingularMatrix k), s)
      else eliminateS ks' n swapped (eliminateColumnS swapped k n s)
  end.

Definition solveLinearSystemS (A : list Addr) (b : list float)
  (regularization : float) (s : Store.t) : Result (list float) * Store.t :=
  let n := List.length A in
  let '(augmented, s) :=
    allocRows (map (fun i => read s (nth i A 0%nat) ++ [getNum b i]) (seq 0 n)) s in
  let s := regularizeS augmented regularization s in
  match eliminateS (seq 0 n) n augmented s with
  | (Ok reduced, s) => (Ok (backSubstitute (deref s reduced) n), s)
  | (Err e, s) => (Err e, s)
  end.

(** [solvePanelMethod] run in the store [s]: the rows of [extendedA] are
    allocated, the system is solved in place, and the residual reads
    [extendedA] back from the store the solve left.  (Rows allocated before a
    [TypeError] of the assembly are unreachable and left out.) *)
Definition solvePanelMethodS (geometry : AirfoilGeometry) (flow : FlowConditions)
  (params : PanelMethodParameters) (s : Store.t)
  : Result PanelSolution * Store.t :=
  match assembleSystem geometry flow with
  | Err e => (Err e, s)
  | Ok (rows, rhs) =>
      let '(extendedA, s) := allocRows rows s in
      match solveLinearSystemS extendedA rhs (regularization params) s with
      | (Ok solution, s) =>
          (Ok (postProcess geometry flow (deref s extendedA) rhs solution), s)
      | (Err e, s) => (Err e, s)
      end
  end.

End StoreSolver.

(** ** The rest of [geometry.ts] and [stream.ts] *)

Section MoreGeometry.
Context {M : MathLib}.

Definition distance (p1 p2 : Point2D) : float :=
  let dx := px p2 - px p1 in
  let dy := py p2 - py p1 in
  Math_sqrt (dx * dx + dy * dy).

Definition magnitude (v : Vector2D) : float :=
  Math_sqrt (px v * px v + py v * py v).

Definition normalize (v : Vector2D) : Vector2D :=
  let mag := magnitude v in
  if mag <? 1e-12 then mkPoint 0 0
  else mkPoint (px v / mag) (py v / mag).

(** [findStagnationPoints]: a 21 x 21 grid over [searchBounds]; [tolerance] is
    the parameter whose default is [1e-6]. *)
Definition findStagnationPoints (geometry : AirfoilGeometry)
  (solution : PanelSolution) (flow : FlowConditions) (searchBounds : Bounds)
  (tolerance : float) : list Point2D :=
  let gridSize := 20%nat in
  let dx := (xMax searchBounds - xMin searchBounds) / numNat gridSize in
  let dy := (yMax searchBounds - yMin searchBounds) / numNat gridSize in
  forRange 0 (gridSize + 1)
    (fun i stagnationPoints =>
       forRange 0 (gridSize + 1)
         (fun j stagnationPoints =>
            let point := mkPoint (xMin searchBounds + numNat i * dx)
                                 (yMin searchBounds + numNat j * dy) in
            if isInsideAirfoil point (points geometry) then stagnationPoints
            else
              let vel := fieldVelocity point geometry solution flow in
              let speed := Math_sqrt (px vel * px vel + py vel * py vel) in
              if speed <? tolerance then stagnationPoints ++ [point]
              else stagnationPoints)
         stagnationPoints)
    [].

Record VelocityField : Type := mkVelocityField {
  vf_x : list float;
  vf_y : list float;
  velocityMagnitude : list (list float)
}.

(** [calculateVelocityField]; [resolution] is the parameter whose default is 50. *)
Definition calculateVelocityField (geometry : AirfoilGeometry)
  (solution : PanelSolution) (flow : FlowConditions) (bounds : Bounds)
  (resolution : nat) : VelocityField :=
  let dx := (xMax bounds - xMin bounds) / (numNat resolution - 1) in
  let dy := (yMax bounds - yMin bounds) / (numNat resolution - 1) in
  let x := map (fun i => xMin bounds + numNat i * dx) (seq 0 resolution) in
  let y := map (fun i => yMin bounds + numNat i * dy) (seq 0 resolution) in
  let velocityMagnitude :=
    map (fun j =>
           map (fun i =>
                  let point := mkPoint (getNum x i) (getNum y j) in
                  if isInsideAirfoil point (points geometry) then 0
                  else
                    let vel := fieldVelocity point geometry solution flow in
                    Math_sqrt (px vel * px vel + py vel * py vel))
               (seq 0 resolution))
        (seq 0 resolution) in
  mkVelocityField x y velocityMagnitude.

End MoreGeometry.

(** ** The store of the demo ([lib/store]) and the geometry of [PanelTab] *)

(** [Math.round]: the nearest integer, ties towards [+Infinity]; an argument in
    [[-0.5, 0)] gives [-0]. *)
Definition Math_round (x : float) : float :=
  match Prim2SF x with
  | S754_finite s m e =>
      if (0 <=? e)%Z then x
      else
        let n := ((cond_Zopp s (2 * Z.pos m) + 2 ^ (- e)) / 2 ^ (- e + 1))%Z in
        if (n =? 0)%Z then (if s then -0 else 0) else num n
  | _ => x
  end.

Inductive Tab : Type := TabEtt | TabPanel | TabTrefftz.

Record DemoState : Type := mkDemoState {
  activeTab : Tab;
  showStreamlines : bool;
  nacaDigits : string;
  st_chord : float;
  st_velocity : float;
  st_density : float;
  st_angleOfAttack : float;
  st_nPanels : float;
  pathDiffPercent : float;
  span : float;
  area : float
}.

Definition defaultState : DemoState :=
  mkDemoState TabEtt false "0012" 1.0 10.0 1.225 5.0 120 1.0 10.0 20.0.

(** [/^\d{4}$/.test(digits)]. *)
Definition isNacaDigits (digits : string) : bool :=
  match parseNacaDigits digits with Some _ => true | None => false end.

(** [Math.max(lo, Math.min(hi, x))]. *)
Definition clamp (lo hi x : float) : float := Math_max [lo; Math_min [hi; x]].

Definition setActiveTab (tab : Tab) (st : DemoState) : DemoState :=
  mkDemoState tab (showStreamlines st) (nacaDigits st) (st_chord st)
    (st_velocity st) (st_density st) (st_angleOfAttack st) (st_nPanels st)
    (pathDiffPercent st) (span st) (area st).

Definition setShowStreamlines (show : bool) (st : DemoState) : DemoState :=
  mkDemoState (activeTab st) show (nacaDigits st) (st_chord st)
    (st_velocity st) (st_density st) (st_angleOfAttack st) (st_nPanels st)
    (pathDiffPercent st) (span st) (area st).

Definition setNacaDigits (digits : string) (st : DemoState) : DemoState :=
  if isNacaDigits digits
  then mkDemoState (activeTab st) (showStreamlines st) digits (st_chord st)
         (st_velocity st) (st_density st) (st_angleOfAttack st) (st_nPanels st)
         (pathDiffPercent st) (span st) (area st)
  else st.

Definition setChord (chord : float) (st : DemoState) : DemoState :=
  mkDemoState (activeTab st) (showStreamlines st) (nacaDigits st)
    (clamp 0.1 10 chord)
    (st_velocity st) (st_density st) (st_angleOfAttack st) (st_nPanels st)
    (pathDiffPercent st) (span st) (area st).

Definition setVelocity (velocity : float) (st : DemoState) : DemoState :=
  mkDemoState (activeTab st) (showStreamlines st) (nacaDigits st) (st_chord st)
    (clamp 1 1000 velocity)
    (st_density st) (st_angleOfAttack st) (st_nPanels st)
    (pathDiffPercent st) (span st) (area st).

Definition setDensity (density : float) (st : DemoState) : DemoState :=
  mkDemoState (activeTab st) (showStreamlines st) (nacaDigits st) (st_chord st)
    (st_velocity st)
    (clamp 0.1 10 density)
    (st_angleOfAttack st) (st_nPanels st)
    (pathDiffPercent st) (span st) (area st).

Definition setAngleOfAttack (aoa : float) (st : DemoState) : DemoState :=
  mkDemoState (activeTab st) (showStreamlines st) (nacaDigits st) (st_chord st)
    (st_velocity st) (st_density st)
    (clamp (-30) 30 aoa)
    (st_nPanels st) (pathDiffPercent st) (span st) (area st).

Definition setNPanels (nPanels : float) (st : DemoState) : DemoState :=
  mkDemoState (activeTab st) (showStreamlines st) (nacaDigits st) (st_chord st)
    (st_velocity st) (st_density st) (st_angleOfAttack st)
    (clamp 60 240 (Math_round nPanels))
    (pathDiffPercent st) (span st) (area st).

Definition setPathDiffPercent (percent : float) (st : DemoState) : DemoState :=
  mkDemoState (activeTab st) (showStreamlines st) (nacaDigits st) (st_chord st)
    (st_velocity st) (st_density st) (st_angleOfAttack st) (st_nPanels st)
    (clamp 0 20 percent)
    (span st) (area st).

Definition setSpan (span' : float) (st : DemoState) : DemoState :=
  mkDemoState (activeTab st) (showStreamlines st) (nacaDigits st) (st_chord st)
    (st_velocity st) (st_density st) (st_angleOfAttack st) (st_nPanels st)
    (pathDiffPercent st)
    (clamp 1 100 span')
    (area st).

Definition setArea (area' : float) (st : DemoState) : DemoState :=
  mkDemoState (activeTab st) (showStreamlines st) (nacaDigits st) (st_chord st)
    (st_velocity st) (st_density st) (st_angleOfAttack st) (st_nPanels st)
    (pathDiffPercent st) (span st)
    (clamp 1 1000 area').

Definition resetToDefaults (st : DemoState) : DemoState :=
  mkDemoState (activeTab defaultState) (showStreamlines defaultState)
    (nacaDigits defaultState) (st_chord defaultState) (st_velocity defaultState)
    (st_density defaultState) (st_angleOfAttack defaultState)
    (st_nPanels defaultState) (pathDiffPercent defaultState)
    (span defaultState) (area defaultState).

Definition resetEttParams (st : DemoState) : DemoState :=
  mkDemoState (activeTab st) (showStreamlines st) (nacaDigits st)
    (st_chord defaultState) (st_velocity defaultState) (st_density defaultState)
    (st_angleOfAttack defaultState) (st_nPanels st)
    (pathDiffPercent defaultState) (span st) (area st).

Definition resetPanelParams (st : DemoState) : DemoState :=
  mkDemoState (activeTab st) (showStreamlines defaultState)
    (nacaDigits defaultState) (st_chord defaultState) (st_velocity defaultState)
    (st_density defaultState) (st_angleOfAttack defaultState)
    (st_nPanels defaultState) (pathDiffPercent st) (span st) (area st).

Definition resetTrefftzParams (st : DemoState) : DemoState :=
  mkDemoState (activeTab st) (showStreamlines st) (nacaDigits st) (st_chord st)
    (st_velocity defaultState) (st_density defaultState) (st_angleOfAttack st)
    (st_nPanels st) (pathDiffPercent st)
    (span defaultState) (area defaultState).

(** The actions of the store. *)
Inductive Action : Type :=
| SetActiveTab (tab : Tab)
| SetShowStreamlines (show : bool)
| SetNacaDigits (digits : string)
| SetChord (chord : float)
| SetVelocity (velocity : float)
| SetDensity (density : float)
| SetAngleOfAttack (aoa : float)
| SetNPanels (nPanels : float)
| SetPathDiffPercent (percent : float)
| SetSpan (span : float)
| SetArea (area : float)
| ResetToDefaults
| ResetEttParams
| ResetPanelParams
| ResetTrefftzParams.

Definition dispatch (st : DemoState) (a : Action) : DemoState :=
  match a with
  | SetActiveTab tab => setActiveTab tab st
  | SetShowStreamlines show => setShowStreamlines show st
  | SetNacaDigits digits => setNacaDigits digits st
  | SetChord chord => setChord chord st
  | SetVelocity velocity => setVelocity velocity st
  | SetDensity density => setDensity density st
  | SetAngleOfAttack aoa => setAngleOfAttack aoa st
  | SetNPanels nPanels => setNPanels nPanels st
  | SetPathDiffPercent percent => setPathDiffPercent percent st
  | SetSpan span => setSpan span st
  | SetArea area => setArea area st
  | ResetToDefaults => resetToDefaults st
  | ResetEttParams => resetEttParams st
  | ResetPanelParams => resetPanelParams st
  | ResetTrefftzParams => resetTrefftzParams st
  end.

(** The state after a sequence of actions on the initial store. *)
Definition runStore (actions : list Action) : DemoState :=
  fold_left dispatch actions defaultState.

Section PanelTab.
Context {M : MathLib}.

Definition panelTabParams (nPanels : Z) : PanelMethodParameters :=
  mkParams nPanels 1e-9 1e-12 1000 1e-10.

(** The [airfoilGeometry] memo of [PanelTab]: [nPanels] is the integer the
    store holds, and [None] is the [null] of the [catch]. *)
Definition panelTabGeometry (nacaDigits : string) (chord : float) (nPanels : Z)
  : option AirfoilGeometry :=
  match createAirfoilGeometry
          (mkNaca nacaDigits (Z.to_nat (Z.max 100 (nPanels * 2))) chord)
          (panelTabParams nPanels) with
  | Ok g => Some g
  | Err _ => None
  end.

(** The [flowConditions] of [handleSolve]: degrees to radians. *)
Definition panelTabFlow (velocity density angleOfAttack : float) : FlowConditions :=
  mkFlow velocity density (angleOfAttack * Math_PI / 180).

End PanelTab.

(** ** More vocabulary *)

(** An ASCII decimal digit. *)
Definition isDigit (c : ascii) : bool :=
  ((48 <=? nat_of_ascii c) && (nat_of_ascii c <=? 57))%nat.

(** A zero of either sign, or [NaN]. *)
Definition zeroOrNan (x : float) : Prop := x = 0 \/ x = -0 \/ x = nan.

(** Inside a closed numeric range in the order of the floats. *)
Definition within (lo hi x : float) : bool := (lo <=? x) && (x <=? hi).

(** What [Math.max(lo, Math.min(hi, x))] can return: a number of the range,
    or [NaN]. *)
Definition withinOrNan (lo hi x : float) : bool := is_nan x || within lo hi x.

(** The ranges the setters of the store keep the numeric fields in. *)
Definition fieldsInRange (st : DemoState) : bool :=
  withinOrNan 0.1 10 (st_chord st)
  && withinOrNan 1 1000 (st_velocity st)
  && withinOrNan 0.1 10 (st_density st)
  && withinOrNan (-30) 30 (st_angleOfAttack st)
  && withinOrNan 60 240 (st_nPanels st)
  && withinOrNan 0 20 (pathDiffPercent st)
  && withinOrNan 1 100 (span st)
  && withinOrNan 1 1000 (area st).

(** ** A reference host library

    Series implementations of the host functions, good to roughly single
    precision on the ranges the panel code uses (angles within [-pi, pi]).
    They serve to run the definitions on concrete inputs; no theorem below
    depends on them except the examples that say so. *)

Module RefMath.

(** [acc + t1 + t2 + ...] where [t(k+1) = next k t(k)], [n] terms. *)
Fixpoint series (n : nat) (k term acc : float) (next : float -> float -> float)
  : float :=
  match n with
  | O => acc
  | S n' => let term' := next k term in series n' (k + 1) term' (acc + term') next
  end.

Definition cos (x : float) : float :=
  series 14 0 1 1 (fun k t => - t * (x * x) / ((2 * k + 1) * (2 * k + 2))).

Definition sin (x : float) : float :=
  series 14 0 x x (fun k t => - t * (x * x) / ((2 * k + 2) * (2 * k + 3))).

Definition halfAngle (x : float) : float := x / (1 + Math_sqrt (1 + x * x)).

Definition atanSmall (x : float) : float :=
  let z := halfAngle (halfAngle (halfAngle x)) in
  8 * series 12 0 z z (fun k t => - t * (z * z) * (2 * k + 1) / (2 * k + 3)).

Definition atan (x : float) : float :=
  if x >? 1 then Math_PI / 2 - atanSmall (1 / x)
  else if x <? -1 then - (Math_PI / 2) - atanSmall (1 / x)
  else atanSmall x.

Definition atan2 (y x : float) : float :=
  if is_nan y || is_nan x then nan
  else if x >? 0 then atan (y / x)
  else if x <? 0 then
    if y <? 0 then atan (y / x) - Math_PI else atan (y / x) + Math_PI
  else if y >? 0 then Math_PI / 2
  else if y <? 0 then - (Math_PI / 2)
  else y.

Definition LN2 : float := 0.6931471805599453.

Definition log (x : float) : float :=
  if is_nan x || (x <? 0) then nan
  else if x =? 0 then neg_infinity
  else if is_infinity x then infinity
  else
    let '(m, e) := Z.frexp x in
    let z := (m - 1) / (m + 1) in
    num e * LN2
    + 2 * series 24 0 z z (fun k t => t * (z * z) * (2 * k + 1) / (2 * k + 3)).

Definition exp (x : float) : float :=
  let y := x / 1024 in
  let e := series 12 0 1 1 (fun k t => t * y / (k + 1)) in
  Nat.iter 10 (fun v => v * v) e.

Definition pow (x y : float) : float :=
  if y =? 2 then x * x else exp (y * log x).

End RefMath.

#[local] Instance refMath : MathLib := {|
  Math_cos := RefMath.cos;
  Math_sin := RefMath.sin;
  Math_atan := RefMath.atan;
  Math_atan2 := RefMath.atan2;
  Math_log := RefMath.log;
  Math_pow := RefMath.pow
|}.

(** ** Sample inputs *)

(** The panel from (0, 0) to (1, 0), as [panelize] builds it for a chord of 1
    and [epsilon = 1e-9]. *)
Definition unitPanel : Panel :=
  mkPanel 0 0 1 0 1 0 (mkPoint 1 0) (mkPoint 0 (-1)) (mkPoint 0.5 1e-9).

Definition naca0012 : NacaParameters := mkNaca "0012" 20 1.

Definition defaultParams : PanelMethodParameters :=
  mkParams 20 1e-9 1e-12 1000 1e-10.

(** A diamond contour in the point order of [naca4], its four panels, and a
    flow at 5 degrees. *)
Definition diamondPoints : list Point2D :=
  [mkPoint 0 0; mkPoint 0.5 0.1; mkPoint 1 0; mkPoint 0.5 (-0.1); mkPoint 0 0].

Definition diamond : AirfoilGeometry :=
  let panels := panelize (M := refMath) diamondPoints defaultParams in
  mkGeometry diamondPoints panels 1 0 (Z.of_nat (List.length panels) - 1).

Definition sampleFlow : FlowConditions := mkFlow 10 1.225 0.0872664626.

(** A single panel whose control point lies on it, with no regularization. *)
Definition flatPanel : Panel :=
  mkPanel 0 0 1 0 1 0 (mkPoint 1 0) (mkPoint 0 (-1)) (mkPoint 0.5 0).

Definition flatGeometry : AirfoilGeometry :=
  mkGeometry [mkPoint 0 0; mkPoint 1 0] [flatPanel] 1 0 0.

Definition bareParams : PanelMethodParameters := mkParams 1 0 0 1000 1e-10.

(** The diamond with a lower trailing-edge index one past its last panel. *)
Definition diamondBadIndex : AirfoilGeometry :=
  mkGeometry diamondPoints (panels diamond) 1 0 4.

(** A request for a negative number of panels. *)
Definition negativeRequest : PanelMethodParameters :=
  mkParams (-5) 1e-9 1e-12 1000 1e-10.

(** The panel from (0, 0) to (10, 0) of a flat contour of chord 10, as
    [panelize] builds it for [epsilon = 1e-9], and a point 5e-10 above its
    middle: closer than 1e-10 times the chord, farther than 1e-10. *)
Definition longPanel : Panel :=
  mkPanel 0 0 10 0 10 0 (mkPoint 1 0) (mkPoint 0 (-1)) (mkPoint 5 1e-8).

Definition nearLongPanel : Point2D := mkPoint 5 5e-10.

(** ** Vocabulary of the specification *)

Section SpecVocabulary.
Context {M : MathLib}.

(** The three checks that do not touch [isValid]. *)
Definition thinAirfoilWarning (solution : PanelSolution) (flow : FlowConditions) : bool :=
  (Math_abs (angleOfAttack flow) >? 0.01)
  && (Math_abs (clGamma solution - 2 * Math_PI * angleOfAttack flow)
      >? Math_abs (2 * Math_PI * angleOfAttack flow) * 0.5).

Definition clDisagreeWarning (solution : PanelSolution) : bool :=
  Math_abs (clGamma solution - clPressure solution) >? 0.1.

Definition extremeCpWarning (solution : PanelSolution) : bool :=
  (Math_max (cp solution) >? 2) || (Math_min (cp solution) <? -10).

Definition countTrue (bs : list bool) : nat := List.length (filter (fun b => b) bs).

(** The pivots met by Gaussian elimination with partial pivoting over the
    steps [ks], run to the end without the singularity test: at step [k] the
    pivot is the diagonal entry after the row swap. *)
Fixpoint pivots (ks : list nat) (n : nat) (augmented : Matrix) : list float :=
  match ks with
  | [] => []
  | k :: ks' =>
      let swapped := swapRows augmented k (findPivot augmented k n) in
      entry swapped k k :: pivots ks' n (eliminateColumn swapped k n)
  end.

Definition belowTolerance (pivot : float) : bool :=
  Math_abs pivot <? PIVOT_TOLERANCE.

(** The ways a streamline stops (section 4.5 of the specification), and one
    Runge-Kutta step read as a transition of that state machine. *)
Inductive Termination : Type :=
| ReachedBoundary    (* a midpoint or a full-step point left the bounding box *)
| EnteredBody        (* a midpoint or a full-step point is inside the contour *)
| Stagnated          (* local speed below the minimum *)
| StepCap            (* [maxSteps] steps were taken *)
| SeedInside.        (* the seed is inside the contour *)

Inductive StepResult : Type :=
| Stops (why : Termination)
| Advances (next : Point2D).

Definition isBoundary (why : Termination) : bool :=
  match why with ReachedBoundary => true | _ => false end.

Section Tracing.
Variables (geometry : AirfoilGeometry) (solution : PanelSolution)
          (flow : FlowConditions) (params : TraceParams).

Definition rk2Midpoint (p : Point2D) : Point2D :=
  let v := fieldVelocity p geometry solution flow in
  mkPoint (px p + stepSize params / 2 * px v / speed v)
          (py p + stepSize params / 2 * py v / speed v).

Definition rk2Next (p : Point2D) : Point2D :=
  let v := fieldVelocity (rk2Midpoint p) geometry solution flow in
  mkPoint (px p + stepSize params * px v / speed v)
          (py p + stepSize params * py v / speed v).

Definition tooSlow (p : Point2D) : bool :=
  speed (fieldVelocity p geometry solution flow) <? minVelocity params.

Definition checkPoint (q : Point2D) : option Termination :=
  if outOfBounds (tp_bounds params) q then Some ReachedBoundary
  else if isInsideAirfoil q (points geometry) then Some EnteredBody
  else None.

Definition stepOutcome (p : Point2D) : StepResult :=
  if tooSlow p then Stops Stagnated
  else match checkPoint (rk2Midpoint p) with
       | Some why => Stops why
       | None =>
           if tooSlow (rk2Midpoint p) then Stops Stagnated
           else match checkPoint (rk2Next p) with
                | Some why => Stops why
                | None => Advances (rk2Next p)
                end
       end.

(** [Integrating k p why]: integration from [p] with [k] steps left ends for
    the reason [why]. *)
Inductive Integrating : nat -> Point2D -> Termination -> Prop :=
| integrating_cap (p : Point2D) :
    Integrating 0 p StepCap
| integrating_stop (k : nat) (p : Point2D) (why : Termination) :
    stepOutcome p = Stops why -> Integrating (S k) p why
| integrating_step (k : nat) (p next : Point2D) (why : Termination) :
    stepOutcome p = Advances next -> Integrating k next why ->
    Integrating (S k) p why.

Inductive Seeded (start : Point2D) : Termination -> Prop :=
| seeded_inside :
    isInsideAirfoil start (points geometry) = true -> Seeded start SeedInside
| seeded_outside (why : Termination) :
    isInsideAirfoil start (points geometry) = false ->
    Integrating (maxSteps params) start why -> Seeded start why.

End Tracing.

End SpecVocabulary.

(** * Properties *)

(** ** Float facts used below *)

Lemma SFopp_binary_round_aux (prec emax : Z) (s : bool) (m e : Z) (l : location) :
  SFopp (binary_round_aux prec emax s m e l)
  = binary_round_aux prec emax (negb s) m e l.
Proof.
  unfold binary_round_aux.
  destruct (shr_fexp prec emax m e l) as [mrs e'].
  destruct (shr_fexp prec emax _ e' loc_Exact) as [mrs' e''].
  destruct (shr_m mrs'); [reflexivity | | reflexivity].
  destruct (e'' <=? emax - prec)%Z; reflexivity.
Qed.

(** Negation commutes with multiplication, signed zeros and [NaN] included. *)
Lemma mul_opp_l (a b : float) : (- a) * b = - (a * b).
Proof.
  apply Prim2SF_inj.
  rewrite mul_spec, !opp_spec, mul_spec.
  destruct (Prim2SF a) as [sa | sa | | sa ma ea], (Prim2SF b) as [sb | sb | | sb mb eb];
    cbn; try reflexivity;
    try (destruct sa, sb; reflexivity).
  unfold SF64mul. cbn.
  rewrite SFopp_binary_round_aux.
  destruct sa, sb; reflexivity.
Qed.

(** ** Geometry *)

Section GeometryFacts.
Context {M : MathLib}.

Lemma panelize_length (points : list Point2D) (params : PanelMethodParameters) :
  List.length (panelize points params)
  = Z.to_nat (Z.min (nPanels params) (Z.of_nat (List.length points) - 1)).
Proof.
  unfold panelize. now rewrite length_map, length_seq.
Qed.

(** C8.  For every point loop and every integer request, [panelize] returns
    max(0, min(requested count, number of points - 1)) panels and never
    rejects a request.  This is min(requested count, number of points - 1),
    at most the request and at most the number of points minus one, exactly
    when the request is not negative and the loop is not empty; a negative
    request or an empty loop gives no panel, which is more than a negative
    request and more than the -1 of an empty loop. *)
Theorem panelize_count (points : list Point2D) (params : PanelMethodParameters) :
  let requested := nPanels params in
  let available := (Z.of_nat (List.length points) - 1)%Z in
  let count := Z.of_nat (List.length (panelize points params)) in
  count = Z.max 0 (Z.min requested available)
  /\ ((0 <= requested)%Z -> (0 <= available)%Z ->
      count = Z.min requested available
      /\ (count <= requested)%Z
      /\ (count <= available)%Z)
  /\ ((requested < 0)%Z \/ (available < 0)%Z -> count = 0%Z)
  /\ ((count <= requested)%Z <-> (0 <= requested)%Z)
  /\ ((count <= available)%Z <-> (0 <= available)%Z).
Proof.
  cbv zeta. rewrite panelize_length. lia.
Qed.

End GeometryFacts.

(** ** Influence kernels *)

Section InfluenceFacts.
Context {M : MathLib}.


End InfluenceFacts.

(** ** Validation *)

Section ValidationFacts.
Context {M : MathLib} {F : NumberFormat}.

Lemma validateSolution_isValid (solution : PanelSolution)
  (geometry : AirfoilGeometry) (flow : FlowConditions) :
  isValid (validateSolution solution geometry flow)
  = negb (residual solution >? 1e-6).
Proof.
  unfold validateSolution.
  destruct (residual solution >? 1e-6); reflexivity.
Qed.

(** C10.  [validateSolution] reports [isValid = false] exactly when
    [solution.residual > 1e-6].  The thin-airfoil, lift-agreement and extreme-Cp
    checks each append one warning and nothing else: the number of warnings is
    the number of checks that fire, whatever [isValid] is. *)
Theorem validateSolution_valid_iff_residual (solution : PanelSolution)
  (geometry : AirfoilGeometry) (flow : FlowConditions) :
  (isValid (validateSolution solution geometry flow) = false
   <-> (residual solution >? 1e-6) = true)
  /\ List.length (warnings (validateSolution solution geometry flow))
     = countTrue [residual solution >? 1e-6;
                  thinAirfoilWarning solution flow;
                  clDisagreeWarning solution;
                  extremeCpWarning solution].
Proof.
  split.
  - rewrite validateSolution_isValid.
    destruct (residual solution >? 1e-6); cbn; intuition congruence.
  - unfold validateSolution, thinAirfoilWarning, clDisagreeWarning, extremeCpWarning.
    destruct (residual solution >? 1e-6);
      destruct (_ && _); destruct (_ >? 0.1); destruct (_ || _); reflexivity.
Qed.

End ValidationFacts.

(** ** Lists as arrays *)

Section ArrayFacts.
Context {A B : Type}.

Lemma nth_map_some (f : A -> B) (l : list A) (i : nat) (x : A) (d : B) :
  nth_error l i = Some x -> nth i (map f l) d = f x.
Proof.
  intros H. apply nth_error_nth. now apply map_nth_error.
Qed.

Lemma nth_error_lt (l : list A) (i : nat) (x : A) :
  nth_error l i = Some x -> (i < List.length l)%nat.
Proof.
  intros H. apply nth_error_Some. congruence.
Qed.

Lemma nth_snoc (l : list A) (x d : A) : nth (List.length l) (l ++ [x]) d = x.
Proof.
  rewrite app_nth2 by lia. now rewrite Nat.sub_diag.
Qed.

Lemma length_setNth (l : list A) (i : nat) (v : A) :
  List.length (setNth l i v) = List.length l.
Proof.
  revert i; induction l as [| h t IH]; intros [| i]; cbn; auto.
Qed.

Lemma nth_setNth_eq (l : list A) (i : nat) (v d : A) :
  (i < List.length l)%nat -> nth i (setNth l i v) d = v.
Proof.
  revert i; induction l as [| h t IH]; intros [| i] H; cbn in *; try lia; auto.
  apply IH; lia.
Qed.

Lemma nth_setNth_neq (l : list A) (i j : nat) (v d : A) :
  i <> j -> nth j (setNth l i v) d = nth j l d.
Proof.
  revert i j; induction l as [| h t IH]; intros [| i] [| j] H; cbn; auto; try lia.
Qed.

End ArrayFacts.

Lemma nth_map_seq {B : Type} (f : nat -> B) (n i : nat) (d : B) :
  (i < n)%nat -> nth i (map f (seq 0 n)) d = f i.
Proof.
  intros H. apply nth_map_some.
  rewrite nth_error_nth' with (d := O) by now rewrite length_seq.
  now rewrite seq_nth.
Qed.

Lemma getNum_app1 (l : list float) (x : float) (i : nat) :
  (i < List.length l)%nat -> getNum (l ++ [x]) i = getNum l i.
Proof.
  intros H. unfold getNum. now rewrite app_nth1.
Qed.

Lemma getNum_snoc (l : list float) (x : float) (n : nat) :
  List.length l = n -> getNum (l ++ [x]) n = x.
Proof.
  intros <-. apply nth_snoc.
Qed.

Lemma entry_app_row (rows : Matrix) (last : list float) (i j : nat) :
  (i < List.length rows)%nat -> entry (rows ++ [last]) i j = entry rows i j.
Proof.
  intros H. unfold entry. now rewrite app_nth1.
Qed.

Lemma entry_app_last (rows : Matrix) (last : list float) (n j : nat) :
  List.length rows = n -> entry (rows ++ [last]) n j = getNum last j.
Proof.
  intros <-. unfold entry. now rewrite nth_snoc.
Qed.

Lemma entry_map_seq (f : nat -> list float) (n i j : nat) :
  (i < n)%nat -> entry (map f (seq 0 n)) i j = getNum (f i) j.
Proof.
  intros H. unfold entry. now rewrite nth_map_seq.
Qed.

Lemma getNum_map_seq (f : nat -> float) (n i : nat) :
  (i < n)%nat -> getNum (map f (seq 0 n)) i = f i.
Proof.
  intros H. unfold getNum. now rewrite nth_map_seq.
Qed.

Lemma getNum_map_some {A : Type} (f : A -> float) (l : list A) (i : nat) (x : A) :
  nth_error l i = Some x -> getNum (map f l) i = f x.
Proof.
  apply nth_map_some.
Qed.

(** ** Assembly of the linear system *)

Section AssemblyFacts.
Context {M : MathLib}.

Lemma entry_buildSourceInfluenceMatrix (ps : list Panel) (i j : nat) (pi pj : Panel) :
  nth_error ps i = Some pi ->
  nth_error ps j = Some pj ->
  entry (buildSourceInfluenceMatrix ps) i j
  = sourceInfluenceNormal (controlPoint pi) pj (normal pi) 1.
Proof.
  intros Hi Hj. unfold entry, getNum, buildSourceInfluenceMatrix.
  rewrite (nth_map_some _ _ _ _ _ Hi).
  now rewrite (nth_map_some _ _ _ _ _ Hj).
Qed.

Lemma nth_buildVortexInfluenceVector (ps : list Panel) (i : nat) (pi : Panel) :
  nth_error ps i = Some pi ->
  getNum (buildVortexInfluenceVector ps) i
  = sumOver ps
      (fun _ pj => vortexInfluenceNormal (controlPoint pi) pj (normal pi)
                     (1 / numNat (List.length ps)))
      0.
Proof.
  intros Hi. unfold getNum, buildVortexInfluenceVector.
  now rewrite (nth_map_some _ _ _ _ _ Hi).
Qed.

(** With both trailing-edge indices inside the panel array the assembly
    succeeds, and this is the system it builds. *)
Lemma assembleSystem_ok (geometry : AirfoilGeometry) (flow : FlowConditions)
  (upper lower : Panel) :
  index (panels geometry) (teUpperIndex geometry) = Some upper ->
  index (panels geometry) (teLowerIndex geometry) = Some lower ->
  let ps := panels geometry in
  let n := List.length ps in
  let U := freestreamOf flow in
  assembleSystem geometry flow
  = Ok (map (fun i =>
               map (fun j => entry (buildSourceInfluenceMatrix ps) i j) (seq 0 n)
               ++ [getNum (buildVortexInfluenceVector ps) i])
            (seq 0 n)
        ++ [map (fun j =>
                   getNum
                     (map (fun pj =>
                             sourceInfluenceTangent (controlPoint upper) pj (tangent upper) 1
                             - sourceInfluenceTangent (controlPoint lower) pj (tangent lower) 1)
                          ps) j)
                (seq 0 n)
            ++ [sumOver ps
                  (fun _ pj =>
                     vortexInfluenceTangent (controlPoint upper) pj (tangent upper)
                       (1 / numNat n)
                     - vortexInfluenceTangent (controlPoint lower) pj (tangent lower)
                         (1 / numNat n))
                  0]],
        map (fun p => - (px U * px (normal p) + py U * py (normal p))) ps
        ++ [- (dot U (tangent upper) - dot U (tangent lower))]).
Proof.
  intros Hu Hl ps n U.
  unfold assembleSystem, buildKuttaCoefficients.
  rewrite Hu, Hl. reflexivity.
Qed.

End AssemblyFacts.

(** ** Post-processing *)

Lemma fold_left_invariant {S X : Type} (P : S -> Prop) (f : S -> X -> S)
  (xs : list X) (init : S) :
  P init -> (forall s x, P s -> P (f s x)) -> P (fold_left f xs init).
Proof.
  intros Hinit Hstep. revert init Hinit.
  induction xs as [| x xs IH]; intros init Hinit; cbn; auto.
Qed.

Lemma length_backSubstitute (augmented : Matrix) (n : nat) :
  List.length (backSubstitute augmented n) = n.
Proof.
  unfold backSubstitute.
  apply (fold_left_invariant (fun x => List.length x = n)).
  - apply repeat_length.
  - intros x i Hx. now rewrite length_setNth.
Qed.

Section SumOverFacts.
Context {M : MathLib} {A : Type}.

Lemma sumOver_ext_from (xs : list A) (f g : nat -> A -> float) (k : nat) (init : float) :
  (forall j x, nth_error xs j = Some x -> f (k + j)%nat x = g (k + j)%nat x) ->
  fold_left (fun acc jp => acc + f (fst jp) (snd jp))
            (combine (seq k (List.length xs)) xs) init
  = fold_left (fun acc jp => acc + g (fst jp) (snd jp))
              (combine (seq k (List.length xs)) xs) init.
Proof.
  revert k init. induction xs as [| x xs IH]; intros k init H; cbn; [reflexivity |].
  pose proof (H 0%nat x eq_refl) as H0. rewrite Nat.add_0_r in H0. rewrite H0.
  apply IH. intros j y Hj. rewrite Nat.add_succ_comm. now apply (H (S j)).
Qed.

(** Two sums over the same array agree when their terms agree at every index
    of the array. *)
Lemma sumOver_ext (xs : list A) (f g : nat -> A -> float) (init : float) :
  (forall j x, nth_error xs j = Some x -> f j x = g j x) ->
  sumOver xs f init = sumOver xs g init.
Proof.
  intros H. unfold sumOver. now apply sumOver_ext_from.
Qed.

End SumOverFacts.

(** The accumulation loops written as folds over the arrays themselves. *)
Lemma sumOver_no_index {A : Type} (xs : list A) (f : A -> float) (init : float) :
  sumOver xs (fun _ x => f x) init = fold_left (fun acc x => acc + f x) xs init.
Proof.
  unfold sumOver. generalize 0%nat as k. revert init.
  induction xs as [| x xs IH]; intros init k; cbn; [reflexivity | apply IH].
Qed.

Lemma sumOver_combine_from {A : Type} (xs : list A) (l : list float)
  (g : A -> float -> float) (d : float) (k : nat) (init : float) :
  List.length l = List.length xs ->
  fold_left (fun acc jp => acc + g (snd jp) (nth (fst jp - k) l d))
            (combine (seq k (List.length xs)) xs) init
  = fold_left (fun acc xv => acc + g (fst xv) (snd xv)) (combine xs l) init.
Proof.
  revert l k init. induction xs as [| x xs IH]; intros l k init Hlen;
    destruct l as [| v l]; cbn in Hlen; try discriminate;
    cbn [List.length seq combine fold_left fst snd]; [reflexivity |].
  rewrite Nat.sub_diag. cbn [nth].
  rewrite <- (IH l (S k)) by lia.
  apply (sumOver_ext_from xs (fun j x => g x (nth (j - k) (v :: l) d))
           (fun j x => g x (nth (j - S k) l d)) (S k)).
  intros j y _.
  replace (S k + j - k)%nat with (S j) by lia.
  replace (S k + j - S k)%nat with j by lia. reflexivity.
Qed.

Lemma sumOver_combine {A : Type} (xs : list A) (l : list float)
  (g : A -> float -> float) (d : float) (init : float) :
  List.length l = List.length xs ->
  sumOver xs (fun j x => g x (nth j l d)) init
  = fold_left (fun acc xv => acc + g (fst xv) (snd xv)) (combine xs l) init.
Proof.
  intros Hlen. rewrite <- (sumOver_combine_from xs l g d 0 init Hlen).
  unfold sumOver.
  apply (sumOver_ext_from xs (fun j x => g x (nth j l d))
           (fun j x => g x (nth (j - 0) l d)) 0).
  intros j y _. now rewrite Nat.sub_0_r.
Qed.

Section PostProcessFacts.
Context {M : MathLib}.

Lemma solvePanelMethod_inv (geometry : AirfoilGeometry) (flow : FlowConditions)
  (params : PanelMethodParameters) (sol : PanelSolution) :
  solvePanelMethod geometry flow params = Ok sol ->
  exists extendedA rhs reduced,
    assembleSystem geometry flow = Ok (extendedA, rhs)
    /\ eliminate (seq 0 (List.length extendedA)) (List.length extendedA)
         (regularize (augment extendedA rhs) (regularization params))
       = Ok reduced
    /\ sol = postProcess geometry flow extendedA rhs
               (backSubstitute reduced (List.length extendedA)).
Proof.
  unfold solvePanelMethod, solveLinearSystem.
  destruct (assembleSystem geometry flow) as [[extendedA rhs] | e]; cbn; [| discriminate].
  destruct (eliminate _ _ _) as [reduced | e] eqn:Helim; cbn; [| discriminate].
  intros [= <-]. now exists extendedA, rhs, reduced.
Qed.

Lemma assembleSystem_length (geometry : AirfoilGeometry) (flow : FlowConditions)
  (extendedA : Matrix) (rhs : list float) :
  assembleSystem geometry flow = Ok (extendedA, rhs) ->
  List.length extendedA = (List.length (panels geometry) + 1)%nat.
Proof.
  unfold assembleSystem.
  destruct (buildKuttaCoefficients _ _ _) as [k | e]; cbn; [| discriminate].
  destruct (index _ (teUpperIndex geometry)); [| discriminate].
  destruct (index _ (teLowerIndex geometry)); [| discriminate].
  intros [= <- <-]. now rewrite length_app, length_map, length_seq.
Qed.

(** C6.  Whenever [solvePanelMethod] returns a solution, with [n] panels:
    [sigma] has one entry per panel; [vt[i]] is the freestream velocity
    projected on the tangent of panel [i], plus, for every panel [j] in
    turn, the velocity of its source kernel at the control point of panel
    [i] for the strength [sigma[j]], projected on that tangent, plus, for
    every panel [j] in turn, the velocity of its vortex kernel there for
    the strength [gamma / n], projected on that tangent;
    [cp[i] = 1 - (vt[i] / velocity) ** 2]; [clGamma = 2 gamma / (velocity *
    chord)]; and [clPressure] adds up, over the panels,
    [(-cp[i]) * (x2 - x1) * normal.y / chord], starting from 0. *)
Theorem postprocessed_solution (geometry : AirfoilGeometry) (flow : FlowConditions)
  (params : PanelMethodParameters) (sol : PanelSolution) :
  solvePanelMethod geometry flow params = Ok sol ->
  let ps := panels geometry in
  let n := List.length ps in
  let Ux := velocity flow * Math_cos (angleOfAttack flow) in
  let Uy := velocity flow * Math_sin (angleOfAttack flow) in
  let along := fun v d : Vector2D => px v * px d + py v * py d in
  List.length (sigma sol) = n
  /\ List.length (vt sol) = n
  /\ List.length (cp sol) = n
  /\ (forall i pi, nth_error ps i = Some pi ->
        getNum (vt sol) i
        = fold_left
            (fun acc pj =>
               acc + along (vortexInfluence (controlPoint pi) pj
                              (gamma sol / numNat n))
                           (tangent pi))
            ps
            (fold_left
               (fun acc pj_sigma =>
                  acc + along (sourceInfluence (controlPoint pi) (fst pj_sigma)
                                 (snd pj_sigma))
                              (tangent pi))
               (combine ps (sigma sol))
               (Ux * px (tangent pi) + Uy * py (tangent pi)))
        /\ getNum (cp sol) i = 1 - Math_pow (getNum (vt sol) i / velocity flow) 2)
  /\ clGamma sol = (2 * gamma sol) / (velocity flow * chord geometry)
  /\ clPressure sol
     = fold_left
         (fun acc p_cp =>
            acc + (- snd p_cp) * (x2 (fst p_cp) - x1 (fst p_cp))
                  * py (normal (fst p_cp)) / chord geometry)
         (combine ps (cp sol))
         0.
Proof.
  intros Hsol ps n Ux Uy along.
  destruct (solvePanelMethod_inv _ _ _ _ Hsol) as (extendedA & rhs & reduced & Hsys & _ & ->).
  pose proof (assembleSystem_length _ _ _ _ Hsys) as Hlen. fold ps n in Hlen.
  rewrite Hlen. cbn [sigma vt cp gamma clGamma clPressure postProcess].
  fold ps n.
  set (U := freestreamOf flow).
  set (solution := backSubstitute reduced (n + 1)).
  assert (Hsigma : List.length (firstn n solution) = n).
  { rewrite length_firstn. unfold solution. rewrite length_backSubstitute. lia. }
  split; [exact Hsigma |].
  split; [now rewrite length_map |].
  split; [now rewrite !length_map |].
  split; [| split; [reflexivity |]].
  - intros i pi Hi.
    assert (Hvt : getNum (map (tangentialVelocity ps U (firstn n solution)
                                 (getNum solution n)) ps) i
                  = tangentialVelocity ps U (firstn n solution) (getNum solution n) pi)
      by now apply getNum_map_some.
    split.
    + rewrite Hvt. unfold tangentialVelocity. fold n.
      rewrite (sumOver_no_index ps
                 (fun pj => vortexInfluenceTangent (controlPoint pi) pj (tangent pi)
                              (getNum solution n / numNat n))).
      unfold strengthAt.
      rewrite (sumOver_combine ps (firstn n solution)
                 (fun pj s => sourceInfluenceTangent (controlPoint pi) pj (tangent pi) s)
                 1) by exact Hsigma.
      reflexivity.
    + rewrite (getNum_map_some _ _ _ _
                 (map_nth_error (tangentialVelocity ps U (firstn n solution)
                                   (getNum solution n)) _ _ Hi)).
      now rewrite Hvt.
  - unfold calculateLiftFromPressure, getNum.
    rewrite (sumOver_combine ps _
               (fun p c => (- c) * (x2 p - x1 p) * py (normal p) / chord geometry)
               nan) by now rewrite !length_map.
    reflexivity.
Qed.

End PostProcessFacts.

(** ** The linear solve *)

Section EliminationFacts.

Lemma length_pivots (ks : list nat) (n : nat) (augmented : Matrix) :
  List.length (pivots ks n augmented) = List.length ks.
Proof.
  revert augmented. induction ks as [| k ks IH]; intros augmented; cbn; auto.
Qed.

(** The elimination stops at the first step whose pivot is below the
    tolerance, and only there. *)
Lemma eliminate_error (ks : list nat) (n : nat) (augmented : Matrix) (e : Error) :
  eliminate ks n augmented = Err e ->
  exists pre k post,
    ks = pre ++ k :: post
    /\ e = SingularMatrix k
    /\ belowTolerance (nth (List.length pre) (pivots ks n augmented) nan) = true
    /\ forallb (fun p => negb (belowTolerance p))
               (firstn (List.length pre) (pivots ks n augmented)) = true.
Proof.
  revert augmented.
  induction ks as [| k ks IH]; intros augmented; cbn [eliminate pivots]; [discriminate |].
  set (pivot := entry (swapRows augmented k (findPivot augmented k n)) k k).
  change (Math_abs pivot <? PIVOT_TOLERANCE) with (belowTolerance pivot).
  destruct (belowTolerance pivot) eqn:Hpivot.
  - intros [= He]. exists [], k, ks.
    cbn [List.length nth firstn forallb app]. auto.
  - intros H. destruct (IH _ H) as (pre & k' & post & Hks & He & Hk & Hpre).
    exists (k :: pre), k', post.
    cbn [List.length nth firstn forallb app]. rewrite Hpivot, Hks at 1.
    cbn [negb andb]. auto.
Qed.

Lemma eliminate_ok_iff (ks : list nat) (n : nat) (augmented : Matrix) :
  (exists reduced, eliminate ks n augmented = Ok reduced)
  <-> existsb belowTolerance (pivots ks n augmented) = false.
Proof.
  revert augmented.
  induction ks as [| k ks IH]; intros augmented; cbn [eliminate pivots existsb].
  - split; eauto.
  - set (pivot := entry (swapRows augmented k (findPivot augmented k n)) k k).
    change (Math_abs pivot <? PIVOT_TOLERANCE) with (belowTolerance pivot).
    destruct (belowTolerance pivot); cbn [orb].
    + split; [intros [? [=]] | discriminate].
    + apply IH.
Qed.

Lemma split_seq (n : nat) (pre post : list nat) (k : nat) :
  seq 0 n = pre ++ k :: post -> k = List.length pre /\ (k < n)%nat.
Proof.
  intros H.
  assert (Hlen : (List.length pre < n)%nat).
  { rewrite <- (length_seq n 0), H, length_app. cbn. lia. }
  pose proof (seq_nth 0 0%nat Hlen) as Hnth.
  rewrite H, app_nth2, Nat.sub_diag in Hnth by lia. cbn in Hnth. lia.
Qed.

(** Row [i] after a loop that rewrites each row [i] of its range from row [i]
    alone. *)
Lemma rowwise_update (g : nat -> list float -> list float) (cnt lo : nat)
  (aug : Matrix) (i : nat) :
  nth i (fold_left (fun acc i => setNth acc i (g i (nth i acc []))) (seq lo cnt) aug) []
  = if ((lo <=? i) && (i <? lo + cnt) && (i <? List.length aug))%nat
    then g i (nth i aug [])
    else nth i aug [].
Proof.
  revert lo aug. induction cnt as [| cnt IH]; intros lo aug; cbn [seq fold_left].
  - destruct (Nat.leb_spec lo i), (Nat.ltb_spec i (lo + 0)); try lia; reflexivity.
  - rewrite IH, length_setNth.
    destruct (Nat.eq_dec i lo) as [-> | Hne].
    + destruct (Nat.leb_spec (S lo) lo), (Nat.leb_spec lo lo),
        (Nat.ltb_spec lo (lo + S cnt)); try lia.
      cbn [andb].
      destruct (Nat.ltb_spec lo (List.length aug)) as [Hlt | Hge].
      * now apply nth_setNth_eq.
      * rewrite nth_overflow by (rewrite length_setNth; exact Hge).
        now rewrite nth_overflow by exact Hge.
    + rewrite nth_setNth_neq by congruence.
      destruct (Nat.leb_spec (S lo) i), (Nat.leb_spec lo i),
        (Nat.ltb_spec i (S lo + cnt)), (Nat.ltb_spec i (lo + S cnt));
        try lia; reflexivity.
Qed.

(** The regularization adds [regularization] to the diagonal and to nothing
    else. *)
Lemma entry_regularize (aug : Matrix) (regularization : float) (i j : nat) :
  (i < List.length aug)%nat ->
  (i < List.length (nth i aug []))%nat ->
  entry (regularize aug regularization) i j
  = if Nat.eqb i j then entry aug i j + regularization else entry aug i j.
Proof.
  intros Hi Hrow. unfold entry, regularize, forRange.
  rewrite (rowwise_update (fun i row => setNth row i (getNum row i + regularization))).
  rewrite Nat.sub_0_r, Nat.add_0_l.
  cbn [Nat.leb andb].
  replace (i <? List.length aug)%nat with true by (symmetry; now apply Nat.ltb_lt).
  unfold getNum.
  destruct (Nat.eqb_spec i j) as [<- | Hne].
  - now apply nth_setNth_eq.
  - now apply nth_setNth_neq.
Qed.

Lemma entry_augment (A : Matrix) (b : list float) (i j : nat) :
  (i < List.length A)%nat ->
  entry (augment A b) i j = getNum (nth i A [] ++ [getNum b i]) j.
Proof.
  intros Hi. unfold augment. now apply entry_map_seq.
Qed.

End EliminationFacts.

Section SolveFacts.
Context {M : MathLib}.

Lemma assembleSystem_shape (geometry : AirfoilGeometry) (flow : FlowConditions)
  (extendedA : Matrix) (rhs : list float) :
  assembleSystem geometry flow = Ok (extendedA, rhs) ->
  let n := List.length (panels geometry) in
  List.length extendedA = (n + 1)%nat
  /\ (forall i, (i <= n)%nat -> List.length (nth i extendedA []) = (n + 1)%nat)
  /\ List.length rhs = (n + 1)%nat.
Proof.
  intros Hsys n. pose proof (assembleSystem_length _ _ _ _ Hsys) as Hlen.
  fold n in Hlen. split; [exact Hlen |].
  revert Hsys. unfold assembleSystem.
  destruct (buildKuttaCoefficients _ _ _) as [k | e]; cbn [bind]; [| discriminate].
  destruct (index _ (teUpperIndex geometry)); [| discriminate].
  destruct (index _ (teLowerIndex geometry)); [| discriminate].
  intros [= <- <-]. fold n. split.
  - intros i Hi.
    assert (Hrows : forall f : nat -> list float, List.length (map f (seq 0 n)) = n)
      by (intros f; now rewrite length_map, length_seq).
    destruct (Nat.eq_dec i n) as [-> | Hne].
    + rewrite <- (Hrows (fun i => map (fun j => entry (buildSourceInfluenceMatrix (panels geometry)) i j) (seq 0 n)
                                 ++ [getNum (buildVortexInfluenceVector (panels geometry)) i])) at 1.
      rewrite nth_snoc. now rewrite length_app, length_map, length_seq.
    + rewrite app_nth1 by (rewrite Hrows; lia).
      rewrite nth_map_seq by lia.
      now rewrite length_app, length_map, length_seq.
  - now rewrite length_app, length_map.
Qed.

(** C3.  For a geometry whose trailing-edge indices lie inside the panel array
    the assembly succeeds, and [solvePanelMethod] throws exactly when Gaussian
    elimination with partial pivoting, run on the assembled matrix with
    [regularization] added to every diagonal entry (the right-hand side as last
    column), meets a pivot of absolute value below 1e-14: the error is then
    [Singular matrix at row k] for the first such step [k].  Otherwise a
    [PanelSolution] is returned. *)
Theorem singular_iff_small_pivot (geometry : AirfoilGeometry) (flow : FlowConditions)
  (params : PanelMethodParameters) (upper lower : Panel) :
  index (panels geometry) (teUpperIndex geometry) = Some upper ->
  index (panels geometry) (teLowerIndex geometry) = Some lower ->
  let n := List.length (panels geometry) in
  exists (extendedA : Matrix) (rhs : list float),
    assembleSystem geometry flow = Ok (extendedA, rhs)
    /\ let augmented := regularize (augment extendedA rhs) (regularization params) in
       let met := pivots (seq 0 (n + 1)) (n + 1) augmented in
       (forall i j, (i <= n)%nat -> (j <= n)%nat ->
          entry augmented i j
          = if Nat.eqb i j then entry extendedA i j + regularization params
            else entry extendedA i j)
       /\ (forall i, (i <= n)%nat -> entry augmented i (n + 1) = getNum rhs i)
       /\ ((exists e, solvePanelMethod geometry flow params = Err e)
           <-> existsb belowTolerance met = true)
       /\ (forall e, solvePanelMethod geometry flow params = Err e ->
             exists k, e = SingularMatrix k
                       /\ (k <= n)%nat
                       /\ belowTolerance (nth k met nan) = true
                       /\ forallb (fun p => negb (belowTolerance p)) (firstn k met) = true)
       /\ ((exists sol, solvePanelMethod geometry flow params = Ok sol)
           <-> existsb belowTolerance met = false).
Proof.
  intros Hu Hl n.
  pose proof (assembleSystem_ok geometry flow upper lower Hu Hl) as Hsys.
  cbv zeta in Hsys.
  match type of Hsys with _ = Ok (?a, ?b) => set (extendedA := a) in *; set (rhs := b) in * end.
  exists extendedA, rhs. split; [exact Hsys |].
  destruct (assembleSystem_shape _ _ _ _ Hsys) as (Hlen & Hrow & Hrhs). fold n in Hlen, Hrow, Hrhs.
  intros augmented met.
  assert (Haug : List.length (augment extendedA rhs) = (n + 1)%nat)
    by (unfold augment; now rewrite length_map, length_seq).
  assert (Hentry : forall i j, (i <= n)%nat ->
             entry (augment extendedA rhs) i j
             = getNum (nth i extendedA [] ++ [getNum rhs i]) j)
    by (intros i j Hi; apply entry_augment; lia).
  assert (Hreg : forall i j, (i <= n)%nat ->
             entry augmented i j
             = if Nat.eqb i j
               then entry (augment extendedA rhs) i j + regularization params
               else entry (augment extendedA rhs) i j).
  { intros i j Hi. apply entry_regularize; [lia |].
    unfold augment. rewrite nth_map_seq by lia.
    rewrite length_app, Hrow by exact Hi. cbn. lia. }
  assert (Hsolve : solvePanelMethod geometry flow params
                   = (let* reduced := eliminate (seq 0 (n + 1)) (n + 1) augmented in
                      Ok (postProcess geometry flow extendedA rhs
                            (backSubstitute reduced (n + 1))))).
  { unfold solvePanelMethod. rewrite Hsys. cbn [bind].
    unfold solveLinearSystem. rewrite Hlen. fold augmented.
    destruct (eliminate _ _ augmented); reflexivity. }
  split; [| split; [| split; [| split]]].
  - intros i j Hi Hj. rewrite Hreg, !Hentry by exact Hi.
    rewrite getNum_app1 by (rewrite Hrow by exact Hi; lia).
    reflexivity.
  - intros i Hi. rewrite Hreg, Hentry by exact Hi.
    destruct (Nat.eqb_spec i (n + 1)); [lia |].
    apply getNum_snoc. now apply Hrow.
  - rewrite Hsolve. split.
    + intros [e He].
      destruct (existsb belowTolerance met) eqn:Hmet; [reflexivity |].
      apply eliminate_ok_iff in Hmet as [reduced Hred].
      rewrite Hred in He. discriminate.
    + intros Hmet.
      destruct (eliminate (seq 0 (n + 1)) (n + 1) augmented) as [reduced | e] eqn:Hel.
      * assert (Hno : existsb belowTolerance met = false)
          by (apply eliminate_ok_iff; eauto).
        rewrite Hno in Hmet. discriminate.
      * exists e. reflexivity.
  - rewrite Hsolve. intros e He.
    destruct (eliminate (seq 0 (n + 1)) (n + 1) augmented) as [reduced | e'] eqn:Hel;
      [discriminate |].
    cbn [bind] in He. injection He as ->.
    destruct (eliminate_error _ _ _ _ Hel) as (pre & k & post & Hks & -> & Hk & Hpre).
    apply split_seq in Hks as [-> Hlt].
    exists (List.length pre). repeat split; auto. lia.
  - rewrite Hsolve. split.
    + intros [sol Hsol]. apply eliminate_ok_iff.
      destruct (eliminate (seq 0 (n + 1)) (n + 1) augmented) as [reduced | e];
        [eauto | discriminate].
    + intros Hmet. apply eliminate_ok_iff in Hmet as [reduced Hred].
      rewrite Hred. cbn [bind]. eauto.
Qed.

End SolveFacts.

(** ** The assembled system and the system that is solved *)

Section AssembledSystem.
Context {M : MathLib}.

(** C2.  For a geometry with [n] panels whose trailing-edge indices lie inside
    the panel array, and any flow, [solvePanelMethod] assembles an
    (n+1) x (n+1) matrix and a right-hand side of length n+1 such that, for
    [i < n]: entry (i, j) is the velocity of panel [j]'s source kernel at
    control point [i] for unit strength, projected on the normal of panel
    [i]; entry (i, n) adds up, over the panels [j] in turn and from 0, the
    velocity of the vortex kernel of panel [j] at control point [i] for the
    strength 1/n, projected on that normal; and rhs[i] = -(U . n_i).  Row [n]
    holds, per panel [j], the projection on the upper trailing-edge tangent of
    the unit source velocity at the upper trailing-edge control point minus
    the same at the lower one, then the same difference for the 1/n vortices
    added up over the panels, and rhs[n] = -(U . t_upper - U . t_lower).
    What [solvePanelMethod] then solves is not this system as it stands:
    Gaussian elimination and back substitution run on the matrix with
    [params.regularization] added to each of its n+1 diagonal entries, and
    the right-hand side as last column. *)
Theorem assembled_system (geometry : AirfoilGeometry) (flow : FlowConditions)
  (params : PanelMethodParameters) (upper lower : Panel) :
  index (panels geometry) (teUpperIndex geometry) = Some upper ->
  index (panels geometry) (teLowerIndex geometry) = Some lower ->
  let ps := panels geometry in
  let n := List.length ps in
  let Ux := velocity flow * Math_cos (angleOfAttack flow) in
  let Uy := velocity flow * Math_sin (angleOfAttack flow) in
  let along := fun v d : Vector2D => px v * px d + py v * py d in
  exists (extendedA : Matrix) (rhs : list float),
    assembleSystem geometry flow = Ok (extendedA, rhs)
    /\ List.length extendedA = (n + 1)%nat
    /\ (forall row, In row extendedA -> List.length row = (n + 1)%nat)
    /\ List.length rhs = (n + 1)%nat
    /\ (forall i pi, nth_error ps i = Some pi ->
          (forall j pj, nth_error ps j = Some pj ->
             entry extendedA i j
             = along (sourceInfluence (controlPoint pi) pj 1) (normal pi))
          /\ entry extendedA i n
             = fold_left
                 (fun acc pj =>
                    acc + along (vortexInfluence (controlPoint pi) pj (1 / numNat n))
                                (normal pi))
                 ps 0
          /\ getNum rhs i = - (Ux * px (normal pi) + Uy * py (normal pi)))
    /\ (forall j pj, nth_error ps j = Some pj ->
          entry extendedA n j
          = along (sourceInfluence (controlPoint upper) pj 1) (tangent upper)
            - along (sourceInfluence (controlPoint lower) pj 1) (tangent lower))
    /\ entry extendedA n n
       = fold_left
           (fun acc pj =>
              acc + (along (vortexInfluence (controlPoint upper) pj (1 / numNat n))
                           (tangent upper)
                     - along (vortexInfluence (controlPoint lower) pj (1 / numNat n))
                             (tangent lower)))
           ps 0
    /\ getNum rhs n
       = - ((Ux * px (tangent upper) + Uy * py (tangent upper))
            - (Ux * px (tangent lower) + Uy * py (tangent lower)))
    /\ let augmented := regularize (augment extendedA rhs) (regularization params) in
       solvePanelMethod geometry flow params
       = (let* reduced := eliminate (seq 0 (n + 1)) (n + 1) augmented in
          Ok (postProcess geometry flow extendedA rhs
                (backSubstitute reduced (n + 1))))
       /\ (forall i j, (i <= n)%nat -> (j <= n)%nat ->
             entry augmented i j
             = if Nat.eqb i j then entry extendedA i j + regularization params
               else entry extendedA i j)
       /\ (forall i, (i <= n)%nat -> entry augmented i (n + 1) = getNum rhs i).
Proof.
  intros Hu Hl ps n Ux Uy along.
  pose proof (assembleSystem_ok geometry flow upper lower Hu Hl) as Hsys.
  cbv zeta in Hsys. fold ps n in Hsys.
  match type of Hsys with
  | _ = Ok (?a, ?b) => set (extendedA := a) in *; set (rhs := b) in *
  end.
  exists extendedA, rhs. split; [exact Hsys |].
  destruct (assembleSystem_shape _ _ _ _ Hsys) as (Hlen & Hrowlen & Hrhs).
  fold ps n in Hlen, Hrowlen, Hrhs.
  split; [exact Hlen |].
  split.
  { intros row Hin. apply In_nth with (d := []) in Hin as (i & Hi & <-).
    apply Hrowlen. lia. }
  split; [exact Hrhs |].
  assert (Hrows : forall f : nat -> list float,
             List.length (map f (seq 0 n)) = n)
    by (intros f; now rewrite length_map, length_seq).
  assert (Hrow : forall f : nat -> float,
             List.length (map f (seq 0 n)) = n)
    by (intros f; now rewrite length_map, length_seq).
  split.
  { intros i pi Hi. pose proof (nth_error_lt _ _ _ Hi) as Hlt. fold ps n in Hlt.
    split; [| split].
    - intros j pj Hj. pose proof (nth_error_lt _ _ _ Hj) as Hltj. fold ps n in Hltj.
      unfold extendedA.
      rewrite entry_app_row by (rewrite Hrows; exact Hlt).
      rewrite entry_map_seq by exact Hlt.
      rewrite getNum_app1 by (rewrite Hrow; exact Hltj).
      rewrite getNum_map_seq by exact Hltj.
      rewrite (entry_buildSourceInfluenceMatrix ps i j pi pj Hi Hj).
      reflexivity.
    - unfold extendedA.
      rewrite entry_app_row by (rewrite Hrows; exact Hlt).
      rewrite entry_map_seq by exact Hlt.
      rewrite getNum_snoc by apply Hrow.
      rewrite (nth_buildVortexInfluenceVector ps i pi Hi). fold n.
      rewrite (sumOver_no_index ps
                 (fun pj => vortexInfluenceNormal (controlPoint pi) pj (normal pi)
                              (1 / numNat n))).
      reflexivity.
    - unfold rhs. rewrite getNum_app1 by (rewrite length_map; exact Hlt).
      now rewrite (getNum_map_some _ _ _ _ Hi). }
  split.
  { intros j pj Hj. pose proof (nth_error_lt _ _ _ Hj) as Hltj. fold ps n in Hltj.
    unfold extendedA.
    rewrite entry_app_last by apply Hrows.
    rewrite getNum_app1 by (rewrite Hrow; exact Hltj).
    rewrite getNum_map_seq by exact Hltj.
    now rewrite (getNum_map_some _ _ _ _ Hj). }
  split.
  { unfold extendedA. rewrite entry_app_last by apply Hrows.
    rewrite getNum_snoc by apply Hrow.
    rewrite (sumOver_no_index ps
               (fun pj =>
                  vortexInfluenceTangent (controlPoint upper) pj (tangent upper)
                    (1 / numNat n)
                  - vortexInfluenceTangent (controlPoint lower) pj (tangent lower)
                      (1 / numNat n))).
    reflexivity. }
  split.
  { unfold rhs. now rewrite getNum_snoc by apply length_map. }
  intros augmented.
  assert (Hentry : forall i j, (i <= n)%nat ->
             entry (augment extendedA rhs) i j
             = getNum (nth i extendedA [] ++ [getNum rhs i]) j)
    by (intros i j Hi; apply entry_augment; lia).
  assert (Hreg : forall i j, (i <= n)%nat ->
             entry augmented i j
             = if Nat.eqb i j
               then entry (augment extendedA rhs) i j + regularization params
               else entry (augment extendedA rhs) i j).
  { intros i j Hi. apply entry_regularize;
      [unfold augment; rewrite length_map, length_seq; lia |].
    unfold augment. rewrite nth_map_seq by lia.
    rewrite length_app, Hrowlen by exact Hi. cbn. lia. }
  split; [| split].
  - unfold solvePanelMethod. rewrite Hsys. cbn [bind].
    unfold solveLinearSystem. rewrite Hlen. fold augmented.
    destruct (eliminate _ _ augmented); reflexivity.
  - intros i j Hi Hj. rewrite Hreg, !Hentry by exact Hi.
    rewrite getNum_app1 by (rewrite Hrowlen by exact Hi; lia).
    reflexivity.
  - intros i Hi. rewrite Hreg, Hentry by exact Hi.
    destruct (Nat.eqb_spec i (n + 1)); [lia |].
    apply getNum_snoc. now apply Hrowlen.
Qed.

End AssembledSystem.

(** ** Streamline tracing *)

Section TraceFacts.
Context {M : MathLib}.
Variables (geometry : AirfoilGeometry) (solution : PanelSolution)
          (flow : FlowConditions) (params : TraceParams).

Lemma traceLoop_step (k : nat) (p : Point2D) (pts : list Point2D) :
  traceLoop geometry solution flow params (S k) p pts
  = match stepOutcome geometry solution flow params p with
    | Stops why => mkStreamline pts (isBoundary why)
    | Advances next =>
        traceLoop geometry solution flow params k next (pts ++ [next])
    end.
Proof.
  cbn [traceLoop]. unfold stepOutcome, checkPoint, tooSlow, rk2Next, rk2Midpoint.
  repeat match goal with
         | |- context [if ?c then _ else _] => destruct c; try reflexivity
         end.
Qed.

Lemma integrating_deterministic (k : nat) (p : Point2D) (why why' : Termination) :
  Integrating geometry solution flow params k p why ->
  Integrating geometry solution flow params k p why' ->
  why = why'.
Proof.
  intros H. revert why'.
  induction H as [p | k p why Hstop | k p next why Hstep Hrest IH];
    intros why' H'; inversion H'; subst; try congruence.
  apply IH. congruence.
Qed.

Lemma traceLoop_integrating (k : nat) (p : Point2D) (pts : list Point2D) :
  exists why,
    Integrating geometry solution flow params k p why
    /\ complete (traceLoop geometry solution flow params k p pts) = isBoundary why.
Proof.
  revert p pts. induction k as [| k IH]; intros p pts.
  - exists StepCap. split; [constructor | reflexivity].
  - rewrite traceLoop_step.
    destruct (stepOutcome geometry solution flow params p) as [why | next] eqn:Hstep.
    + exists why. split; [now apply integrating_stop | reflexivity].
    + destruct (IH next (pts ++ [next])) as (why & Hwhy & Hcomplete).
      exists why. split; [now apply integrating_step with next | exact Hcomplete].
Qed.

Lemma traceStreamline_seeded (start : Point2D) :
  exists why,
    Seeded geometry solution flow params start why
    /\ (forall why', Seeded geometry solution flow params start why' -> why' = why)
    /\ complete (traceStreamline geometry solution flow params start) = isBoundary why.
Proof.
  unfold traceStreamline.
  destruct (isInsideAirfoil start (points geometry)) eqn:Hseed.
  - exists SeedInside. split; [now constructor | split; [| reflexivity]].
    intros why' H'. inversion H'; subst; [reflexivity | congruence].
  - destruct (traceLoop_integrating (maxSteps params) start [start])
      as (why & Hwhy & Hcomplete).
    exists why. split; [now constructor | split; [| exact Hcomplete]].
    intros why' H'. inversion H'; subst; [congruence |].
    eapply integrating_deterministic; eassumption.
Qed.

End TraceFacts.

Section FieldFacts.
Context {M : MathLib}.

Lemma generateStreamlineField_traces (geometry : AirfoilGeometry)
  (solution : PanelSolution) (flow : FlowConditions) (params : FieldParams)
  (s : Streamline) :
  In s (streamlines (generateStreamlineField geometry solution flow params)) ->
  exists start,
    s = traceStreamline geometry solution flow
          (fieldTraceParams geometry flow params) start.
Proof.
  unfold generateStreamlineField. cbn [streamlines]. unfold forRange.
  revert s.
  apply (fold_left_invariant
           (fun acc => forall s, In s acc ->
              exists start,
                s = traceStreamline geometry solution flow
                      (fieldTraceParams geometry flow params) start)).
  - intros s [].
  - intros acc i Hacc s.
    destruct (isInsideAirfoil _ (points geometry)); [apply Hacc |].
    destruct (5 <? _)%nat; [| apply Hacc].
    intros Hin. apply in_app_or in Hin as [Hin | [<- | []]]; [now apply Hacc |].
    eexists. reflexivity.
Qed.

(** C7.  [traceStreamline] is a total function into [Streamline] (nothing in
    it can throw), every trace ends for exactly one reason, and the returned
    [complete] flag is [true] if and only if that reason is that a midpoint or
    a full-step point left the bounding box; a seed inside the contour, a
    point inside the body, a speed below [minVelocity] and the step cap all
    give [complete = false].  Every streamline of [generateStreamlineField] is
    such a trace with [minVelocity] = 1 percent of the freestream speed. *)
Theorem complete_iff_left_domain (geometry : AirfoilGeometry)
  (solution : PanelSolution) (flow : FlowConditions) :
  (forall (params : TraceParams) (start : Point2D),
     exists why,
       Seeded geometry solution flow params start why
       /\ (forall why', Seeded geometry solution flow params start why' -> why' = why)
       /\ (complete (traceStreamline geometry solution flow params start) = true
           <-> why = ReachedBoundary)
       /\ (complete (traceStreamline geometry solution flow params start) = false
           <-> In why [EnteredBody; Stagnated; StepCap; SeedInside]))
  /\ (forall (fparams : FieldParams) (s : Streamline),
        In s (streamlines (generateStreamlineField geometry solution flow fparams)) ->
        exists start,
          s = traceStreamline geometry solution flow
                (fieldTraceParams geometry flow fparams) start)
  /\ (forall fparams : FieldParams,
        minVelocity (fieldTraceParams geometry flow fparams) = velocity flow * 0.01).
Proof.
  split; [| split; [apply generateStreamlineField_traces | reflexivity]].
  intros params start.
  destruct (traceStreamline_seeded geometry solution flow params start)
    as (why & Hwhy & Huniq & Hcomplete).
  exists why. split; [exact Hwhy | split; [exact Huniq |]].
  rewrite Hcomplete. cbn [In].
  destruct why; cbn; intuition congruence.
Qed.

End FieldFacts.

(** ** The NACA contour on a concrete input *)

Section NacaFacts.
Context {M : MathLib}.

Lemma station_zero : Math_cos 0 = 1 -> getNum (stations 10 1) 0 = 0.
Proof.
  intros Hcos.
  change (getNum (stations 10 1) 0)
    with (1 * (1 - Math_cos (Math_PI * numNat 0 / numNat 10)) / 2).
  replace (Math_PI * numNat 0 / numNat 10) with 0 by (vm_compute; reflexivity).
  rewrite Hcos. vm_compute. reflexivity.
Qed.

Lemma upperPoint_at_zero :
  Math_cos 0 = 1 -> Math_sin 0 = 0 -> Math_atan 0 = 0 ->
  upperPoint (num 0 / 100) (num 0 / 10) (num 12 / 100) 1 0 = mkPoint 0 0.
Proof.
  intros Hcos Hsin Hatan. unfold upperPoint.
  replace (camber (num 0 / 100) (num 0 / 10) 1 (0 / 1)) with (0, 0)
    by (vm_compute; reflexivity).
  replace (thickness (num 12 / 100) 1 (0 / 1)) with 0 by (vm_compute; reflexivity).
  rewrite Hatan, Hsin, Hcos. vm_compute. reflexivity.
Qed.

Lemma lowerPoint_at_zero :
  Math_cos 0 = 1 -> Math_sin 0 = 0 -> Math_atan 0 = 0 ->
  lowerPoint (num 0 / 100) (num 0 / 10) (num 12 / 100) 1 0 = mkPoint 0 0.
Proof.
  intros Hcos Hsin Hatan. unfold lowerPoint.
  replace (camber (num 0 / 100) (num 0 / 10) 1 (0 / 1)) with (0, 0)
    by (vm_compute; reflexivity).
  replace (thickness (num 12 / 100) 1 (0 / 1)) with 0 by (vm_compute; reflexivity).
  rewrite Hatan, Hsin, Hcos. vm_compute. reflexivity.
Qed.

(** C1, on NACA 0012 with 20 points, chord 1 and 20 panels, for every host
    whose [Math.cos(0)] is 1 and whose [Math.sin(0)] and [Math.atan(0)] are 0.
    The loop has 21 points and 20 panels; its first point, where the upper
    surface starts, is (0, 0), the leading edge (the chordwise station of
    index 0 is [chord * (1 - cos 0) / 2 = 0]), and its last point is (0, 0)
    again.  The panels [teUpperIndex = 0] and [teLowerIndex = 19] are the two
    panels that touch that point: the first starts there and the last ends
    there. *)
Theorem naca4_starts_at_leading_edge :
  Math_cos 0 = 1 -> Math_sin 0 = 0 -> Math_atan 0 = 0 ->
  exists g,
    createAirfoilGeometry naca0012 defaultParams = Ok g
    /\ List.length (points g) = 21%nat
    /\ List.length (panels g) = 20%nat
    /\ teUpperIndex g = 0%Z
    /\ teLowerIndex g = 19%Z
    /\ nth_error (points g) 0 = Some (mkPoint 0 0)
    /\ nth_error (points g) 20 = Some (mkPoint 0 0)
    /\ exists first last,
         index (panels g) (teUpperIndex g) = Some first
         /\ index (panels g) (teLowerIndex g) = Some last
         /\ mkPoint (x1 first) (y1 first) = mkPoint 0 0
         /\ mkPoint (x2 last) (y2 last) = mkPoint 0 0.
Proof.
  intros Hcos Hsin Hatan.
  pose proof (station_zero Hcos) as Hx0.
  pose proof (upperPoint_at_zero Hcos Hsin Hatan) as HU.
  pose proof (lowerPoint_at_zero Hcos Hsin Hatan) as HL.
  set (m := num 0 / 100) in *. set (p := num 0 / 10) in *. set (t := num 12 / 100) in *.
  set (x := stations 10 1) in *.
  set (pts := map (fun i => upperPoint m p t 1 (getNum x i)) (seq 0 10)
              ++ map (fun i => lowerPoint m p t 1 (getNum x i)) (rev (seq 0 11))).
  assert (Hnaca : naca4 "0012" 20 1 = Ok pts) by reflexivity.
  assert (Hlen : List.length pts = 21%nat) by reflexivity.
  assert (Hfirst : nth 0 pts undefinedPoint = mkPoint 0 0).
  { change (nth 0 pts undefinedPoint) with (upperPoint m p t 1 (getNum x 0)).
    now rewrite Hx0. }
  assert (Hlast : nth 20 pts undefinedPoint = mkPoint 0 0).
  { change (nth 20 pts undefinedPoint) with (lowerPoint m p t 1 (getNum x 0)).
    now rewrite Hx0. }
  assert (Hpanels : List.length (panelize pts defaultParams) = 20%nat).
  { rewrite panelize_length, Hlen. reflexivity. }
  exists (mkGeometry pts (panelize pts defaultParams) 1 0
            (Z.of_nat (List.length (panelize pts defaultParams)) - 1)).
  split; [unfold createAirfoilGeometry; cbn [digits nPoints naca_chord naca0012];
          rewrite Hnaca; reflexivity |].
  cbn [points panels teUpperIndex teLowerIndex].
  rewrite Hpanels.
  repeat (split; [first [reflexivity | assumption
                        | rewrite <- Hfirst; apply nth_error_nth'; rewrite Hlen; lia
                        | rewrite <- Hlast; apply nth_error_nth'; rewrite Hlen; lia] |]).
  change (Z.of_nat 20 - 1)%Z with 19%Z.
  set (eps := epsilon defaultParams * (Math_max (map px pts) - Math_min (map px pts))).
  exists (makePanel eps (nth 0 pts undefinedPoint) (nth 1 pts undefinedPoint)),
         (makePanel eps (nth 19 pts undefinedPoint) (nth 20 pts undefinedPoint)).
  split; [reflexivity |]. split; [reflexivity |].
  cbn [x1 y1 x2 y2 makePanel].
  rewrite Hfirst, Hlast. split; reflexivity.
Qed.

End NacaFacts.

(** The reference host satisfies the three assumptions. *)
Lemma naca4_starts_at_leading_edge_witness :
  exists g,
    createAirfoilGeometry (M := refMath) naca0012 defaultParams = Ok g
    /\ nth_error (points g) 0 = Some (mkPoint 0 0)
    /\ teUpperIndex g = 0%Z /\ teLowerIndex g = 19%Z.
Proof.
  destruct (naca4_starts_at_leading_edge (M := refMath) eq_refl eq_refl eq_refl)
    as (g & Hg & _ & _ & Hu & Hl & Hp & _).
  exists g. auto.
Defined.

(** On the reference host the chordwise coordinate grows along the first ten
    panels and shrinks along the last ten: the upper surface runs from the
    leading edge to the trailing edge, the lower surface back.  The loop is
    clockwise with the y axis up (negative signed area), and the normals
    [(sin angle, -cos angle)] of the upper panels point down, into the body. *)
Example naca4_runs_leading_to_trailing :
  match createAirfoilGeometry (M := refMath) naca0012 defaultParams with
  | Ok g =>
      forallb (fun p => x1 p <? x2 p) (firstn 10 (panels g))
      && forallb (fun p => x2 p <? x1 p) (skipn 10 (panels g))
      && forallb (fun p => 0 <=? y1 p) (firstn 10 (panels g))
      && (fold_left (fun acc p => acc + (x1 p * y2 p - x2 p * y1 p)) (panels g) 0 <? 0)
      && forallb (fun p => py (normal p) <? 0) (firstn 10 (panels g))
  | Err _ => false
  end = true.
Proof. vm_compute. reflexivity. Qed.

Lemma panelize_count_witness :
  Z.of_nat (List.length (panelize (M := refMath) diamondPoints defaultParams)) = 4%Z.
Proof.
  destruct (panelize_count (M := refMath) diamondPoints defaultParams)
    as (_ & Hmin & _).
  apply Hmin; vm_compute; discriminate.
Defined.

(** A negative request gives no panel, which is more than was asked for, and
    so does an empty loop, for which the minimum would be -1. *)
Lemma panelize_count_not_the_minimum :
  (nPanels negativeRequest
   <? Z.of_nat (List.length (panelize (M := refMath) diamondPoints negativeRequest)))%Z
  = true
  /\ List.length (panelize (M := refMath) [] defaultParams) = 0%nat
  /\ Z.min (nPanels defaultParams) (Z.of_nat (List.length (@nil Point2D)) - 1)
     = (-1)%Z.
Proof. repeat split; vm_compute; reflexivity. Qed.

(** ** The singular guard of the kernels *)

Section GuardFacts.
Context {M : MathLib}.

(** C4, as the code has it.  When, in panel-local coordinates, [|Y| < 1e-10] and
    [-1e-10 <= X <= L + 1e-10] (the span of the panel widened by the threshold
    at both ends; the threshold is the constant 1e-10, not a multiple of the
    chord), both kernels return exactly [{ x: 0, y: 0 }], whatever the
    strength. *)
Theorem kernels_zero_on_panel (fieldPoint : Point2D) (panel : Panel)
  (strength : float) :
  let local := globalToLocal fieldPoint panel in
  (Math_abs (py local) <? SINGULARITY_THRESHOLD) = true ->
  (px local >=? - SINGULARITY_THRESHOLD) = true ->
  (px local <=? length panel + SINGULARITY_THRESHOLD) = true ->
  sourceInfluence fieldPoint panel strength = mkPoint 0 0
  /\ vortexInfluence fieldPoint panel strength = mkPoint 0 0.
Proof.
  intros local HY Hlo Hhi.
  unfold sourceInfluence, vortexInfluence, onPanel. fold local.
  rewrite HY, Hlo, Hhi. split; reflexivity.
Qed.

End GuardFacts.

Lemma kernels_zero_on_panel_witness :
  sourceInfluence (M := refMath) (mkPoint 0.5 0) unitPanel nan = mkPoint 0 0
  /\ vortexInfluence (M := refMath) (mkPoint 0.5 0) unitPanel nan = mkPoint 0 0.
Proof.
  apply (kernels_zero_on_panel (M := refMath) (mkPoint 0.5 0) unitPanel nan);
    vm_compute; reflexivity.
Defined.

(** Away from the guards nothing keeps the result finite: a field point far
    from the unit panel overflows the squared distances, their quotient is
    [NaN], and so are both velocities. *)
Lemma kernels_nan_far_away :
  let src := sourceInfluence (M := refMath) (mkPoint 1e200 1) unitPanel 1 in
  let vor := vortexInfluence (M := refMath) (mkPoint 1e200 1) unitPanel 1 in
  is_nan (px src) && is_nan (py src) && is_nan (px vor) && is_nan (py vor) = true.
Proof. vm_compute. reflexivity. Qed.

(** The threshold of the guard is the constant 1e-10, not 1e-10 times the
    chord: a point 5e-10 above the middle of a panel of a contour of chord
    10 is closer to the panel than 1e-10 * 10 and inside its span, and both
    kernels return a velocity that is not zero. *)
Lemma kernels_nonzero_within_scaled_threshold :
  let local := globalToLocal nearLongPanel longPanel in
  (Math_abs (py local) <? SINGULARITY_THRESHOLD * 10)
  && (0 <=? px local) && (px local <=? length longPanel)
  && (0 <? px (sourceInfluence (M := refMath) nearLongPanel longPanel 1))
  && (0 <? py (vortexInfluence (M := refMath) nearLongPanel longPanel 1))
  = true.
Proof. vm_compute. reflexivity. Qed.

(** The same for every host library when the strength itself is [NaN]. *)
Lemma kernels_nan_strength {M : MathLib} :
  is_nan (px (sourceInfluence (mkPoint 0.5 1) unitPanel nan)) = true
  /\ is_nan (px (vortexInfluence (mkPoint 0.5 1) unitPanel nan)) = true.
Proof.
  unfold sourceInfluence, vortexInfluence.
  replace (onPanel _ _ _) with false by (vm_compute; reflexivity).
  replace (atEndpoint _ _) with false by (vm_compute; reflexivity).
  unfold sourceLocal, vortexLocal, localToGlobal. cbn [px py tangent unitPanel].
  replace (nan / TWO_PI) with nan by (vm_compute; reflexivity).
  replace (nan / FOUR_PI) with nan by (vm_compute; reflexivity).
  assert (Hnan : forall a, nan * a = nan).
  { intros a. apply Prim2SF_inj. rewrite mul_spec.
    change (Prim2SF nan) with S754_nan. reflexivity. }
  assert (Hsub : forall a, nan - a = nan).
  { intros a. apply Prim2SF_inj. rewrite sub_spec.
    change (Prim2SF nan) with S754_nan. reflexivity. }
  change (- nan) with nan.
  rewrite !Hnan, !Hsub. split; reflexivity.
Qed.

(** ** The sample geometry *)

Lemma assembled_system_witness :
  exists upper lower extendedA rhs,
    index (panels diamond) (teUpperIndex diamond) = Some upper
    /\ index (panels diamond) (teLowerIndex diamond) = Some lower
    /\ assembleSystem (M := refMath) diamond sampleFlow = Ok (extendedA, rhs)
    /\ List.length extendedA = 5%nat
    /\ entry (regularize (augment extendedA rhs) (regularization defaultParams)) 4 4
       = entry extendedA 4 4 + regularization defaultParams.
Proof.
  eexists _, _.
  destruct (assembled_system (M := refMath) diamond sampleFlow defaultParams _ _
              eq_refl eq_refl)
    as (extendedA & rhs & Hsys & Hlen & _ & _ & _ & _ & _ & _ & Hsolved).
  cbv zeta in Hsolved. destruct Hsolved as (_ & Hdiag & _).
  exists extendedA, rhs.
  split; [reflexivity | split; [reflexivity |]].
  split; [exact Hsys | split; [exact Hlen |]].
  apply (Hdiag 4%nat 4%nat); vm_compute; lia.
Defined.

(** The assembled system is not the one that is solved: with the default
    regularization the first diagonal entry of the matrix that is eliminated
    differs from the assembled one, and the circulation returned differs
    from the one returned without regularization.  And a lower trailing-edge
    index one past the last panel stops the assembly with a [TypeError]. *)
Lemma solved_system_is_regularized :
  exists extendedA rhs sol bare,
    assembleSystem (M := refMath) diamond sampleFlow = Ok (extendedA, rhs)
    /\ (entry (regularize (augment extendedA rhs) (regularization defaultParams)) 0 0
        =? entry extendedA 0 0) = false
    /\ solvePanelMethod (M := refMath) diamond sampleFlow defaultParams = Ok sol
    /\ solvePanelMethod (M := refMath) diamond sampleFlow
         (mkParams 20 1e-9 0 1000 1e-10) = Ok bare
    /\ (gamma sol =? gamma bare) = false
    /\ solvePanelMethod (M := refMath) diamondBadIndex sampleFlow defaultParams
       = Err TypeError.
Proof.
  destruct (assembleSystem (M := refMath) diamond sampleFlow)
    as [[extendedA rhs] | e] eqn:Hsys; [| vm_compute in Hsys; discriminate].
  destruct (solvePanelMethod (M := refMath) diamond sampleFlow defaultParams)
    as [sol | e] eqn:Hsol; [| vm_compute in Hsol; discriminate].
  destruct (solvePanelMethod (M := refMath) diamond sampleFlow
              (mkParams 20 1e-9 0 1000 1e-10))
    as [bare | e] eqn:Hbare; [| vm_compute in Hbare; discriminate].
  exists extendedA, rhs, sol, bare.
  split; [reflexivity |].
  split; [vm_compute in Hsys; injection Hsys as <- <-; vm_compute; reflexivity |].
  split; [reflexivity |]. split; [reflexivity |].
  split; [vm_compute in Hsol, Hbare; injection Hsol as <-; injection Hbare as <-;
          vm_compute; reflexivity |].
  vm_compute. reflexivity.
Qed.

Lemma singular_iff_small_pivot_witness :
  exists upper lower sol,
    index (panels diamond) (teUpperIndex diamond) = Some upper
    /\ index (panels diamond) (teLowerIndex diamond) = Some lower
    /\ solvePanelMethod (M := refMath) diamond sampleFlow defaultParams = Ok sol.
Proof.
  eexists _, _.
  destruct (singular_iff_small_pivot (M := refMath) diamond sampleFlow defaultParams
              _ _ eq_refl eq_refl)
    as (extendedA & rhs & Hsys & H).
  cbv zeta in H. destruct H as (_ & _ & _ & _ & Hok).
  destruct (proj2 Hok) as [sol Hsol].
  - vm_compute in Hsys. injection Hsys as <- <-. vm_compute. reflexivity.
  - exists sol. split; [reflexivity | split; [reflexivity | exact Hsol]].
Defined.

Lemma postprocessed_solution_witness :
  exists sol,
    solvePanelMethod (M := refMath) diamond sampleFlow defaultParams = Ok sol
    /\ List.length (vt sol) = 4%nat
    /\ clGamma sol = (2 * gamma sol) / (velocity sampleFlow * chord diamond).
Proof.
  destruct (solvePanelMethod (M := refMath) diamond sampleFlow defaultParams)
    as [sol | e] eqn:E; [| vm_compute in E; discriminate].
  exists sol. split; [reflexivity |].
  destruct (postprocessed_solution (M := refMath) _ _ _ _ E)
    as (_ & Hvt & _ & _ & Hcl & _).
  split; [exact Hvt | exact Hcl].
Defined.

(** The error path is reachable: every coefficient of this system is zero. *)
Example singular_flat_panel :
  solvePanelMethod (M := refMath) flatGeometry sampleFlow bareParams
  = Err (SingularMatrix 0).
Proof. vm_compute. reflexivity. Qed.

(** ** The store model refines the functional one *)

Section StoreFacts.
Import Store.

Lemma read_write_same (s : Store.t) (a : Addr) (row : list float) :
  (a < List.length s)%nat -> read (write s a row) a = row.
Proof.
  intros H. unfold read, write. now apply nth_setNth_eq.
Qed.

Lemma read_write_other (s : Store.t) (a a' : Addr) (row : list float) :
  a <> a' -> read (write s a row) a' = read s a'.
Proof.
  intros H. unfold read, write. now apply nth_setNth_neq.
Qed.

Lemma length_write (s : Store.t) (a : Addr) (row : list float) :
  List.length (write s a row) = List.length s.
Proof.
  apply length_setNth.
Qed.

Lemma wellFormed_length (m : list Addr) (s s' : Store.t) :
  List.length s' = List.length s -> wellFormed m s -> wellFormed m s'.
Proof.
  intros Hlen [Hnd Hin]. split; [exact Hnd |].
  intros a Ha. rewrite Hlen. now apply Hin.
Qed.

Lemma length_deref (s : Store.t) (m : list Addr) :
  List.length (deref s m) = List.length m.
Proof.
  apply length_map.
Qed.

Lemma nth_deref (s : Store.t) (m : list Addr) (i : nat) :
  (i < List.length m)%nat -> nth i (deref s m) [] = read s (nth i m 0%nat).
Proof.
  intros H. unfold deref.
  rewrite nth_indep with (d' := read s 0%nat) by now rewrite length_map.
  apply map_nth.
Qed.

Lemma entry_deref (s : Store.t) (m : list Addr) (i j : nat) :
  (i < List.length m)%nat -> entry (deref s m) i j = entryS s m i j.
Proof.
  intros H. unfold entry, entryS. now rewrite nth_deref.
Qed.

Lemma setNth_ext {A : Type} (l l' : list A) (i : nat) (v d : A) :
  List.length l' = List.length l ->
  (i < List.length l)%nat ->
  nth i l' d = v ->
  (forall j, j <> i -> nth j l' d = nth j l d) ->
  l' = setNth l i v.
Proof.
  intros Hlen Hi Hv Hother.
  apply nth_ext with (d := d) (d' := d); [now rewrite length_setNth |].
  intros j Hj. destruct (Nat.eq_dec j i) as [-> | Hne].
  - now rewrite nth_setNth_eq.
  - rewrite nth_setNth_neq by congruence. now apply Hother.
Qed.

(** A store that differs from [s] at the row object of index [i] only. *)
Lemma deref_update (m : list Addr) (s s' : Store.t) (i : nat) (row : list float) :
  NoDup m ->
  (i < List.length m)%nat ->
  read s' (nth i m 0%nat) = row ->
  (forall a, a <> nth i m 0%nat -> read s' a = read s a) ->
  deref s' m = setNth (deref s m) i row.
Proof.
  intros Hnd Hi Hrow Hother.
  apply setNth_ext with (d := []).
  - now rewrite !length_deref.
  - now rewrite length_deref.
  - now rewrite nth_deref.
  - intros j Hne.
    destruct (Nat.lt_ge_cases j (List.length m)) as [Hj | Hj].
    + rewrite !nth_deref by exact Hj. apply Hother.
      intros Heq. apply Hne. eapply NoDup_nth; eauto.
    + now rewrite !nth_overflow by (rewrite length_deref; exact Hj).
Qed.

Lemma deref_frame (m : list Addr) (s s' : Store.t) :
  (forall a, In a m -> read s' a = read s a) -> deref s' m = deref s m.
Proof.
  intros H. apply map_ext_in. exact H.
Qed.

Lemma map_setNth {A B : Type} (f : A -> B) (l : list A) (i : nat) (v : A) :
  map f (setNth l i v) = setNth (map f l) i (f v).
Proof.
  revert i. induction l as [| h t IH]; intros [| i]; cbn; auto. now rewrite IH.
Qed.

End StoreFacts.

Section StoreLoops.
Import Store.

(** A loop over row indices whose step [i] rewrites the row object of index
    [i] and nothing else does to the matrix what the functional loop does. *)
Lemma row_loop (stepS : nat -> Store.t -> Store.t)
  (stepP : nat -> Matrix -> list float) (m : list Addr) (indices : list nat) :
  (forall i s, In i indices -> wellFormed m s ->
     (i < List.length m)%nat
     /\ read (stepS i s) (nth i m 0%nat) = stepP i (deref s m)
     /\ (forall a, a <> nth i m 0%nat -> read (stepS i s) a = read s a)
     /\ List.length (stepS i s) = List.length s) ->
  forall s, wellFormed m s ->
    let s' := fold_left (fun s i => stepS i s) indices s in
    deref s' m = fold_left (fun acc i => setNth acc i (stepP i acc)) indices (deref s m)
    /\ (forall a, ~ In a m -> read s' a = read s a)
    /\ List.length s' = List.length s.
Proof.
  induction indices as [| i indices IH]; intros Hstep s Hwf; cbn [fold_left].
  - auto.
  - destruct (Hstep i s (or_introl eq_refl) Hwf) as (Hi & Hrow & Hother & Hlen).
    assert (Hwf' : wellFormed m (stepS i s)) by (eapply wellFormed_length; eauto).
    destruct (IH (fun j s0 Hj => Hstep j s0 (or_intror Hj)) _ Hwf')
      as (Hderef & Hframe & Hlen').
    cbv zeta in *. split; [| split].
    + rewrite Hderef. f_equal.
      apply deref_update; auto. apply Hwf.
    + intros a Ha. rewrite Hframe by exact Ha. apply Hother.
      intros ->. apply Ha. now apply nth_In.
    + congruence.
Qed.

(** The inner loop of the elimination on the row object [ai], reading the
    pivot row object [ak]. *)
Lemma cell_loop (ai ak : Addr) (factor : float) (js : list nat) (s : Store.t) :
  ai <> ak ->
  (ai < List.length s)%nat ->
  let s' := fold_left
              (fun s j => writeCell s ai j
                            (getNum (read s ai) j - factor * getNum (read s ak) j))
              js s in
  read s' ai
  = fold_left (fun r j => setNth r j (getNum r j - factor * getNum (read s ak) j))
              js (read s ai)
  /\ (forall a, a <> ai -> read s' a = read s a)
  /\ List.length s' = List.length s.
Proof.
  intros Hne. revert s. induction js as [| j js IH]; intros s Hlt; cbn [fold_left].
  - auto.
  - set (s1 := writeCell s ai j (getNum (read s ai) j - factor * getNum (read s ak) j)).
    assert (Hlen1 : List.length s1 = List.length s) by apply length_write.
    assert (Hai : read s1 ai = setNth (read s ai) j
                                 (getNum (read s ai) j - factor * getNum (read s ak) j))
      by (apply read_write_same; exact Hlt).
    assert (Hother : forall a, a <> ai -> read s1 a = read s a)
      by (intros a Ha; apply read_write_other; congruence).
    destruct (IH s1) as (Hrow & Hframe & Hlen); [lia |].
    cbv zeta in *. split; [| split].
    + rewrite Hrow, Hai, (Hother ak) by congruence. reflexivity.
    + intros a Ha. rewrite Hframe by exact Ha. now apply Hother.
    + congruence.
Qed.

Lemma eliminateRowS_spec (m : list Addr) (i k n : nat) (s : Store.t) :
  wellFormed m s ->
  (i < List.length m)%nat -> (k < List.length m)%nat -> i <> k ->
  let s' := eliminateRowS m i k n s in
  read s' (nth i m 0%nat)
  = eliminateRow (nth k (deref s m) []) k n (nth i (deref s m) [])
  /\ (forall a, a <> nth i m 0%nat -> read s' a = read s a)
  /\ List.length s' = List.length s.
Proof.
  intros [Hnd Hin] Hi Hk Hne.
  assert (Haddr : nth i m 0%nat <> nth k m 0%nat)
    by (intros Heq; apply Hne; eapply NoDup_nth; eauto).
  assert (Hlt : (nth i m 0%nat < List.length s)%nat) by (apply Hin; now apply nth_In).
  unfold eliminateRowS, eliminateRow, forRange, entryS.
  rewrite !nth_deref by assumption.
  apply (cell_loop _ _ _ _ _ Haddr Hlt).
Qed.

Lemma eliminateColumnS_spec (m : list Addr) (k n : nat) (s : Store.t) :
  wellFormed m s ->
  (n <= List.length m)%nat ->
  let s' := eliminateColumnS m k n s in
  deref s' m = eliminateColumn (deref s m) k n
  /\ (forall a, ~ In a m -> read s' a = read s a)
  /\ List.length s' = List.length s.
Proof.
  intros Hwf Hn. unfold eliminateColumnS, eliminateColumn, forRange.
  apply (row_loop (fun i s => eliminateRowS m i k n s)
                  (fun i acc => eliminateRow (nth k acc []) k n (nth i acc [])));
    [| exact Hwf].
  intros i s0 Hi Hwf0. apply in_seq in Hi.
  split; [lia |]. apply eliminateRowS_spec; auto; lia.
Qed.

Lemma regularizeS_spec (m : list Addr) (regularization : float) (s : Store.t) :
  wellFormed m s ->
  let s' := regularizeS m regularization s in
  deref s' m = regularize (deref s m) regularization
  /\ (forall a, ~ In a m -> read s' a = read s a)
  /\ List.length s' = List.length s.
Proof.
  intros Hwf. unfold regularizeS, regularize, forRange. rewrite length_deref.
  apply (row_loop
           (fun i s => writeCell s (nth i m 0%nat) i (entryS s m i i + regularization))
           (fun i acc => let row := nth i acc [] in
                         setNth row i (getNum row i + regularization)));
    [| exact Hwf].
  intros i s0 Hi [Hnd Hin]. apply in_seq in Hi.
  assert (Hlt : (i < List.length m)%nat) by lia.
  split; [exact Hlt |]. split; [| split].
  - unfold writeCell, entryS. rewrite read_write_same by (apply Hin; now apply nth_In).
    cbv zeta. now rewrite nth_deref.
  - intros a Ha. apply read_write_other. congruence.
  - apply length_write.
Qed.

End StoreLoops.

Section StoreElimination.
Import Store.

Lemma fold_left_agree {S X : Type} (P : S -> Prop) (f g : S -> X -> S)
  (xs : list X) (init : S) :
  P init ->
  (forall acc x, In x xs -> P acc -> f acc x = g acc x /\ P (f acc x)) ->
  fold_left f xs init = fold_left g xs init /\ P (fold_left f xs init).
Proof.
  revert init. induction xs as [| x xs IH]; intros init Hinit Hstep; cbn; [auto |].
  destruct (Hstep init x (or_introl eq_refl) Hinit) as [Heq HP].
  rewrite <- Heq. apply IH; [exact HP |].
  intros acc y Hy. apply Hstep. now right.
Qed.

Lemma findPivotS_spec (s : Store.t) (m : list Addr) (k n : nat) :
  (k < n)%nat -> (n <= List.length m)%nat ->
  findPivotS s m k n = findPivot (deref s m) k n
  /\ (findPivotS s m k n < n)%nat.
Proof.
  intros Hk Hn. unfold findPivotS, findPivot, forRange.
  apply (fold_left_agree (fun maxRow => (maxRow < n)%nat)); [exact Hk |].
  intros maxRow i Hi Hmax. apply in_seq in Hi.
  rewrite !entry_deref by lia.
  split; [reflexivity |].
  destruct (_ >? _); lia.
Qed.

Lemma nth_swap {A : Type} (l : list A) (k r j : nat) (d : A) :
  (k < List.length l)%nat -> (r < List.length l)%nat ->
  nth j (setNth (setNth l k (nth r l d)) r (nth k l d)) d
  = if Nat.eqb j r then nth k l d
    else if Nat.eqb j k then nth r l d
    else nth j l d.
Proof.
  intros Hk Hr.
  destruct (Nat.eqb_spec j r) as [-> | Hjr].
  - apply nth_setNth_eq. now rewrite length_setNth.
  - rewrite nth_setNth_neq by congruence.
    destruct (Nat.eqb_spec j k) as [-> | Hjk].
    + now apply nth_setNth_eq.
    + now rewrite nth_setNth_neq by congruence.
Qed.

Lemma swapRowsS_spec (s : Store.t) (m : list Addr) (k r : nat) :
  wellFormed m s ->
  (k < List.length m)%nat -> (r < List.length m)%nat ->
  deref s (swapRowsS m k r) = swapRows (deref s m) k r
  /\ wellFormed (swapRowsS m k r) s
  /\ List.length (swapRowsS m k r) = List.length m
  /\ (forall a, In a (swapRowsS m k r) -> In a m).
Proof.
  intros [Hnd Hin] Hk Hr. unfold swapRowsS, swapRows.
  destruct (Nat.eqb_spec r k) as [-> | Hne]; [repeat split; auto |].
  set (m' := setNth (setNth m k (nth r m 0%nat)) r (nth k m 0%nat)).
  assert (Hlen : List.length m' = List.length m)
    by (unfold m'; now rewrite !length_setNth).
  assert (Hnth : forall j, nth j m' 0%nat
                           = if Nat.eqb j r then nth k m 0%nat
                             else if Nat.eqb j k then nth r m 0%nat
                             else nth j m 0%nat)
    by (intros j; now apply nth_swap).
  assert (Hsub : forall a, In a m' -> In a m).
  { intros a Ha. apply In_nth with (d := 0%nat) in Ha as (j & Hj & <-).
    rewrite Hnth. rewrite Hlen in Hj.
    destruct (Nat.eqb j r); [| destruct (Nat.eqb j k)]; now apply nth_In. }
  split; [| split; [split |]; [| | split]]; auto.
  - unfold m', deref. rewrite !map_setNth. fold (deref s m).
    now rewrite !nth_deref.
  - apply NoDup_nth with (d := 0%nat). intros i j Hi Hj.
    rewrite Hlen in Hi, Hj. rewrite !Hnth.
    pose proof (proj1 (NoDup_nth m 0%nat) Hnd) as Hinj.
    destruct (Nat.eqb_spec i r), (Nat.eqb_spec j r),
      (Nat.eqb_spec i k), (Nat.eqb_spec j k);
      subst; intros Heq; try congruence; apply Hinj in Heq; auto; congruence.
Qed.

(** The elimination in the store follows the functional one; row objects
    outside [augmented] are left alone. *)
Lemma eliminateS_spec (ks : list nat) (n : nat) (m : list Addr) (s : Store.t) :
  wellFormed m s ->
  List.length m = n ->
  (forall k, In k ks -> (k < n)%nat) ->
  let '(r, s') := eliminateS ks n m s in
  List.length s' = List.length s
  /\ (forall a, ~ In a m -> read s' a = read s a)
  /\ match eliminate ks n (deref s m) with
     | Ok reduced => exists m', r = Ok m' /\ deref s' m' = reduced
     | Err e => r = Err e
     end.
Proof.
  revert m s. induction ks as [| k ks IH]; intros m s Hwf Hn Hks;
    cbn [eliminateS eliminate].
  - split; [reflexivity | split; [reflexivity | eauto]].
  - assert (Hk : (k < n)%nat) by (apply Hks; now left).
    destruct (findPivotS_spec s m k n Hk) as [Hpivot Hlt]; [lia |].
    destruct (swapRowsS_spec s m k (findPivotS s m k n) Hwf) as (Hswap & Hwf' & Hlen' & Hsub);
      [lia | lia |].
    rewrite <- Hpivot, <- Hswap.
    set (m' := swapRowsS m k (findPivotS s m k n)) in *.
    rewrite entry_deref by lia.
    destruct (Math_abs (entryS s m' k k) <? PIVOT_TOLERANCE).
    + split; [reflexivity | split; [reflexivity | reflexivity]].
    + destruct (eliminateColumnS_spec m' k n s Hwf') as (Hcol & Hframe & Hlen); [lia |].
      cbv zeta in Hcol, Hframe, Hlen.
      rewrite <- Hcol.
      specialize (IH m' (eliminateColumnS m' k n s)).
      destruct (eliminateS ks n m' (eliminateColumnS m' k n s)) as [r s'].
      destruct IH as (Hlen2 & Hframe2 & Hres).
      * eapply wellFormed_length; eauto.
      * lia.
      * intros j Hj. apply Hks. now right.
      * split; [congruence | split; [| exact Hres]].
        intros a Ha.
        assert (Ha' : ~ In a m') by (intros H; apply Ha; now apply Hsub).
        rewrite Hframe2 by exact Ha'. now apply Hframe.
Qed.

Lemma deref_allocRows (rows : Matrix) (s : Store.t) :
  let '(m, s') := allocRows rows s in
  deref s' m = rows
  /\ wellFormed m s'
  /\ List.length m = List.length rows
  /\ (forall a, In a m -> (List.length s <= a)%nat)
  /\ (forall a, (a < List.length s)%nat -> read s' a = read s a)
  /\ (List.length s <= List.length s')%nat.
Proof.
  unfold allocRows. split; [| split; [split |]; [| | split; [| split; [| split]]]].
  - apply nth_ext with (d := []) (d' := []);
      [now rewrite length_deref, length_seq |].
    intros i Hi. rewrite length_deref, length_seq in Hi.
    rewrite nth_deref by now rewrite length_seq.
    rewrite seq_nth by exact Hi. unfold read.
    rewrite app_nth2 by lia. f_equal. lia.
  - apply seq_NoDup.
  - intros a Ha. apply in_seq in Ha. rewrite length_app. lia.
  - apply length_seq.
  - intros a Ha. apply in_seq in Ha. lia.
  - intros a Ha. unfold read. now apply app_nth1.
  - rewrite length_app. lia.
Qed.

End StoreElimination.

Section StoreSolve.
Context {M : MathLib}.
Import Store.

Lemma solveLinearSystemS_spec (A : list Addr) (b : list float)
  (regularization : float) (s : Store.t) :
  let '(r, s') := solveLinearSystemS A b regularization s in
  r = solveLinearSystem (deref s A) b regularization
  /\ (forall a, (a < List.length s)%nat -> read s' a = read s a)
  /\ (List.length s <= List.length s')%nat.
Proof.
  unfold solveLinearSystemS, solveLinearSystem. rewrite length_deref.
  set (n := List.length A).
  set (rows := map (fun i => read s (nth i A 0%nat) ++ [getNum b i]) (seq 0 n)).
  assert (Hrows : rows = augment (deref s A) b).
  { unfold rows, augment. rewrite length_deref. fold n.
    apply map_ext_in. intros i Hi. apply in_seq in Hi.
    now rewrite nth_deref by (fold n; lia). }
  pose proof (deref_allocRows rows s) as Halloc.
  destruct (allocRows rows s) as [augmented s1].
  destruct Halloc as (Hderef & Hwf & Hlen & Hfresh & Hold & Hgrow).
  assert (Hn : List.length augmented = n)
    by (rewrite Hlen; unfold rows; now rewrite length_map, length_seq).
  destruct (regularizeS_spec augmented regularization s1 Hwf) as (Hreg & Hframe1 & Hlen1).
  cbv zeta in Hreg, Hframe1, Hlen1.
  set (s2 := regularizeS augmented regularization s1) in *.
  assert (Hwf2 : wellFormed augmented s2) by (eapply wellFormed_length; eauto).
  pose proof (eliminateS_spec (seq 0 n) n augmented s2 Hwf2 Hn) as Helim.
  destruct (eliminateS (seq 0 n) n augmented s2) as [r s3].
  destruct Helim as (Hlen3 & Hframe3 & Hres);
    [intros k Hk; apply in_seq in Hk; lia |].
  rewrite Hreg, Hderef, Hrows in Hres.
  assert (Hkeep : forall a, (a < List.length s)%nat -> read s3 a = read s a).
  { intros a Ha.
    assert (Hnot : ~ In a augmented) by (intros Hin; apply Hfresh in Hin; lia).
    now rewrite Hframe3, Hframe1, Hold. }
  assert (Hsize : (List.length s <= List.length s3)%nat) by lia.
  destruct (eliminate (seq 0 n) n (regularize (augment (deref s A) b) regularization))
    as [reduced | e].
  - destruct Hres as (m' & -> & <-). cbn [bind]. auto.
  - subst r. cbn [bind]. auto.
Qed.

Lemma solvePanelMethodS_spec (geometry : AirfoilGeometry) (flow : FlowConditions)
  (params : PanelMethodParameters) (s : Store.t) :
  let '(r, s') := solvePanelMethodS geometry flow params s in
  r = solvePanelMethod geometry flow params
  /\ (forall a, (a < List.length s)%nat -> read s' a = read s a).
Proof.
  unfold solvePanelMethodS, solvePanelMethod.
  destruct (assembleSystem geometry flow) as [[rows rhs] | e]; cbn [bind]; [| auto].
  pose proof (deref_allocRows rows s) as Halloc.
  destruct (allocRows rows s) as [extendedA s1].
  destruct Halloc as (Hderef & [Hnd Hin] & Hlen & Hfresh & Hold & Hgrow).
  pose proof (solveLinearSystemS_spec extendedA rhs (regularization params) s1) as Hsolve.
  destruct (solveLinearSystemS extendedA rhs (regularization params) s1) as [r s2].
  destruct Hsolve as (-> & Hkeep & Hsize). rewrite Hderef.
  assert (Hsame : deref s2 extendedA = rows).
  { rewrite <- Hderef. apply deref_frame. intros a Ha. apply Hkeep. now apply Hin. }
  assert (Hframe : forall a, (a < List.length s)%nat -> read s2 a = read s a)
    by (intros a Ha; rewrite Hkeep by lia; now apply Hold).
  destruct (solveLinearSystem rows rhs (regularization params)) as [solution | e];
    cbn [bind]; [rewrite Hsame |]; auto.
Qed.

(** C9.  A run of [solvePanelMethod] started in any store of row objects
    returns what the function of [(geometry, flow, params)] alone returns, and
    leaves every row object that existed before the run as it was.  So two runs
    on equal inputs return identical results (the same [sigma], [gamma], [cp],
    [vt], lift coefficients and residual, or the same error), whatever the
    store each starts from, in particular the one a previous run left; and
    [iterations] is always 1. *)
Theorem solvePanelMethod_deterministic (geometry : AirfoilGeometry)
  (flow : FlowConditions) (params : PanelMethodParameters) :
  (forall s, fst (solvePanelMethodS geometry flow params s)
             = solvePanelMethod geometry flow params)
  /\ (forall s1 s2, fst (solvePanelMethodS geometry flow params s1)
                    = fst (solvePanelMethodS geometry flow params s2))
  /\ (forall s,
        fst (solvePanelMethodS geometry flow params
               (snd (solvePanelMethodS geometry flow params s)))
        = fst (solvePanelMethodS geometry flow params s))
  /\ (forall s a, (a < List.length s)%nat ->
        read (snd (solvePanelMethodS geometry flow params s)) a = read s a)
  /\ (forall sol, solvePanelMethod geometry flow params = Ok sol ->
        iterations sol = 1%Z).
Proof.
  assert (Hpure : forall s, fst (solvePanelMethodS geometry flow params s)
                            = solvePanelMethod geometry flow params).
  { intros s. pose proof (solvePanelMethodS_spec geometry flow params s) as H.
    destruct (solvePanelMethodS geometry flow params s) as [r s']. apply H. }
  split; [exact Hpure |].
  split; [intros s1 s2; now rewrite !Hpure |].
  split; [intros s; now rewrite !Hpure |].
  split.
  - intros s a Ha. pose proof (solvePanelMethodS_spec geometry flow params s) as H.
    destruct (solvePanelMethodS geometry flow params s) as [r s']. now apply H.
  - intros sol Hsol.
    destruct (solvePanelMethod_inv _ _ _ _ Hsol) as (extendedA & rhs & reduced & _ & _ & ->).
    reflexivity.
Qed.

End StoreSolve.

(** The two models agree when run on the sample geometry from an empty store
    and from the store the first run leaves. *)
Example store_runs_agree_on_diamond :
  let run := solvePanelMethodS (M := refMath) diamond sampleFlow defaultParams in
  fst (run []) = solvePanelMethod (M := refMath) diamond sampleFlow defaultParams
  /\ fst (run (snd (run []))) = fst (run [])
  /\ List.length (snd (run [])) = 10%nat.
Proof. vm_compute. repeat split. Qed.

(** * Further properties of the code *)

(** ** More float facts *)

Lemma SFcompare_lt_trans (x y z : spec_float) :
  SFcompare x y = Some Lt -> SFcompare y z = Some Lt -> SFcompare x z = Some Lt.
Proof.
  destruct x as [sx | sx | | sx mx ex], y as [sy | sy | | sy my ey],
    z as [sz | sz | | sz mz ez]; cbn;
    try discriminate; try reflexivity;
    repeat match goal with
           | s : bool |- _ => destruct s
           end; cbn; try discriminate; try reflexivity.
  - destruct (Z.compare_spec ex ey), (Z.compare_spec ey ez), (Z.compare_spec ex ez);
      subst; try lia; try discriminate; try reflexivity.
    rewrite !Pos.compare_cont_spec. cbn.
    destruct (Pos.compare_spec mx my), (Pos.compare_spec my mz), (Pos.compare_spec mx mz);
      cbn; subst; try lia; try discriminate; try reflexivity.
  - destruct (Z.compare_spec ex ey), (Z.compare_spec ey ez), (Z.compare_spec ex ez);
      subst; try lia; try discriminate; try reflexivity.
    rewrite !Pos.compare_cont_spec. cbn.
    destruct (Pos.compare_spec mx my), (Pos.compare_spec my mz), (Pos.compare_spec mx mz);
      cbn; subst; try lia; try discriminate; try reflexivity.
Qed.

Lemma ltb_trans (x y z : float) :
  (x <? y) = true -> (y <? z) = true -> (x <? z) = true.
Proof.
  rewrite !ltb_spec. unfold SFltb.
  destruct (SFcompare (Prim2SF x) (Prim2SF y)) as [[]|] eqn:E1; try discriminate.
  destruct (SFcompare (Prim2SF y) (Prim2SF z)) as [[]|] eqn:E2; try discriminate.
  now rewrite (SFcompare_lt_trans _ _ _ E1 E2).
Qed.

Lemma ltb_irrefl (x : float) : (x <? x) = false.
Proof.
  rewrite ltb_spec. unfold SFltb.
  destruct (Prim2SF x) as [s | s | | s m e]; cbn; try reflexivity;
    destruct s; try reflexivity;
    rewrite Z.compare_refl, Pos.compare_cont_refl; reflexivity.
Qed.

Lemma ltb_leb (x y : float) : (x <? y) = true -> (x <=? y) = true.
Proof.
  rewrite ltb_spec, leb_spec. unfold SFltb, SFleb.
  destruct (SFcompare (Prim2SF x) (Prim2SF y)) as [[]|]; auto.
Qed.

Lemma ltb_nan_r (x : float) : (x <? nan) = false.
Proof.
  rewrite ltb_spec. unfold SFltb. change (Prim2SF nan) with S754_nan.
  destruct (Prim2SF x); reflexivity.
Qed.

Lemma ltb_nan_l (x : float) : (nan <? x) = false.
Proof.
  rewrite ltb_spec. reflexivity.
Qed.

Lemma is_nan_eq (x : float) : is_nan x = true -> x = nan.
Proof.
  unfold is_nan. rewrite eqb_spec. intros H. apply Prim2SF_inj.
  change (Prim2SF nan) with S754_nan. unfold SFeqb in H.
  destruct (Prim2SF x) as [s | s | | s m e]; cbn in H; try discriminate; try reflexivity.
  - destruct s; discriminate.
  - destruct s; rewrite Z.compare_refl, Pos.compare_cont_refl in H; discriminate.
Qed.

(** A square root is [NaN], a zero or positive: never below zero. *)
Lemma sqrt_not_negative (x : float) : (Math_sqrt x <? 0) = false.
Proof.
  unfold Math_sqrt. rewrite ltb_spec, sqrt_spec. change (Prim2SF 0) with (S754_zero false).
  destruct (Prim2SF x) as [s | [] | | [] m e]; cbn; try reflexivity.
  unfold SF64sqrt, SFsqrt.
  destruct (SFsqrt_core_binary prec emax (Z.pos m) e) as [[mz ez] lz].
  unfold binary_round_aux.
  destruct (shr_fexp prec emax mz ez lz) as [mrs e'].
  destruct (shr_fexp prec emax _ e' loc_Exact) as [mrs' e''].
  destruct (shr_m mrs'); try reflexivity.
  destruct (e'' <=? emax - prec)%Z; reflexivity.
Qed.

Lemma mul_comm (a b : float) : a * b = b * a.
Proof.
  apply Prim2SF_inj. rewrite !mul_spec.
  destruct (Prim2SF a) as [sa | sa | | sa ma ea], (Prim2SF b) as [sb | sb | | sb mb eb];
    cbn; try reflexivity; try (now rewrite xorb_comm).
  unfold SF64mul; cbn. now rewrite xorb_comm, Pos.mul_comm, Z.add_comm.
Qed.

Lemma nan_mul_l (a : float) : nan * a = nan.
Proof. apply Prim2SF_inj. rewrite mul_spec. reflexivity. Qed.

Lemma nan_mul_r (a : float) : a * nan = nan.
Proof. rewrite mul_comm. apply nan_mul_l. Qed.

Lemma nan_add_l (a : float) : nan + a = nan.
Proof. apply Prim2SF_inj. rewrite add_spec. reflexivity. Qed.

Lemma nan_add_r (a : float) : a + nan = nan.
Proof.
  apply Prim2SF_inj. rewrite add_spec. change (Prim2SF nan) with S754_nan.
  destruct (Prim2SF a); reflexivity.
Qed.

Lemma nan_sub_l (a : float) : nan - a = nan.
Proof. apply Prim2SF_inj. rewrite sub_spec. reflexivity. Qed.

Lemma nan_div_l (a : float) : nan / a = nan.
Proof. apply Prim2SF_inj. rewrite div_spec. reflexivity. Qed.

Lemma SFopp_binary_round (s : bool) (m : positive) (e : Z) :
  SFopp (binary_round prec emax s m e) = binary_round prec emax (negb s) m e.
Proof.
  unfold binary_round.
  destruct (shl_align m e _) as [mz ez]. apply SFopp_binary_round_aux.
Qed.

Lemma SFmul_opp_opp (r : spec_float) : SF64mul (SFopp r) (SFopp r) = SF64mul r r.
Proof.
  destruct r as [s | s | | s m e]; cbn; try reflexivity; destruct s; reflexivity.
Qed.

Lemma SFmul_zero_zero (s s' : bool) :
  SF64mul (S754_zero s) (S754_zero s) = SF64mul (S754_zero s') (S754_zero s').
Proof.
  destruct s, s'; reflexivity.
Qed.

(** Swapping the operands of a subtraction negates the result, or leaves a
    zero a zero. *)
Lemma SFsub_swap (x y : spec_float) :
  SF64sub y x = SFopp (SF64sub x y)
  \/ exists s s', SF64sub x y = S754_zero s /\ SF64sub y x = S754_zero s'.
Proof.
  destruct x as [sx | sx | | sx mx ex], y as [sy | sy | | sy my ey];
    match goal with
    | |- context [SF64sub (S754_finite _ _ _) (S754_finite _ _ _)] => idtac
    | _ => repeat match goal with s : bool |- _ => destruct s end;
           first [left; reflexivity | right; cbn; eauto]
    end.
  unfold SF64sub, SFsub. rewrite (Z.min_comm ey ex).
  set (ez := Z.min ex ey).
  set (a := cond_Zopp sx (Z.pos (fst (shl_align mx ex ez)))).
  set (b := cond_Zopp sy (Z.pos (fst (shl_align my ey ez)))).
  replace (b - a)%Z with (- (a - b))%Z by lia.
  destruct (a - b)%Z as [| p | p]; cbn.
  - right. eauto.
  - left. now rewrite SFopp_binary_round.
  - left. now rewrite SFopp_binary_round.
Qed.

Lemma sub_sq_sym (a b : float) : (a - b) * (a - b) = (b - a) * (b - a).
Proof.
  apply Prim2SF_inj. rewrite !mul_spec, !sub_spec.
  destruct (SFsub_swap (Prim2SF a) (Prim2SF b)) as [-> | (s & s' & -> & ->)].
  - now rewrite SFmul_opp_opp.
  - apply SFmul_zero_zero.
Qed.

(** ** Vectors *)

Lemma sub_zero_r (x : float) : x - 0 = x.
Proof.
  apply Prim2SF_inj. rewrite sub_spec. change (Prim2SF 0) with (S754_zero false).
  destruct (Prim2SF x) as [[] | | |]; reflexivity.
Qed.

Section VectorFacts.
Context {M : MathLib}.

(** X1.  Bit for bit, [dot] is commutative, [distance] is symmetric, and
    [magnitude v] is the distance of [v] from the origin. *)
Theorem dot_distance_magnitude (v1 v2 : Vector2D) :
  dot v1 v2 = dot v2 v1
  /\ distance v1 v2 = distance v2 v1
  /\ magnitude v1 = distance (mkPoint 0 0) v1.
Proof.
  unfold dot, distance, magnitude. cbn [px py]. split; [| split].
  - now rewrite (mul_comm (px v1)), (mul_comm (py v1)).
  - now rewrite (sub_sq_sym (px v2)), (sub_sq_sym (py v2)).
  - now rewrite !sub_zero_r.
Qed.

(** X2.  Whatever their inputs, the residual of [calculateResidual], the
    [length] of a panel, [distance], [magnitude] and the speed of the tracer
    are never below zero: each is a square root, hence a zero, a positive
    number or [NaN]. *)
Theorem square_roots_not_negative (A : Matrix) (x b : list float)
  (eps : float) (p1 p2 : Point2D) (v : Vector2D) :
  (calculateResidual A x b <? 0) = false
  /\ (length (makePanel eps p1 p2) <? 0) = false
  /\ (distance p1 p2 <? 0) = false
  /\ (magnitude v <? 0) = false
  /\ (speed v <? 0) = false.
Proof.
  repeat split; apply sqrt_not_negative.
Qed.

End VectorFacts.

(** ** The NACA generator *)

Lemma digitValue_isDigit (c : ascii) :
  isDigit c = true <-> exists d, digitValue c = Some d.
Proof.
  unfold isDigit, digitValue.
  destruct ((48 <=? nat_of_ascii c) && (nat_of_ascii c <=? 57))%nat; split; eauto.
  - discriminate.
  - intros [d [=]].
Qed.

Lemma isNacaDigits_spec (digits : string) :
  isNacaDigits digits = true
  <-> exists c0 c1 c2 c3,
        digits = String c0 (String c1 (String c2 (String c3 EmptyString)))
        /\ isDigit c0 && isDigit c1 && isDigit c2 && isDigit c3 = true.
Proof.
  unfold isNacaDigits, parseNacaDigits. split.
  - destruct digits as [| c0 [| c1 [| c2 [| c3 [| c4 rest]]]]]; cbn; try discriminate.
    intros H. exists c0, c1, c2, c3. split; [reflexivity |].
    destruct (digitValue c0) eqn:E0, (digitValue c1) eqn:E1,
      (digitValue c2) eqn:E2, (digitValue c3) eqn:E3; try discriminate.
    rewrite !andb_true_iff. repeat split; apply digitValue_isDigit; eauto.
  - intros (c0 & c1 & c2 & c3 & -> & H). cbn.
    rewrite !andb_true_iff in H. destruct H as [[[H0 H1] H2] H3].
    apply digitValue_isDigit in H0 as [d0 ->], H1 as [d1 ->],
      H2 as [d2 ->], H3 as [d3 ->].
    reflexivity.
Qed.

Section NacaShape.
Context {M : MathLib}.

Lemma naca4_ok (digits : string) (nPoints : nat) (chord : float) (d0 d1 d23 : Z) :
  parseNacaDigits digits = Some (d0, d1, d23) ->
  let m := num d0 / 100 in
  let p := num d1 / 10 in
  let t := num d23 / 100 in
  let h := (nPoints / 2)%nat in
  let x := stations h chord in
  naca4 digits nPoints chord
  = Ok (map (fun i => upperPoint m p t chord (getNum x i)) (seq 0 h)
        ++ map (fun i => lowerPoint m p t chord (getNum x i)) (rev (seq 0 (h + 1)))).
Proof.
  intros Hparse. unfold naca4. rewrite Hparse. reflexivity.
Qed.

(** X3.  For a point count [nPoints] that is a non-negative integer, [naca4]
    throws 'NACA digits must be 4 digits' exactly when the designation is
    not four ASCII decimal digits; otherwise it returns
    2 * floor(nPoints / 2) + 1 points, for every such count and every
    [chord]. *)
Theorem naca4_outcome (digits : string) (nPoints : nat) (chord : float) :
  (isNacaDigits digits = true
   <-> exists c0 c1 c2 c3,
         digits = String c0 (String c1 (String c2 (String c3 EmptyString)))
         /\ isDigit c0 && isDigit c1 && isDigit c2 && isDigit c3 = true)
  /\ (isNacaDigits digits = false <-> naca4 digits nPoints chord = Err NacaDigitsError)
  /\ (isNacaDigits digits = true
      <-> exists pts, naca4 digits nPoints chord = Ok pts
                      /\ List.length pts = (2 * (nPoints / 2) + 1)%nat).
Proof.
  split; [apply isNacaDigits_spec |].
  unfold isNacaDigits.
  destruct (parseNacaDigits digits) as [[[d0 d1] d23] |] eqn:Hparse.
  - rewrite (naca4_ok _ _ _ _ _ _ Hparse). split; split; try discriminate; try reflexivity.
    intros _. eexists. split; [reflexivity |].
    rewrite length_app, !length_map, length_rev, !length_seq. lia.
  - unfold naca4. rewrite Hparse. split; split; try reflexivity; try discriminate.
    intros (pts & [=] & _).
Qed.

End NacaShape.

Lemma zeroOrNan_mul (a z : float) : zeroOrNan z -> zeroOrNan (a * z).
Proof.
  unfold zeroOrNan. intros Hz.
  assert (H : Prim2SF (a * z) = S754_zero false \/ Prim2SF (a * z) = S754_zero true
              \/ Prim2SF (a * z) = S754_nan).
  { rewrite mul_spec.
    destruct Hz as [-> | [-> | ->]];
      [change (Prim2SF 0) with (S754_zero false)
      | change (Prim2SF (-0)) with (S754_zero true)
      | change (Prim2SF nan) with S754_nan];
      destruct (Prim2SF a) as [[] | [] | | [] m e]; cbn; auto. }
  destruct H as [H | [H | H]]; [left | right; left | right; right];
    apply Prim2SF_inj; rewrite H; reflexivity.
Qed.

Lemma zeroOrNan_div (z a : float) : zeroOrNan z -> zeroOrNan (z / a).
Proof.
  unfold zeroOrNan. intros Hz.
  assert (H : Prim2SF (z / a) = S754_zero false \/ Prim2SF (z / a) = S754_zero true
              \/ Prim2SF (z / a) = S754_nan).
  { rewrite div_spec.
    destruct Hz as [-> | [-> | ->]];
      [change (Prim2SF 0) with (S754_zero false)
      | change (Prim2SF (-0)) with (S754_zero true)
      | change (Prim2SF nan) with S754_nan];
      destruct (Prim2SF a) as [[] | [] | | [] m e]; cbn; auto. }
  destruct H as [H | [H | H]]; [left | right; left | right; right];
    apply Prim2SF_inj; rewrite H; reflexivity.
Qed.

Lemma zeroOrNan_div_zero (z : float) : zeroOrNan z -> z / 0 = nan.
Proof.
  intros [-> | [-> | ->]]; vm_compute; reflexivity.
Qed.

(** The first station angle is 0 for every half-count the schema allows. *)
Lemma first_angle_zero (h : nat) :
  (1 <= h <= 250)%nat -> Math_PI * numNat 0 / numNat h = 0.
Proof.
  intros Hh.
  assert (Hall : forallb
                   (fun h => match Prim2SF (Math_PI * numNat 0 / numNat h) with
                             | S754_zero false => true
                             | _ => false
                             end)
                   (seq 1 250) = true) by (vm_compute; reflexivity).
  rewrite forallb_forall in Hall.
  specialize (Hall h ltac:(apply in_seq; lia)).
  apply Prim2SF_inj. change (Prim2SF 0) with (S754_zero false).
  destruct (Prim2SF (Math_PI * numNat 0 / numNat h)) as [[] | | |]; try discriminate.
  reflexivity.
Qed.

Lemma camber_digit_nonzero (c : ascii) :
  isDigit c = true -> c <> "0"%char ->
  exists d, digitValue c = Some d /\ (num d / 100 =? 0) = false.
Proof.
  intros Hd Hne. unfold isDigit in Hd. unfold digitValue. rewrite Hd.
  apply andb_true_iff in Hd as [Hlo Hhi].
  apply Nat.leb_le in Hlo, Hhi.
  eexists. split; [reflexivity |].
  assert (Hall : forallb (fun k => negb (num (Z.of_nat k) / 100 =? 0)) (seq 1 9) = true)
    by (vm_compute; reflexivity).
  rewrite forallb_forall in Hall.
  assert (Hk : (nat_of_ascii c - 48 <> 0)%nat).
  { intros H0. apply Hne.
    rewrite <- (ascii_nat_embedding c).
    replace (nat_of_ascii c) with 48%nat by lia. reflexivity. }
  specialize (Hall (nat_of_ascii c - 48)%nat ltac:(apply in_seq; lia)).
  now apply negb_true_iff in Hall.
Qed.

Section NacaNan.
Context {M : MathLib}.

Lemma camber_nan (m chord xc : float) :
  (m =? 0) = false -> zeroOrNan xc -> fst (camber m 0 chord xc) = nan.
Proof.
  intros Hm Hxc. unfold camber. rewrite Hm.
  destruct Hxc as [-> | [-> | ->]].
  - replace (0 <=? 0) with true by (vm_compute; reflexivity). cbn [fst].
    replace (2 * 0 * 0 - 0 * 0) with 0 by (vm_compute; reflexivity).
    replace (0 * 0) with 0 by (vm_compute; reflexivity).
    apply zeroOrNan_div_zero, zeroOrNan_mul. now left.
  - replace (-0 <=? 0) with true by (vm_compute; reflexivity). cbn [fst].
    replace (2 * 0 * -0 - -0 * -0) with (-0) by (vm_compute; reflexivity).
    replace (0 * 0) with 0 by (vm_compute; reflexivity).
    apply zeroOrNan_div_zero, zeroOrNan_mul. right; now left.
  - replace (nan <=? 0) with false by (vm_compute; reflexivity). cbn [fst].
    replace (1 - 2 * 0 + 2 * 0 * nan - nan * nan) with nan by (vm_compute; reflexivity).
    now rewrite nan_mul_r, nan_div_l.
Qed.

End NacaNan.

Section NacaNanPoints.
Context {M : MathLib}.

Lemma station_first (h : nat) (chord : float) :
  Math_cos 0 = 1 -> (1 <= h <= 250)%nat ->
  zeroOrNan (getNum (stations h chord) 0 / chord).
Proof.
  intros Hcos Hh. unfold stations. rewrite map_map.
  rewrite getNum_map_seq by lia.
  rewrite first_angle_zero by exact Hh. rewrite Hcos.
  replace (1 - 1) with 0 by (vm_compute; reflexivity).
  apply zeroOrNan_div, zeroOrNan_div, zeroOrNan_mul. now left.
Qed.

Lemma upperPoint_nan (m t chord xi : float) :
  (m =? 0) = false -> zeroOrNan (xi / chord) ->
  is_nan (py (upperPoint m 0 t chord xi)) = true.
Proof.
  intros Hm Hxc. unfold upperPoint.
  pose proof (camber_nan m chord (xi / chord) Hm Hxc) as Hyc.
  destruct (camber m 0 chord (xi / chord)) as [yc dyc]. cbn [fst] in Hyc. subst yc.
  cbn [py]. now rewrite nan_add_l.
Qed.

Lemma lowerPoint_nan (m t chord xi : float) :
  (m =? 0) = false -> zeroOrNan (xi / chord) ->
  is_nan (py (lowerPoint m 0 t chord xi)) = true.
Proof.
  intros Hm Hxc. unfold lowerPoint.
  pose proof (camber_nan m chord (xi / chord) Hm Hxc) as Hyc.
  destruct (camber m 0 chord (xi / chord)) as [yc dyc]. cbn [fst] in Hyc. subst yc.
  cbn [py]. now rewrite nan_sub_l.
Qed.

(** X4.  A designation with a camber digit from 1 to 9 and position digit 0
    (such as "1012") passes the digit test, yet the camber line divides 0 by 0
    at the first station: for every host whose [Math.cos(0)] is 1, every chord
    and every point count from 2 to 500, the first and the last point of the
    loop [naca4] returns have [y = NaN]. *)
Theorem naca4_nan_for_position_zero (c0 c2 c3 : ascii) (nPoints : nat)
  (chord : float) :
  Math_cos 0 = 1 ->
  isDigit c0 = true -> c0 <> "0"%char -> isDigit c2 = true -> isDigit c3 = true ->
  (2 <= nPoints <= 500)%nat ->
  exists pts first last,
    naca4 (String c0 (String "0" (String c2 (String c3 EmptyString)))) nPoints chord
    = Ok pts
    /\ nth_error pts 0 = Some first
    /\ nth_error pts (2 * (nPoints / 2)) = Some last
    /\ is_nan (py first) = true
    /\ is_nan (py last) = true.
Proof.
  intros Hcos H0 Hne H2 H3 Hn.
  destruct (camber_digit_nonzero c0 H0 Hne) as (d0 & Hd0 & Hm).
  apply digitValue_isDigit in H2 as [d2 Hd2], H3 as [d3 Hd3].
  set (h := (nPoints / 2)%nat).
  assert (Hh : (1 <= h <= 250)%nat).
  { unfold h. pose proof (Nat.div_mod_eq nPoints 2) as Hdiv.
    pose proof (Nat.mod_upper_bound nPoints 2 ltac:(lia)) as Hmod. lia. }
  pose proof (naca4_ok (String c0 (String "0" (String c2 (String c3 EmptyString))))
                nPoints chord d0 0 (10 * d2 + d3)) as Hok.
  cbv zeta in Hok. fold h in Hok.
  replace (num 0 / 10) with 0 in Hok by (vm_compute; reflexivity).
  assert (Hparse : parseNacaDigits
                     (String c0 (String "0" (String c2 (String c3 EmptyString))))
                   = Some (d0, 0%Z, (10 * d2 + d3)%Z)).
  { unfold parseNacaDigits. cbn [list_ascii_of_string]. rewrite Hd0, Hd2, Hd3.
    reflexivity. }
  rewrite (Hok Hparse).
  set (x0 := getNum (stations h chord) 0).
  pose proof (station_first h chord Hcos Hh) as Hxc. fold x0 in Hxc.

  eexists _, (upperPoint (num d0 / 100) 0 (num (10 * d2 + d3) / 100) chord x0),
             (lowerPoint (num d0 / 100) 0 (num (10 * d2 + d3) / 100) chord x0).
  split; [reflexivity |].
  split; [| split; [| split; [now apply upperPoint_nan | now apply lowerPoint_nan]]].
  - destruct h as [| h']; [lia |]. reflexivity.
  - rewrite nth_error_app2 by (rewrite length_map, length_seq; lia).
    rewrite length_map, length_seq.
    replace (2 * h - h)%nat with h by lia.
    rewrite nth_error_map.
    rewrite nth_error_nth' with (d := 0%nat) by (rewrite length_rev, length_seq; lia).
    rewrite rev_nth by (rewrite length_seq; lia).
    rewrite length_seq, seq_nth by lia.
    replace (0 + (h + 1 - S h))%nat with 0%nat by lia. reflexivity.
Qed.

End NacaNanPoints.

Lemma naca4_nan_for_position_zero_witness :
  exists pts first,
    naca4 (M := refMath) "1012" 20 1 = Ok pts
    /\ nth_error pts 0 = Some first
    /\ is_nan (py first) = true.
Proof.
  destruct (naca4_nan_for_position_zero (M := refMath) "1" "1" "2" 20 1
              eq_refl eq_refl ltac:(discriminate) eq_refl eq_refl ltac:(lia))
    as (pts & first & last & Hok & Hfirst & _ & Hnan & _).
  exists pts, first. auto.
Defined.

(** ** Panels along the loop *)

Section PanelChain.
Context {M : MathLib}.

Lemma nth_error_map_seq {B : Type} (f : nat -> B) (n i : nat) (b : B) :
  nth_error (map f (seq 0 n)) i = Some b -> (i < n)%nat /\ b = f i.
Proof.
  intros H.
  assert (Hi : (i < n)%nat).
  { rewrite <- (length_seq n 0), <- (length_map f). apply nth_error_Some. congruence. }
  split; [exact Hi |].
  rewrite nth_error_map, nth_error_nth' with (d := 0%nat) in H
    by (rewrite length_seq; exact Hi).
  rewrite seq_nth in H by exact Hi. cbn in H. congruence.
Qed.

Lemma panelize_nth (points : list Point2D) (params : PanelMethodParameters)
  (i : nat) (panel : Panel) :
  nth_error (panelize points params) i = Some panel ->
  (i + 1 < List.length points)%nat
  /\ panel = makePanel
               (epsilon params * (Math_max (map px points) - Math_min (map px points)))
               (nth i points undefinedPoint) (nth (i + 1) points undefinedPoint).
Proof.
  unfold panelize. intros H. apply nth_error_map_seq in H as [Hi ->].
  assert (Hlt : (i + 1 < List.length points)%nat) by lia.
  split; [exact Hlt |]. now rewrite Nat.mod_small by exact Hlt.
Qed.

(** X5.  Panel [i] of [panelize] runs from [points[i]] to [points[i + 1]]: the
    index [(i + 1) % points.length] never wraps, so no panel joins the last
    point to the first, and consecutive panels share an end point. *)
Theorem panelize_chain (points : list Point2D) (params : PanelMethodParameters)
  (i : nat) (panel : Panel) :
  nth_error (panelize points params) i = Some panel ->
  exists p1 p2,
    nth_error points i = Some p1
    /\ nth_error points (i + 1) = Some p2
    /\ mkPoint (x1 panel) (y1 panel) = p1
    /\ mkPoint (x2 panel) (y2 panel) = p2
    /\ forall next, nth_error (panelize points params) (i + 1) = Some next ->
         mkPoint (x1 next) (y1 next) = p2.
Proof.
  intros H. destruct (panelize_nth _ _ _ _ H) as [Hlt ->].
  exists (nth i points undefinedPoint), (nth (i + 1) points undefinedPoint).
  split; [apply nth_error_nth'; lia |].
  split; [apply nth_error_nth'; lia |].
  cbn [x1 y1 x2 y2 makePanel].
  split; [now destruct (nth i points undefinedPoint) |].
  split; [now destruct (nth (i + 1) points undefinedPoint) |].
  intros next Hnext. destruct (panelize_nth _ _ _ _ Hnext) as [_ ->].
  cbn [x1 y1 makePanel]. now destruct (nth (i + 1) points undefinedPoint).
Qed.

End PanelChain.

Lemma panelize_chain_witness :
  exists panel,
    nth_error (panelize (M := refMath) diamondPoints defaultParams) 3 = Some panel
    /\ mkPoint (x2 panel) (y2 panel) = mkPoint 0 0.
Proof.
  eexists. split; [reflexivity |].
  destruct (panelize_chain (M := refMath) diamondPoints defaultParams 3 _ eq_refl)
    as (p1 & p2 & _ & H2 & _ & Hend & _).
  rewrite Hend. cbn in H2. congruence.
Defined.

(** ** What the solver returns or throws *)

Lemma solveLinearSystem_result (A : Matrix) (b : list float) (regularization : float) :
  (exists x, solveLinearSystem A b regularization = Ok x
             /\ List.length x = List.length A)
  \/ (exists k, (k < List.length A)%nat
                /\ solveLinearSystem A b regularization = Err (SingularMatrix k)).
Proof.
  unfold solveLinearSystem.
  destruct (eliminate _ _ _) as [reduced | e] eqn:Helim; cbn [bind].
  - left. eexists. split; [reflexivity | apply length_backSubstitute].
  - right. apply eliminate_error in Helim as (pre & k & post & Hks & -> & _).
    apply split_seq in Hks as [_ Hk]. now exists k.
Qed.

Section SolverOutcome.
Context {M : MathLib}.

Lemma assembleSystem_error (geometry : AirfoilGeometry) (flow : FlowConditions) :
  index (panels geometry) (teUpperIndex geometry) = None
  \/ index (panels geometry) (teLowerIndex geometry) = None ->
  assembleSystem geometry flow = Err TypeError.
Proof.
  unfold assembleSystem, buildKuttaCoefficients.
  destruct (index _ (teUpperIndex geometry)), (index _ (teLowerIndex geometry));
    intros [H | H]; try discriminate; reflexivity.
Qed.

Lemma solvePanelMethod_bad_index (geometry : AirfoilGeometry) (flow : FlowConditions)
  (params : PanelMethodParameters) :
  index (panels geometry) (teUpperIndex geometry) = None
  \/ index (panels geometry) (teLowerIndex geometry) = None ->
  solvePanelMethod geometry flow params = Err TypeError.
Proof.
  intros H. unfold solvePanelMethod. now rewrite assembleSystem_error.
Qed.

Lemma solvePanelMethod_good_index (geometry : AirfoilGeometry) (flow : FlowConditions)
  (params : PanelMethodParameters) (upper lower : Panel) :
  index (panels geometry) (teUpperIndex geometry) = Some upper ->
  index (panels geometry) (teLowerIndex geometry) = Some lower ->
  let n := List.length (panels geometry) in
  (exists sol, solvePanelMethod geometry flow params = Ok sol
               /\ List.length (sigma sol) = n
               /\ List.length (cp sol) = n
               /\ List.length (vt sol) = n)
  \/ (exists k, (k <= n)%nat
                /\ solvePanelMethod geometry flow params = Err (SingularMatrix k)).
Proof.
  intros Hu Hl n.
  pose proof (assembleSystem_ok geometry flow upper lower Hu Hl) as Hsys.
  cbv zeta in Hsys.
  destruct (assembleSystem geometry flow) as [[extendedA rhs] | e] eqn:Hasm;
    [| discriminate].
  pose proof (assembleSystem_length _ _ _ _ Hasm) as Hlen. fold n in Hlen.
  unfold solvePanelMethod. rewrite Hasm. cbn [bind].
  destruct (solveLinearSystem_result extendedA rhs (regularization params))
    as [(x & -> & Hx) | (k & Hk & ->)]; cbn [bind].
  - left. eexists. split; [reflexivity |].
    cbn [postProcess sigma cp vt]. rewrite !length_map, length_firstn.
    fold n. split; [lia | auto].
  - right. exists k. split; [lia | reflexivity].
Qed.

Lemma index_cases {A : Type} (a : list A) (i j : Z) :
  (index a i = None \/ index a j = None)
  \/ exists x y, index a i = Some x /\ index a j = Some y.
Proof.
  destruct (index a i), (index a j); eauto.
Qed.

Lemma index_nil {A : Type} (i : Z) : index (@nil A) i = None.
Proof.
  unfold index. destruct (i <? 0)%Z; [reflexivity |]. now destruct (Z.to_nat i).
Qed.

(** X6.  [solvePanelMethod] throws a [TypeError] exactly when a trailing-edge
    index lies outside the panel array (so always for a geometry without
    panels).  Its only other exception is [Singular matrix at row k], with
    [k] at most the number of panels; a returned solution has one source
    strength, one [cp] and one [vt] per panel. *)
Theorem solvePanelMethod_outcome (geometry : AirfoilGeometry) (flow : FlowConditions)
  (params : PanelMethodParameters) :
  let n := List.length (panels geometry) in
  (solvePanelMethod geometry flow params = Err TypeError
   <-> index (panels geometry) (teUpperIndex geometry) = None
       \/ index (panels geometry) (teLowerIndex geometry) = None)
  /\ (panels geometry = [] -> solvePanelMethod geometry flow params = Err TypeError)
  /\ (forall e, solvePanelMethod geometry flow params = Err e ->
        e = TypeError \/ exists k, (k <= n)%nat /\ e = SingularMatrix k)
  /\ (forall sol, solvePanelMethod geometry flow params = Ok sol ->
        List.length (sigma sol) = n /\ List.length (cp sol) = n
        /\ List.length (vt sol) = n).
Proof.
  intros n.
  pose proof (solvePanelMethod_bad_index geometry flow params) as Hbad.
  pose proof (solvePanelMethod_good_index geometry flow params) as Hgood.
  pose proof (index_cases (panels geometry) (teUpperIndex geometry)
                (teLowerIndex geometry)) as Hcases.
  cbv zeta in Hgood. fold n in Hgood.
  split; [| split; [| split]].
  - split; [| exact Hbad].
    intros Herr. destruct Hcases as [H | (upper & lower & Hu & Hl)]; [exact H |].
    destruct (Hgood _ _ Hu Hl) as [(sol & Hsol & _) | (k & _ & Hk)]; congruence.
  - intros Hnil. apply Hbad. left. rewrite Hnil. apply index_nil.
  - intros e He. destruct Hcases as [H | (upper & lower & Hu & Hl)].
    + left. rewrite (Hbad H) in He. congruence.
    + destruct (Hgood _ _ Hu Hl) as [(sol & Hsol & _) | (k & Hk & Hsing)].
      * congruence.
      * right. exists k. split; [exact Hk | congruence].
  - intros sol Hsol. destruct Hcases as [H | (upper & lower & Hu & Hl)].
    + rewrite (Hbad H) in Hsol. discriminate.
    + destruct (Hgood _ _ Hu Hl) as [(sol' & Hsol' & Hlens) | (k & _ & Hsing)].
      * assert (sol = sol') by congruence. now subst.
      * congruence.
Qed.

End SolverOutcome.

(** ** Geometries built from a designation *)

Section CreatedGeometry.
Context {M : MathLib}.

Lemma naca4_length (digits : string) (nPoints : nat) (chord : float)
  (pts : list Point2D) :
  naca4 digits nPoints chord = Ok pts ->
  List.length pts = (2 * (nPoints / 2) + 1)%nat.
Proof.
  destruct (parseNacaDigits digits) as [[[d0 d1] d23] |] eqn:Hparse.
  - rewrite (naca4_ok _ _ _ _ _ _ Hparse). intros [= <-].
    rewrite length_app, !length_map, length_rev, !length_seq.
    change (fst (Nat.divmod nPoints 1 0 1)) with (nPoints / 2)%nat. lia.
  - unfold naca4. rewrite Hparse. discriminate.
Qed.

Lemma index_some {A : Type} (a : list A) (i : Z) :
  (0 <= i < Z.of_nat (List.length a))%Z -> exists x, index a i = Some x.
Proof.
  intros Hi. unfold index.
  destruct (Z.ltb_spec i 0); [lia |].
  destruct (nth_error a (Z.to_nat i)) eqn:Hnth; [eauto |].
  apply nth_error_None in Hnth. lia.
Qed.

(** X7.  For a point count [nPoints] that is a non-negative integer and a
    panel request [nPanels] that is an integer, [createAirfoilGeometry]
    throws exactly when [naca4] does (the designation is not four digits).
    Otherwise the geometry has 2 * floor(nPoints / 2) + 1 points,
    min(nPanels, 2 * floor(nPoints / 2)) panels (none for a request below
    1), the chord of the parameters, [teUpperIndex = 0] and [teLowerIndex] =
    number of panels - 1.  Solving such a geometry throws a [TypeError]
    exactly when it has no panel; with at least one panel the only possible
    exception is a singular matrix. *)
Theorem createAirfoilGeometry_outcome (nacaParams : NacaParameters)
  (panelParams : PanelMethodParameters) :
  let h := (nPoints nacaParams / 2)%nat in
  let count := Z.to_nat (Z.min (nPanels panelParams) (2 * Z.of_nat h)) in
  (isNacaDigits (digits nacaParams) = false
   <-> createAirfoilGeometry nacaParams panelParams = Err NacaDigitsError)
  /\ (isNacaDigits (digits nacaParams) = true
      <-> exists g,
            createAirfoilGeometry nacaParams panelParams = Ok g
            /\ List.length (points g) = (2 * h + 1)%nat
            /\ List.length (panels g) = count
            /\ chord g = naca_chord nacaParams
            /\ teUpperIndex g = 0%Z
            /\ teLowerIndex g = (Z.of_nat count - 1)%Z
            /\ forall flow params,
                 (solvePanelMethod g flow params = Err TypeError <-> count = 0%nat)
                 /\ ((0 < count)%nat ->
                     (exists sol, solvePanelMethod g flow params = Ok sol)
                     \/ exists k, (k <= count)%nat
                                  /\ solvePanelMethod g flow params
                                     = Err (SingularMatrix k))).
Proof.
  intros h count. unfold createAirfoilGeometry, isNacaDigits.
  destruct (naca4 (digits nacaParams) (nPoints nacaParams) (naca_chord nacaParams))
    as [pts | e] eqn:Hnaca; cbn [bind].
  - pose proof (naca4_length _ _ _ _ Hnaca) as Hlen. fold h in Hlen.
    assert (Hcount : List.length (panelize pts panelParams) = count).
    { rewrite panelize_length, Hlen. unfold count. clearbody h.
      f_equal. f_equal. lia. }
    revert Hnaca. unfold naca4.
    destruct (parseNacaDigits (digits nacaParams)) as [[[d0 d1] d23] |];
      [| discriminate].
    intros _. split; [split; discriminate |].
    split; [intros _ | reflexivity].
    eexists. split; [reflexivity |]. cbn [points panels chord teUpperIndex teLowerIndex].
    rewrite Hcount. repeat (split; [reflexivity || exact Hlen |]).
    intros flow params.
    set (g := mkGeometry pts (panelize pts panelParams) (naca_chord nacaParams) 0
                (Z.of_nat count - 1)).
    destruct (Nat.eq_dec count 0) as [Hzero | Hpos].
    + assert (Hnil : panels g = []).
      { cbn [g panels]. apply length_zero_iff_nil. congruence. }
      assert (Herr : solvePanelMethod g flow params = Err TypeError).
      { apply solvePanelMethod_bad_index. left. rewrite Hnil. apply index_nil. }
      split; [split; auto | lia].
    + destruct (index_some (panels g) (teUpperIndex g)) as [upper Hu].
      { cbn [g panels teUpperIndex]. lia. }
      destruct (index_some (panels g) (teLowerIndex g)) as [lower Hl].
      { cbn [g panels teLowerIndex]. lia. }
      pose proof (solvePanelMethod_good_index g flow params upper lower Hu Hl) as Hgood.
      cbv zeta in Hgood. cbn [g panels] in Hgood. rewrite Hcount in Hgood.
      split.
      * split; [| lia]. intros Herr.
        destruct Hgood as [(sol & Hsol & _) | (k & _ & Hk)]; congruence.
      * intros _. destruct Hgood as [(sol & Hsol & _) | (k & Hk & Hsing)]; eauto.
  - revert Hnaca. unfold naca4.
    destruct (parseNacaDigits (digits nacaParams)) as [[[d0 d1] d23] |];
      [discriminate |].
    intros [= <-]. split; [split; reflexivity |].
    split; [discriminate | intros (g & [=] & _)].
Qed.

End CreatedGeometry.

(** ** The geometry of [PanelTab] *)

Section PanelTabFacts.
Context {M : MathLib}.

Lemma rev_seq_S (n : nat) : rev (seq 0 (n + 1)) = n :: rev (seq 0 n).
Proof.
  rewrite Nat.add_1_r, seq_S, rev_app_distr. reflexivity.
Qed.

Lemma nPanels_panelTabParams (k : Z) : nPanels (panelTabParams k) = k.
Proof. reflexivity. Qed.

Lemma panelTab_halfPoints (nPanels : Z) :
  (50 <= nPanels)%Z ->
  (Z.to_nat (Z.max 100 (nPanels * 2)) / 2)%nat = Z.to_nat nPanels.
Proof.
  intros H.
  replace (Z.to_nat (Z.max 100 (nPanels * 2))) with (Z.to_nat nPanels * 2)%nat by lia.
  apply Nat.div_mul. discriminate.
Qed.

(** X8.  The geometry [PanelTab] builds for a four-digit designation and a
    panel count [nPanels >= 50] (the store keeps it in [60, 240]): [naca4] is
    asked for [2 * nPanels] points and returns [2 * nPanels + 1], of which
    [panelize] uses the first [nPanels + 1].  Panel [i] starts at the upper
    surface point of station [i]; it ends at the upper surface point of
    station [i + 1], the last one at the trailing-edge point.  So every panel
    lies on the upper surface, the points [nPanels + 1 .. 2 * nPanels] of the
    lower surface are the end of no panel, and [teLowerIndex] is the last
    upper-surface panel. *)
Theorem panelTab_panels_on_upper_surface (nacaDigits : string) (chord : float)
  (nPanels d0 d1 d23 : Z) :
  parseNacaDigits nacaDigits = Some (d0, d1, d23) ->
  (50 <= nPanels)%Z ->
  let n := Z.to_nat nPanels in
  let m := num d0 / 100 in
  let p := num d1 / 10 in
  let t := num d23 / 100 in
  let x := stations n chord in
  exists g,
    panelTabGeometry nacaDigits chord nPanels = Some g
    /\ List.length (points g) = (2 * n + 1)%nat
    /\ List.length (panels g) = n
    /\ teUpperIndex g = 0%Z
    /\ teLowerIndex g = (nPanels - 1)%Z
    /\ forall i panel,
         nth_error (panels g) i = Some panel ->
         (i < n)%nat
         /\ nth_error (points g) i = Some (mkPoint (x1 panel) (y1 panel))
         /\ nth_error (points g) (i + 1) = Some (mkPoint (x2 panel) (y2 panel))
         /\ mkPoint (x1 panel) (y1 panel) = upperPoint m p t chord (getNum x i)
         /\ mkPoint (x2 panel) (y2 panel)
            = if (i + 1 <? n)%nat
              then upperPoint m p t chord (getNum x (i + 1))
              else lowerPoint m p t chord (getNum x n).
Proof.
  intros Hparse Hn n m p t x.
  unfold panelTabGeometry, createAirfoilGeometry. cbn [digits nPoints naca_chord].
  rewrite (naca4_ok _ _ _ _ _ _ Hparse). cbv zeta.
  rewrite (panelTab_halfPoints _ Hn). fold n m p t x. cbn [bind].
  set (upper := map (fun i => upperPoint m p t chord (getNum x i)) (seq 0 n)).
  set (lower := map (fun i => lowerPoint m p t chord (getNum x i)) (rev (seq 0 (n + 1)))).
  assert (Hupper : List.length upper = n) by (unfold upper; now rewrite length_map, length_seq).
  assert (Hlower : List.length lower = (n + 1)%nat)
    by (unfold lower; now rewrite length_map, length_rev, length_seq).
  assert (Hpoints : List.length (upper ++ lower) = (2 * n + 1)%nat)
    by (rewrite length_app; lia).
  assert (Hpanels : List.length (panelize (upper ++ lower) (panelTabParams nPanels)) = n).
  { rewrite panelize_length, Hpoints. rewrite nPanels_panelTabParams. lia. }
  eexists. split; [reflexivity |].
  cbn [points panels teUpperIndex teLowerIndex]. rewrite Hpanels.
  split; [exact Hpoints |]. split; [reflexivity |]. split; [reflexivity |].
  split; [f_equal; lia |].
  intros i panel Hpanel.
  assert (Hi : (i < n)%nat).
  { rewrite <- Hpanels. apply nth_error_Some. congruence. }
  destruct (panelize_nth _ _ _ _ Hpanel) as [Hlt ->].
  cbn [x1 y1 x2 y2 makePanel].
  assert (Hp1 : nth i (upper ++ lower) undefinedPoint
                = upperPoint m p t chord (getNum x i)).
  { rewrite app_nth1 by lia. unfold upper. now rewrite nth_map_seq by exact Hi. }
  assert (Hp2 : nth (i + 1) (upper ++ lower) undefinedPoint
                = if (i + 1 <? n)%nat
                  then upperPoint m p t chord (getNum x (i + 1))
                  else lowerPoint m p t chord (getNum x n)).
  { destruct (Nat.ltb_spec (i + 1) n) as [Hin | Hout].
    - rewrite app_nth1 by lia. unfold upper. now rewrite nth_map_seq by exact Hin.
    - rewrite app_nth2 by lia.
      replace (i + 1 - List.length upper)%nat with 0%nat by lia.
      unfold lower. rewrite rev_seq_S. reflexivity. }
  split; [exact Hi |].
  split; [rewrite (nth_error_nth' _ undefinedPoint) by lia;
          now destruct (nth i (upper ++ lower) undefinedPoint) |].
  split; [rewrite (nth_error_nth' _ undefinedPoint) by lia;
          now destruct (nth (i + 1) (upper ++ lower) undefinedPoint) |].
  rewrite <- Hp1, <- Hp2.
  split; [now destruct (nth i (upper ++ lower) undefinedPoint) |
          now destruct (nth (i + 1) (upper ++ lower) undefinedPoint)].
Qed.

End PanelTabFacts.

Lemma panelTab_panels_on_upper_surface_witness :
  exists g,
    panelTabGeometry (M := refMath) "2412" 1 60 = Some g
    /\ List.length (points g) = 121%nat
    /\ List.length (panels g) = 60%nat
    /\ teLowerIndex g = 59%Z.
Proof.
  destruct (panelTab_panels_on_upper_surface (M := refMath) "2412" 1 60 2 4 12
              eq_refl ltac:(lia))
    as (g & Hg & Hpoints & Hpanels & _ & Hlower & _).
  exists g. auto.
Defined.

(** ** Gaussian elimination *)

Section PivotFacts.

Lemma pivot_scan (key : nat -> float) (cnt lo r0 : nat) :
  let r := fold_left (fun maxRow i => if key i >? key maxRow then i else maxRow)
                     (seq lo cnt) r0 in
  (r = r0 \/ (lo <= r < lo + cnt)%nat)
  /\ (key r0 >? key r) = false
  /\ forall i, (lo <= i < lo + cnt)%nat -> (key i >? key r) = false.
Proof.
  induction cnt as [| cnt IH]; cbn zeta.
  - cbn [seq fold_left]. split; [now left |]. split; [apply ltb_irrefl | lia].
  - rewrite seq_S, fold_left_app. cbn [fold_left].
    cbn zeta in IH. destruct IH as (Hr & Hr0 & Hmax).
    set (r := fold_left _ (seq lo cnt) r0) in *.
    destruct (key (lo + cnt)%nat >? key r) eqn:Hcmp.
    + assert (Hup : forall z, (z >? key r) = false -> (z >? key (lo + cnt)%nat) = false).
      { intros z Hz. unfold gtb in *.
        destruct (key (lo + cnt)%nat <? z) eqn:Hlt; [| reflexivity].
        now rewrite (ltb_trans _ _ _ Hcmp Hlt) in Hz. }
      split; [right; lia |]. split; [now apply Hup |].
      intros i Hi. destruct (Nat.eq_dec i (lo + cnt)) as [-> | Hne].
      * apply ltb_irrefl.
      * apply Hup, Hmax. lia.
    + split; [destruct Hr; [now left | right; lia] |].
      split; [exact Hr0 |].
      intros i Hi. destruct (Nat.eq_dec i (lo + cnt)) as [-> | Hne].
      * exact Hcmp.
      * apply Hmax. lia.
Qed.

Lemma findPivot_range (augmented : Matrix) (k n : nat) :
  (k < n)%nat ->
  let r := findPivot augmented k n in
  (k <= r < n)%nat
  /\ forall i, (k <= i < n)%nat ->
       (Math_abs (entry augmented i k) >? Math_abs (entry augmented r k)) = false.
Proof.
  intros Hk. unfold findPivot, forRange.
  pose proof (pivot_scan (fun i => Math_abs (entry augmented i k))
                (n - (k + 1)) (k + 1) k) as H.
  cbn zeta in H. destruct H as (Hr & Hr0 & Hmax). cbn zeta.
  set (r := fold_left _ _ k) in *.
  split; [destruct Hr; lia |].
  intros i Hi. destruct (Nat.eq_dec i k) as [-> | Hne]; [exact Hr0 |].
  apply Hmax. lia.
Qed.

(** X9.  Partial pivoting: after the row exchange of step [k] the entry
    [augmented[k][k]] is one of the entries of column [k] in rows [k .. n-1],
    and no entry of that column in those rows is larger in absolute value.
    The exchange leaves every other row where it was: the rows are the old
    rows with rows [k] and [maxRow] swapped. *)
Theorem pivot_is_largest (augmented : Matrix) (k n : nat) :
  (k < n)%nat ->
  (n <= List.length augmented)%nat ->
  let maxRow := findPivot augmented k n in
  let swapped := swapRows augmented k maxRow in
  (k <= maxRow < n)%nat
  /\ List.length swapped = List.length augmented
  /\ nth k swapped [] = nth maxRow augmented []
  /\ nth maxRow swapped [] = nth k augmented []
  /\ (forall i, i <> k -> i <> maxRow -> nth i swapped [] = nth i augmented [])
  /\ forall i, (k <= i < n)%nat ->
       (Math_abs (entry swapped i k) >? Math_abs (entry swapped k k)) = false.
Proof.
  intros Hk Hn maxRow swapped.
  destruct (findPivot_range augmented k n Hk) as [Hr Hmax]. fold maxRow in Hr, Hmax.
  assert (Hrows : forall i,
             nth i swapped []
             = if Nat.eqb i maxRow then nth k augmented []
               else if Nat.eqb i k then nth maxRow augmented []
               else nth i augmented []).
  { intros i. unfold swapped, swapRows.
    destruct (Nat.eqb_spec maxRow k) as [Heq | Hne].
    - rewrite Heq. destruct (Nat.eqb_spec i k) as [-> |]; reflexivity.
    - apply nth_swap; lia. }
  split; [exact Hr |].
  split.
  { unfold swapped, swapRows. destruct (Nat.eqb maxRow k); [reflexivity |].
    now rewrite !length_setNth. }
  split.
  { rewrite Hrows, Nat.eqb_refl.
    destruct (Nat.eqb_spec k maxRow) as [<- |]; reflexivity. }
  split.
  { now rewrite Hrows, Nat.eqb_refl. }
  split.
  { intros i Hik Him. rewrite Hrows.
    destruct (Nat.eqb_spec i maxRow); [contradiction |].
    destruct (Nat.eqb_spec i k); [contradiction | reflexivity]. }
  intros i Hi. unfold entry. rewrite !Hrows, Nat.eqb_refl.
  assert (Hkk : (if Nat.eqb k maxRow then nth k augmented [] else nth maxRow augmented [])
                = nth maxRow augmented []).
  { destruct (Nat.eqb_spec k maxRow) as [<- |]; reflexivity. }
  rewrite Hkk.
  destruct (Nat.eqb_spec i maxRow) as [-> | Him].
  - apply (Hmax k). lia.
  - destruct (Nat.eqb_spec i k) as [-> | Hik].
    + apply ltb_irrefl.
    + apply (Hmax i). lia.
Qed.

End PivotFacts.

Lemma pivot_is_largest_witness :
  findPivot [[1; 2; 0]; [-3; 1; 0]] 0 2 = 1%nat
  /\ entry (swapRows [[1; 2; 0]; [-3; 1; 0]] 0 1) 0 0 = -3
  /\ (Math_abs (entry (swapRows [[1; 2; 0]; [-3; 1; 0]] 0
                         (findPivot [[1; 2; 0]; [-3; 1; 0]] 0 2)) 1 0)
      >? Math_abs (entry (swapRows [[1; 2; 0]; [-3; 1; 0]] 0
                            (findPivot [[1; 2; 0]; [-3; 1; 0]] 0 2)) 0 0)) = false.
Proof.
  split; [reflexivity |]. split; [reflexivity |].
  destruct (pivot_is_largest [[1; 2; 0]; [-3; 1; 0]] 0 2 ltac:(lia) ltac:(cbn; lia))
    as (_ & _ & _ & _ & _ & Hmax).
  apply (Hmax 1%nat). lia.
Defined.

Section EliminationStep.

(** An index loop that rewrites cell [i] from cell [i] alone. *)
Lemma pointwise_update {A : Type} (d : A) (g : nat -> A -> A) (cnt lo : nat)
  (l : list A) (i : nat) :
  nth i (fold_left (fun acc i => setNth acc i (g i (nth i acc d))) (seq lo cnt) l) d
  = if ((lo <=? i) && (i <? lo + cnt) && (i <? List.length l))%nat
    then g i (nth i l d)
    else nth i l d.
Proof.
  revert lo l. induction cnt as [| cnt IH]; intros lo l; cbn [seq fold_left].
  - destruct (Nat.leb_spec lo i), (Nat.ltb_spec i (lo + 0)); try lia; reflexivity.
  - rewrite IH, length_setNth.
    destruct (Nat.eq_dec i lo) as [-> | Hne].
    + destruct (Nat.leb_spec (S lo) lo), (Nat.leb_spec lo lo),
        (Nat.ltb_spec lo (lo + S cnt)); try lia.
      cbn [andb].
      destruct (Nat.ltb_spec lo (List.length l)) as [Hlt | Hge].
      * now apply nth_setNth_eq.
      * rewrite nth_overflow by (rewrite length_setNth; exact Hge).
        now rewrite nth_overflow by exact Hge.
    + rewrite nth_setNth_neq by congruence.
      destruct (Nat.leb_spec (S lo) i), (Nat.leb_spec lo i),
        (Nat.ltb_spec i (S lo + cnt)), (Nat.ltb_spec i (lo + S cnt));
        try lia; reflexivity.
Qed.

Lemma getNum_eliminateRow (pivotRow row : list float) (k n j : nat) :
  getNum (eliminateRow pivotRow k n row) j
  = if ((k <=? j) && (j <=? n) && (j <? List.length row))%nat
    then getNum row j - getNum row k / getNum pivotRow k * getNum pivotRow j
    else getNum row j.
Proof.
  unfold eliminateRow, forRange, getNum.
  rewrite (pointwise_update nan
             (fun j v => v - nth k row nan / nth k pivotRow nan * nth j pivotRow nan)).
  destruct (Nat.leb_spec k j), (Nat.leb_spec j n), (Nat.ltb_spec j (k + (n + 1 - k)));
    try lia; reflexivity.
Qed.

Lemma length_eliminateRow (pivotRow row : list float) (k n : nat) :
  List.length (eliminateRow pivotRow k n row) = List.length row.
Proof.
  unfold eliminateRow, forRange.
  apply (fold_left_invariant (fun r => List.length r = List.length row));
    [reflexivity |].
  intros r j Hr. now rewrite length_setNth.
Qed.

Lemma nth_eliminateColumn (augmented : Matrix) (k n i : nat) :
  nth i (eliminateColumn augmented k n) []
  = if ((k <? i) && (i <? n) && (i <? List.length augmented))%nat
    then eliminateRow (nth k augmented []) k n (nth i augmented [])
    else nth i augmented [].
Proof.
  unfold eliminateColumn, forRange.
  destruct (fold_left_agree
              (fun acc => nth k acc [] = nth k augmented [])
              (fun aug i => setNth aug i (eliminateRow (nth k aug []) k n (nth i aug [])))
              (fun aug i =>
                 setNth aug i (eliminateRow (nth k augmented []) k n (nth i aug [])))
              (seq (k + 1) (n - (k + 1))) augmented eq_refl) as [Heq _].
  { intros acc x Hx Hacc. apply in_seq in Hx. rewrite Hacc. split; [reflexivity |].
    rewrite nth_setNth_neq by lia. exact Hacc. }
  rewrite Heq.
  rewrite (pointwise_update [] (fun i row => eliminateRow (nth k augmented []) k n row)).
  destruct (Nat.leb_spec (k + 1) i), (Nat.ltb_spec k i),
    (Nat.ltb_spec i (k + 1 + (n - (k + 1)))), (Nat.ltb_spec i n);
    try lia; reflexivity.
Qed.

Lemma length_eliminateColumn (augmented : Matrix) (k n : nat) :
  List.length (eliminateColumn augmented k n) = List.length augmented.
Proof.
  unfold eliminateColumn, forRange.
  apply (fold_left_invariant (fun acc => List.length acc = List.length augmented));
    [reflexivity |].
  intros acc i Hacc. now rewrite length_setNth.
Qed.

(** X10.  One elimination step on an [n] by [n + 1] augmented matrix: the
    rows [0 .. k] (the pivot row included) are left as they are, and so is
    everything left of column [k]; in a row [i > k] the entry of column [j],
    [k <= j <= n], becomes [a[i][j] - (a[i][k] / a[k][k]) * a[k][j]] with the
    factor computed once from the values before the step.  (The entry below
    the pivot is therefore [a[i][k] - (a[i][k] / a[k][k]) * a[k][k]]: it is
    not set to zero.)  The shape of the matrix is kept. *)
Theorem eliminateColumn_entries (augmented : Matrix) (k n : nat) :
  (k < n)%nat ->
  List.length augmented = n ->
  (forall i, (i < n)%nat -> List.length (nth i augmented []) = (n + 1)%nat) ->
  let reduced := eliminateColumn augmented k n in
  List.length reduced = n
  /\ (forall i, (i < n)%nat -> List.length (nth i reduced []) = (n + 1)%nat)
  /\ (forall i, (i <= k)%nat -> nth i reduced [] = nth i augmented [])
  /\ (forall i j, (j < k)%nat -> entry reduced i j = entry augmented i j)
  /\ forall i j, (k < i < n)%nat -> (k <= j <= n)%nat ->
       entry reduced i j
       = entry augmented i j
         - entry augmented i k / entry augmented k k * entry augmented k j.
Proof.
  intros Hk Hlen Hrows reduced.
  split; [unfold reduced; now rewrite length_eliminateColumn |].
  split.
  { intros i Hi. unfold reduced. rewrite nth_eliminateColumn.
    destruct (_ && _ && _); [rewrite length_eliminateRow |]; now apply Hrows. }
  split.
  { intros i Hi. unfold reduced. rewrite nth_eliminateColumn.
    destruct (Nat.ltb_spec k i); [lia | reflexivity]. }
  split.
  { intros i j Hj. unfold entry, reduced. rewrite nth_eliminateColumn.
    destruct (_ && _ && _); [| reflexivity].
    rewrite getNum_eliminateRow.
    destruct (Nat.leb_spec k j); [lia | reflexivity]. }
  intros i j Hi Hj. unfold entry, reduced. rewrite nth_eliminateColumn.
  destruct (Nat.ltb_spec k i), (Nat.ltb_spec i n),
    (Nat.ltb_spec i (List.length augmented)); try lia.
  cbn [andb]. rewrite getNum_eliminateRow, (Hrows i) by lia.
  destruct (Nat.leb_spec k j), (Nat.leb_spec j n), (Nat.ltb_spec j (n + 1));
    try lia; reflexivity.
Qed.

End EliminationStep.

Lemma eliminateColumn_entries_witness :
  entry (eliminateColumn [[2; 1; 4]; [1; 3; 7]] 0 2) 1 1
  = entry [[2; 1; 4]; [1; 3; 7]] 1 1
    - entry [[2; 1; 4]; [1; 3; 7]] 1 0 / entry [[2; 1; 4]; [1; 3; 7]] 0 0
      * entry [[2; 1; 4]; [1; 3; 7]] 0 1.
Proof.
  assert (Hrows : forall i, (i < 2)%nat ->
            List.length (nth i [[2; 1; 4]; [1; 3; 7]] []) = (2 + 1)%nat).
  { intros [| [| i]] Hi; [reflexivity | reflexivity | lia]. }
  destruct (eliminateColumn_entries [[2; 1; 4]; [1; 3; 7]] 0 2 ltac:(lia) eq_refl Hrows)
    as (_ & _ & _ & _ & Hentry).
  apply (Hentry 1%nat 1%nat); lia.
Defined.

Section BackSubstitution.

Lemma forRange_ext {S : Type} (lo hi : nat) (f g : nat -> S -> S) (init : S) :
  (forall i s, (lo <= i < hi)%nat -> f i s = g i s) ->
  forRange lo hi f init = forRange lo hi g init.
Proof.
  intros H. unfold forRange.
  assert (Hin : forall i, In i (seq lo (hi - lo)) -> (lo <= i < hi)%nat)
    by (intros i Hi; apply in_seq in Hi; lia).
  revert init Hin. generalize (seq lo (hi - lo)) as xs.
  induction xs as [| i xs IH]; intros init Hin; cbn [fold_left]; [reflexivity |].
  rewrite H by (apply Hin; now left). apply IH. intros j Hj. apply Hin. now right.
Qed.

Lemma length_regularize (augmented : Matrix) (regularization : float) :
  List.length (regularize augmented regularization) = List.length augmented.
Proof.
  unfold regularize, forRange.
  apply (fold_left_invariant (fun acc => List.length acc = List.length augmented));
    [reflexivity |].
  intros acc i Hacc. now rewrite length_setNth.
Qed.

Lemma length_augment (A : Matrix) (b : list float) :
  List.length (augment A b) = List.length A.
Proof.
  unfold augment. now rewrite length_map, length_seq.
Qed.

Lemma length_swapRows (augmented : Matrix) (k maxRow : nat) :
  List.length (swapRows augmented k maxRow) = List.length augmented.
Proof.
  unfold swapRows. destruct (Nat.eqb maxRow k); [reflexivity |].
  now rewrite !length_setNth.
Qed.

Lemma nth_swapRows_above (augmented : Matrix) (k maxRow i : nat) :
  (i < k)%nat -> (k <= maxRow)%nat ->
  nth i (swapRows augmented k maxRow) [] = nth i augmented [].
Proof.
  intros Hi Hmax. unfold swapRows. destruct (Nat.eqb maxRow k); [reflexivity |].
  now rewrite !nth_setNth_neq by lia.
Qed.

(** Once step [k] is done, row [k] is final: the later steps exchange and
    rewrite rows below it only.  So the diagonal of the reduced matrix holds
    the pivots that passed the test. *)
Lemma eliminate_diagonal (cnt k0 n : nat) (augmented reduced : Matrix) :
  (k0 + cnt = n)%nat ->
  List.length augmented = n ->
  eliminate (seq k0 cnt) n augmented = Ok reduced ->
  List.length reduced = n
  /\ (forall i, (i < k0)%nat -> nth i reduced [] = nth i augmented [])
  /\ forall i, (k0 <= i < n)%nat ->
       (Math_abs (entry reduced i i) <? PIVOT_TOLERANCE) = false.
Proof.
  revert k0 augmented. induction cnt as [| cnt IH]; intros k0 augmented Hn Hlen.
  - cbn [seq eliminate]. intros [= <-]. split; [exact Hlen |]. split; [auto | lia].
  - cbn [seq eliminate].
    destruct (findPivot_range augmented k0 n ltac:(lia)) as [Hr _].
    cbn zeta in Hr.
    set (swapped := swapRows augmented k0 (findPivot augmented k0 n)).
    destruct (Math_abs (entry swapped k0 k0) <? PIVOT_TOLERANCE) eqn:Hpivot;
      [discriminate |].
    intros Helim.
    destruct (IH (S k0) (eliminateColumn swapped k0 n) ltac:(lia)) as (Hl & Habove & Hdiag).
    { unfold swapped. now rewrite length_eliminateColumn, length_swapRows. }
    { exact Helim. }
    assert (Hrow : forall i, (i <= k0)%nat ->
               nth i (eliminateColumn swapped k0 n) [] = nth i swapped []).
    { intros i Hi. rewrite nth_eliminateColumn.
      destruct (Nat.ltb_spec k0 i); [lia | reflexivity]. }
    split; [exact Hl |]. split.
    + intros i Hi. rewrite Habove, Hrow by lia.
      unfold swapped. apply nth_swapRows_above; lia.
    + intros i Hi. destruct (Nat.eq_dec i k0) as [-> | Hne].
      * unfold entry. rewrite Habove, Hrow by lia. exact Hpivot.
      * apply Hdiag. lia.
Qed.

Lemma backSubstitute_loop (augmented : Matrix) (n m : nat) (x : list float) :
  (m <= n)%nat ->
  List.length x = n ->
  let step := fun (x : list float) (i : nat) =>
                setNth x i
                  (forRange (i + 1) n
                     (fun j acc => acc - entry augmented i j * getNum x j)
                     (entry augmented i n)
                   / entry augmented i i) in
  let x' := fold_left step (rev (seq 0 m)) x in
  (forall j, (m <= j)%nat -> getNum x' j = getNum x j)
  /\ forall i, (i < m)%nat ->
       getNum x' i
       = forRange (i + 1) n
           (fun j acc => acc - entry augmented i j * getNum x' j)
           (entry augmented i n)
         / entry augmented i i.
Proof.
  intros Hm Hx step. revert x Hx. induction m as [| m IH]; intros x Hx x'.
  - split; [reflexivity | lia].
  - unfold x'. replace (S m) with (m + 1)%nat by lia. rewrite rev_seq_S.
    cbn [fold_left].
    destruct (IH ltac:(lia) (step x m)) as [Hkeep Heqn].
    { unfold step. now rewrite length_setNth. }
    set (y := fold_left step (rev (seq 0 m)) (step x m)) in *.
    assert (Hlater : forall j, (m + 1 <= j)%nat -> getNum y j = getNum x j).
    { intros j Hj. rewrite Hkeep by lia. unfold step, getNum.
      now rewrite nth_setNth_neq by lia. }
    split; [exact Hlater |].
    intros i Hi. destruct (Nat.eq_dec i m) as [-> | Hne]; [| apply Heqn; lia].
    rewrite Hkeep by lia. unfold step at 1, getNum at 1.
    rewrite nth_setNth_eq by lia. f_equal.
    apply forRange_ext. intros j acc Hj. now rewrite Hlater by lia.
Qed.

(** X11.  A vector returned by [solveLinearSystem] for an [n] by [n] matrix
    has [n] entries and is the back substitution of the reduced matrix:
    [x[i] = (r[i][n] - r[i][i+1] * x[i+1] - ... - r[i][n-1] * x[n-1]) / r[i][i]]
    for every row (subtracted in that order), where [r] is the matrix the
    elimination ends with.  Each divisor [r[i][i]] is the pivot that passed
    the test of step [i]: its absolute value is not below 1e-14 (a [NaN]
    pivot passes the test too). *)
Theorem solveLinearSystem_back_substitution (A : Matrix) (b x : list float)
  (regularization : float) :
  solveLinearSystem A b regularization = Ok x ->
  let n := List.length A in
  exists reduced,
    eliminate (seq 0 n) n (regularize (augment A b) regularization) = Ok reduced
    /\ List.length x = n
    /\ forall i, (i < n)%nat ->
         (Math_abs (entry reduced i i) <? 1e-14) = false
         /\ getNum x i
            = forRange (i + 1) n
                (fun j acc => acc - entry reduced i j * getNum x j)
                (entry reduced i n)
              / entry reduced i i.
Proof.
  intros Hsolve n. revert Hsolve. unfold solveLinearSystem. fold n.
  destruct (eliminate _ _ _) as [reduced | e] eqn:Helim; cbn [bind]; [| discriminate].
  intros [= <-]. exists reduced. split; [reflexivity |].
  split; [apply length_backSubstitute |].
  intros i Hi. split.
  - assert (Hlen : List.length (regularize (augment A b) regularization) = n)
      by now rewrite length_regularize, length_augment.
    destruct (eliminate_diagonal n 0 n _ reduced eq_refl Hlen Helim)
      as (_ & _ & Hdiag).
    apply Hdiag. lia.
  - unfold backSubstitute.
    destruct (backSubstitute_loop reduced n n (repeat 0 n) (Nat.le_refl n)
                (repeat_length 0 n)) as [_ Heqn].
    now apply Heqn.
Qed.

End BackSubstitution.

Lemma solveLinearSystem_back_substitution_witness :
  solveLinearSystem [[2; 1]; [1; 3]] [3; 5] 0 = Ok [0.8; 1.4]
  /\ List.length [0.8; 1.4] = 2%nat.
Proof.
  split; [reflexivity |].
  destruct (solveLinearSystem_back_substitution [[2; 1]; [1; 3]] [3; 5] [0.8; 1.4] 0
              eq_refl) as (reduced & _ & Hlen & _).
  exact Hlen.
Defined.

(** ** The point-in-contour test *)

Section InsideFacts.

Lemma isInsideAirfoil_no_crossing (point : Point2D) (airfoilPoints : list Point2D) :
  (forall pi pj, In pi airfoilPoints -> In pj airfoilPoints ->
     crosses pi pj point = false) ->
  isInsideAirfoil point airfoilPoints = false.
Proof.
  intros H. unfold isInsideAirfoil, forRange. rewrite Nat.sub_0_r.
  set (n := List.length airfoilPoints).
  assert (Hin : forall i, In i (seq 0 n) -> (i < n)%nat)
    by (intros i Hi; apply in_seq in Hi; lia).
  revert Hin. generalize (seq 0 n) as xs.
  induction xs as [| i xs IH]; intros Hin; cbn [fold_left]; [reflexivity |].
  assert (Hi : (i < n)%nat) by (apply Hin; now left).
  rewrite H.
  - apply IH. intros j Hj. apply Hin. now right.
  - apply nth_In. exact Hi.
  - apply nth_In. destruct i; fold n; lia.
Qed.

(** X12.  [isInsideAirfoil] answers [false] whenever no edge of the contour
    straddles the horizontal line through the point: when the test
    [vertex.y > point.y] has the same answer at every vertex (a point at or
    above the highest vertex, or below the lowest one, or any point for a
    contour of fewer than two distinct heights), and in particular for an
    empty contour.  A point with a [NaN] coordinate is never inside. *)
Theorem isInsideAirfoil_outside (point : Point2D) (airfoilPoints : list Point2D) :
  (forall above : bool,
     (forall q, In q airfoilPoints -> (py q >? py point) = above) ->
     isInsideAirfoil point airfoilPoints = false)
  /\ isInsideAirfoil point [] = false
  /\ (is_nan (px point) = true -> isInsideAirfoil point airfoilPoints = false)
  /\ (is_nan (py point) = true -> isInsideAirfoil point airfoilPoints = false).
Proof.
  assert (Hside : forall above : bool,
            (forall q, In q airfoilPoints -> (py q >? py point) = above) ->
            isInsideAirfoil point airfoilPoints = false).
  { intros above H. apply isInsideAirfoil_no_crossing. intros pi pj Hi Hj.
    unfold crosses. rewrite (H pi Hi), (H pj Hj). now destruct above. }
  split; [exact Hside |]. split; [reflexivity |]. split.
  - intros Hnan. apply isInsideAirfoil_no_crossing. intros pi pj _ _.
    unfold crosses. rewrite (is_nan_eq _ Hnan), ltb_nan_l. apply andb_false_r.
  - intros Hnan. apply (Hside false). intros q _.
    unfold gtb. rewrite (is_nan_eq _ Hnan). apply ltb_nan_l.
Qed.

End InsideFacts.

(** ** The points of a streamline *)

Section StreamlinePoints.
Context {M : MathLib}.
Variables (geometry : AirfoilGeometry) (solution : PanelSolution)
          (flow : FlowConditions) (params : TraceParams).

Lemma stepOutcome_advances (p q : Point2D) :
  stepOutcome geometry solution flow params p = Advances q ->
  q = rk2Next geometry solution flow params p
  /\ tooSlow geometry solution flow params p = false
  /\ outOfBounds (tp_bounds params) q = false
  /\ isInsideAirfoil q (points geometry) = false.
Proof.
  unfold stepOutcome, checkPoint.
  destruct (tooSlow _ _ _ _ p); [discriminate |].
  destruct (outOfBounds _ (rk2Midpoint _ _ _ _ p)); [discriminate |].
  destruct (isInsideAirfoil (rk2Midpoint _ _ _ _ p) _); [discriminate |].
  destruct (tooSlow _ _ _ _ (rk2Midpoint _ _ _ _ p)); [discriminate |].
  destruct (outOfBounds _ (rk2Next _ _ _ _ p)) eqn:Hout; [discriminate |].
  destruct (isInsideAirfoil (rk2Next _ _ _ _ p) _) eqn:Hin; [discriminate |].
  intros [= <-]. auto.
Qed.

Lemma traceLoop_points (k : nat) (p : Point2D) (pre : list Point2D) :
  exists added,
    sl_points (traceLoop geometry solution flow params k p (pre ++ [p]))
    = pre ++ p :: added
    /\ (List.length added <= k)%nat
    /\ forall i a b,
         nth_error (p :: added) i = Some a ->
         nth_error (p :: added) (i + 1) = Some b ->
         stepOutcome geometry solution flow params a = Advances b.
Proof.
  revert p pre. induction k as [| k IH]; intros p pre.
  - exists []. split; [reflexivity |]. split; [cbn; lia |].
    intros [| i] a b _ Hb; cbn in Hb; [discriminate | now destruct i].
  - rewrite traceLoop_step.
    destruct (stepOutcome geometry solution flow params p) as [why | next] eqn:Hstep.
    + exists []. split; [reflexivity |]. split; [cbn; lia |].
      intros [| i] a b _ Hb; cbn in Hb; [discriminate | now destruct i].
    + destruct (IH next (pre ++ [p])) as (added & Hpts & Hlen & Hchain).
      exists (next :: added). split; [rewrite Hpts, <- app_assoc; reflexivity |].
      split; [cbn; lia |].
      intros [| i] a b Ha Hb.
      * cbn in Ha, Hb. congruence.
      * apply (Hchain i); assumption.
Qed.

Lemma chain_invariant (P : Point2D -> Prop) (first : Point2D) (rest : list Point2D) :
  (forall i a b,
     nth_error (first :: rest) i = Some a ->
     nth_error (first :: rest) (i + 1) = Some b -> P a -> P b) ->
  P first ->
  forall p, In p (first :: rest) -> P p.
Proof.
  intros Hstep Hfirst p Hp. apply In_nth_error in Hp as [i Hi].
  revert p Hi. induction i as [| i IH]; intros p Hi.
  - cbn in Hi. congruence.
  - destruct (nth_error (first :: rest) i) as [a |] eqn:Ha.
    + apply (Hstep i a p Ha); [now rewrite Nat.add_1_r | now apply IH].
    + apply nth_error_None in Ha.
      assert (Hsome : nth_error (first :: rest) (S i) <> None) by congruence.
      apply nth_error_Some in Hsome. lia.
Qed.

Lemma traceStreamline_chain (start : Point2D) :
  exists added,
    sl_points (traceStreamline geometry solution flow params start) = start :: added
    /\ (List.length added <= maxSteps params)%nat
    /\ (isInsideAirfoil start (points geometry) = true ->
        start :: added = [start]
        /\ complete (traceStreamline geometry solution flow params start) = false)
    /\ forall i a b,
         nth_error (start :: added) i = Some a ->
         nth_error (start :: added) (i + 1) = Some b ->
         stepOutcome geometry solution flow params a = Advances b.
Proof.
  unfold traceStreamline.
  destruct (isInsideAirfoil start (points geometry)) eqn:Hseed.
  - exists []. cbn [sl_points complete]. split; [reflexivity |].
    split; [cbn; lia |]. split; [auto |].
    intros [| i] a b _ Hb; cbn in Hb; [discriminate | now destruct i].
  - destruct (traceLoop_points (maxSteps params) start [])
      as (added & Hpts & Hlen & Hchain).
    exists added. cbn [app] in Hpts. split; [exact Hpts |].
    split; [exact Hlen |]. split; [discriminate | exact Hchain].
Qed.

Lemma traceStreamline_nan_x (start : Point2D) :
  is_nan (px start) = true ->
  forall p, In p (sl_points (traceStreamline geometry solution flow params start)) ->
            is_nan (px p) = true.
Proof.
  intros Hnan p. destruct (traceStreamline_chain start) as (added & -> & _ & _ & Hchain).
  apply (chain_invariant (fun p => is_nan (px p) = true)); [| exact Hnan].
  intros i a b Ha Hb Hnana. pose proof (Hchain i a b Ha Hb) as Hadv.
  apply stepOutcome_advances in Hadv as [-> _].
  cbn [rk2Next px]. now rewrite (is_nan_eq _ Hnana), nan_add_l.
Qed.

Lemma traceStreamline_nan_y (start : Point2D) :
  is_nan (py start) = true ->
  forall p, In p (sl_points (traceStreamline geometry solution flow params start)) ->
            is_nan (py p) = true.
Proof.
  intros Hnan p. destruct (traceStreamline_chain start) as (added & -> & _ & _ & Hchain).
  apply (chain_invariant (fun p => is_nan (py p) = true)); [| exact Hnan].
  intros i a b Ha Hb Hnana. pose proof (Hchain i a b Ha Hb) as Hadv.
  apply stepOutcome_advances in Hadv as [-> _].
  cbn [rk2Next py]. now rewrite (is_nan_eq _ Hnana), nan_add_l.
Qed.

(** X13.  The points of a traced streamline: the first is the seed, there
    are at most [maxSteps + 1] of them, and a seed inside the contour gives
    the seed alone.  Each further point is the RK2 step of the point before
    it ([rk2Next]: a half step along the unit velocity, then a full step
    along the unit velocity found at the midpoint), taken from a point whose
    speed is not below [minVelocity]; it lies inside the bounds and outside
    the contour.  A point that fails a test is never stored.  A [NaN]
    coordinate of the seed stays: every point of the streamline then has
    that coordinate [NaN]. *)
Theorem traceStreamline_points (start : Point2D) :
  let s := traceStreamline geometry solution flow params start in
  nth_error (sl_points s) 0 = Some start
  /\ (1 <= List.length (sl_points s) <= maxSteps params + 1)%nat
  /\ (isInsideAirfoil start (points geometry) = true ->
      sl_points s = [start] /\ complete s = false)
  /\ (forall i a b,
       nth_error (sl_points s) i = Some a ->
       nth_error (sl_points s) (i + 1) = Some b ->
       b = rk2Next geometry solution flow params a
       /\ tooSlow geometry solution flow params a = false
       /\ outOfBounds (tp_bounds params) b = false
       /\ isInsideAirfoil b (points geometry) = false)
  /\ (is_nan (px start) = true ->
      forall p, In p (sl_points s) -> is_nan (px p) = true)
  /\ (is_nan (py start) = true ->
      forall p, In p (sl_points s) -> is_nan (py p) = true).
Proof.
  cbn zeta.
  destruct (traceStreamline_chain start) as (added & Hpts & Hlen & Hseed & Hchain).
  rewrite Hpts.
  split; [reflexivity |]. split; [cbn [List.length]; lia |].
  split; [exact Hseed |]. split.
  - intros i a b Ha Hb. apply stepOutcome_advances. now apply (Hchain i).
  - rewrite <- Hpts. split; [apply traceStreamline_nan_x | apply traceStreamline_nan_y].
Qed.

End StreamlinePoints.

Section FieldSeeds.
Context {M : MathLib}.

Lemma nth_error_snoc_cases {A : Type} (l : list A) (x y : A) (i : nat) :
  nth_error (l ++ [x]) i = Some y ->
  nth_error l i = Some y \/ (i = List.length l /\ y = x).
Proof.
  intros H. destruct (Nat.lt_ge_cases i (List.length l)) as [Hlt | Hge].
  - left. now rewrite nth_error_app1 in H.
  - right. rewrite nth_error_app2 in H by exact Hge.
    destruct (i - List.length l)%nat as [| d] eqn:Hd.
    + cbn in H. split; [lia | congruence].
    + cbn in H. now destruct d.
Qed.

(** X14.  [generateStreamlineField] returns the bounds it traced in (the
    contour's bounding box widened by [seedDistance] and [yRange]) and at
    most [nStreamlines] streamlines.  Each of them is the trace of seed
    number [i] for some [i < nStreamlines], the seed
    [(xMin + 0.1 * seedDistance, yMin + i / (nStreamlines - 1) * (yMax - yMin))]
    lying outside the contour, traced with [minVelocity] = 1 % of the
    freestream speed, and it has more than 5 points.  For [nStreamlines = 1]
    the only seed has the ordinate [0 / 0 = NaN], and so has every point of
    the streamline traced from it. *)
Theorem generateStreamlineField_seeds (geometry : AirfoilGeometry)
  (solution : PanelSolution) (flow : FlowConditions) (params : FieldParams) :
  let field := generateStreamlineField geometry solution flow params in
  let b := fieldBounds geometry params in
  let seed := fun i : nat =>
    mkPoint (xMin b + seedDistance params * 0.1)
            (yMin b + numNat i / (numNat (nStreamlines params) - 1)
                      * (yMax b - yMin b)) in
  bounds field = b
  /\ (List.length (streamlines field) <= nStreamlines params)%nat
  /\ (forall s, In s (streamlines field) ->
        exists i, (i < nStreamlines params)%nat
          /\ isInsideAirfoil (seed i) (points geometry) = false
          /\ s = traceStreamline geometry solution flow
                   (mkTraceParams (fp_stepSize params) (fp_maxSteps params) b
                                  (velocity flow * 0.01))
                   (seed i)
          /\ nth_error (sl_points s) 0 = Some (seed i)
          /\ (5 < List.length (sl_points s))%nat)
  /\ (nStreamlines params = 1%nat ->
      is_nan (py (seed 0%nat)) = true
      /\ forall s p, In s (streamlines field) -> In p (sl_points s) ->
           is_nan (py p) = true).
Proof.
  cbn zeta. split; [reflexivity |].
  set (b := fieldBounds geometry params).
  set (seed := fun i : nat =>
    mkPoint (xMin b + seedDistance params * 0.1)
            (yMin b + numNat i / (numNat (nStreamlines params) - 1)
                      * (yMax b - yMin b))).
  set (tp := mkTraceParams (fp_stepSize params) (fp_maxSteps params) b
                           (velocity flow * 0.01)).
  assert (Hloop : forall cnt,
    let acc := fold_left
      (fun streamlines i =>
         if isInsideAirfoil (seed i) (points geometry) then streamlines
         else if (5 <? List.length (sl_points
                         (traceStreamline geometry solution flow tp (seed i))))%nat
              then streamlines ++ [traceStreamline geometry solution flow tp (seed i)]
              else streamlines)
      (seq 0 cnt) [] in
    (List.length acc <= cnt)%nat
    /\ forall s, In s acc ->
         exists i, (i < cnt)%nat
           /\ isInsideAirfoil (seed i) (points geometry) = false
           /\ s = traceStreamline geometry solution flow tp (seed i)
           /\ (5 < List.length (sl_points s))%nat).
  { induction cnt as [| cnt IH]; cbn zeta.
    - cbn. split; [lia | intros s []].
    - rewrite seq_S, fold_left_app. cbn [fold_left Nat.add].
      cbn zeta in IH. destruct IH as [Hlen Hall].
      set (acc := fold_left _ (seq 0 cnt) []) in *.
      assert (Hold : forall s, In s acc ->
                exists i, (i < S cnt)%nat
                  /\ isInsideAirfoil (seed i) (points geometry) = false
                  /\ s = traceStreamline geometry solution flow tp (seed i)
                  /\ (5 < List.length (sl_points s))%nat).
      { intros s Hs. destruct (Hall s Hs) as (i & Hi & Hrest). exists i.
        split; [lia | exact Hrest]. }
      destruct (isInsideAirfoil (seed cnt) (points geometry)) eqn:Hin;
        [split; [lia | exact Hold] |].
      destruct (Nat.ltb_spec 5 (List.length (sl_points
                  (traceStreamline geometry solution flow tp (seed cnt)))))
        as [Hlong | Hshort]; [| split; [lia | exact Hold]].
      split; [rewrite length_app; cbn; lia |].
      intros s Hs. apply in_app_or in Hs as [Hs | [<- | []]]; [now apply Hold |].
      exists cnt. split; [lia |]. auto. }
  specialize (Hloop (nStreamlines params)). cbn zeta in Hloop.
  unfold generateStreamlineField, forRange. cbn [streamlines].
  rewrite Nat.sub_0_r. fold b. unfold fieldTraceParams. fold b tp.
  destruct Hloop as [Hlen Hall].
  split; [exact Hlen |]. split.
  - intros s Hs. destruct (Hall s Hs) as (i & Hi & Hout & -> & Hlong).
    exists i. repeat (split; [assumption || reflexivity |]).
    split; [| exact Hlong].
    unfold traceStreamline. rewrite Hout.
    destruct (traceLoop_points geometry solution flow tp (maxSteps tp) (seed i) [])
      as (added & Hpts & _).
    cbn [app] in Hpts. now rewrite Hpts.
  - intros Hone.
    assert (Hseed : is_nan (py (seed 0%nat)) = true).
    { unfold seed. cbn [py]. rewrite Hone.
      replace (numNat 0 / (numNat 1 - 1)) with nan by reflexivity.
      now rewrite nan_mul_l, nan_add_r. }
    split; [exact Hseed |].
    intros s p Hs Hp. destruct (Hall s Hs) as (i & Hi & _ & -> & _).
    assert (i = 0%nat) by lia. subst i.
    revert Hp. now apply traceStreamline_nan_y.
Qed.

End FieldSeeds.

(** ** Grids over the flow field *)

Lemma fold_left_append {A X : Type} (f : list A -> X -> list A) (g : X -> list A)
  (xs : list X) (init : list A) :
  (forall acc x, f acc x = acc ++ g x) ->
  fold_left f xs init = init ++ flat_map g xs.
Proof.
  intros H. revert init. induction xs as [| x xs IH]; intros init; cbn.
  - now rewrite app_nil_r.
  - now rewrite IH, H, <- app_assoc.
Qed.

Lemma length_flat_map_le {A B : Type} (f : A -> list B) (l : list A) (c : nat) :
  (forall x, (List.length (f x) <= c)%nat) ->
  (List.length (flat_map f l) <= c * List.length l)%nat.
Proof.
  intros H. induction l as [| x l IH]; cbn; [lia |].
  rewrite length_app. specialize (H x). lia.
Qed.

Lemma flat_map_nil {A B : Type} (f : A -> list B) (l : list A) :
  (forall x, f x = []) -> flat_map f l = [].
Proof.
  intros H. induction l as [| x l IH]; cbn; [reflexivity |]. now rewrite H, IH.
Qed.

(** Below a bound that is not positive means below zero. *)
Lemma ltb_not_positive (x t : float) :
  (x <? t) = true -> (0 <? t) = false -> (x <? 0) = true.
Proof.
  rewrite !ltb_spec. change (Prim2SF 0) with (S754_zero false). unfold SFltb.
  destruct (Prim2SF x) as [[] | [] | | [] mx ex], (Prim2SF t) as [[] | [] | | [] mt et];
    cbn; try discriminate; try reflexivity.
Qed.

Lemma zero_mul_div_zero (w : float) : 0 * (w / 0) = nan.
Proof.
  apply Prim2SF_inj. rewrite mul_spec, div_spec.
  change (Prim2SF 0) with (S754_zero false). change (Prim2SF nan) with S754_nan.
  destruct (Prim2SF w) as [[] | [] | | [] m e]; reflexivity.
Qed.

Section GridFacts.
Context {M : MathLib}.

(** X15.  [findStagnationPoints] reports exactly the nodes of the 21 x 21
    grid over [searchBounds] that are not inside the contour and where the
    speed is below [tolerance], hence at most 441 points.  With a tolerance
    that is not positive (zero, negative or [NaN]) it reports nothing, not
    even a node where the velocity is exactly zero. *)
Theorem findStagnationPoints_grid (geometry : AirfoilGeometry)
  (solution : PanelSolution) (flow : FlowConditions) (searchBounds : Bounds)
  (tolerance : float) :
  let found := findStagnationPoints geometry solution flow searchBounds tolerance in
  let dx := (xMax searchBounds - xMin searchBounds) / 20 in
  let dy := (yMax searchBounds - yMin searchBounds) / 20 in
  let node := fun i j : nat =>
    mkPoint (xMin searchBounds + numNat i * dx) (yMin searchBounds + numNat j * dy) in
  (forall p, In p found
     <-> exists i j, (i <= 20)%nat /\ (j <= 20)%nat /\ p = node i j
           /\ isInsideAirfoil p (points geometry) = false
           /\ (speed (fieldVelocity p geometry solution flow) <? tolerance) = true)
  /\ (List.length found <= 441)%nat
  /\ ((0 <? tolerance) = false -> found = []).
Proof.
  cbn zeta.
  set (dx := (xMax searchBounds - xMin searchBounds) / 20).
  set (dy := (yMax searchBounds - yMin searchBounds) / 20).
  set (node := fun i j : nat =>
    mkPoint (xMin searchBounds + numNat i * dx) (yMin searchBounds + numNat j * dy)).
  set (cell := fun i j : nat =>
    if isInsideAirfoil (node i j) (points geometry) then []
    else if speed (fieldVelocity (node i j) geometry solution flow) <? tolerance
         then [node i j] else []).
  assert (Hform : findStagnationPoints geometry solution flow searchBounds tolerance
                  = flat_map (fun i => flat_map (cell i) (seq 0 21)) (seq 0 21)).
  { unfold findStagnationPoints, forRange. cbn [Nat.add Nat.sub].
    change (numNat 20) with 20. fold dx dy.
    rewrite (fold_left_append _ (fun i => flat_map (cell i) (seq 0 21)));
      [reflexivity |].
    intros acc i.
    rewrite (fold_left_append _ (cell i)); [reflexivity |].
    intros acc' j. unfold cell, speed. fold (node i j).
    destruct (isInsideAirfoil (node i j) (points geometry));
      [now rewrite app_nil_r |].
    destruct (_ <? tolerance); [reflexivity | now rewrite app_nil_r]. }
  rewrite Hform.
  assert (Hcell : forall i j p, In p (cell i j)
            <-> p = node i j
                /\ isInsideAirfoil p (points geometry) = false
                /\ (speed (fieldVelocity p geometry solution flow) <? tolerance) = true).
  { intros i j p. unfold cell.
    destruct (isInsideAirfoil (node i j) (points geometry)) eqn:Hin.
    - split; [intros [] | intros (-> & Hout & _); congruence].
    - destruct (speed (fieldVelocity (node i j) geometry solution flow) <? tolerance)
        eqn:Hslow.
      + split; [intros [<- | []]; auto | intros (-> & _); now left].
      + split; [intros [] | intros (-> & _ & Hs); congruence]. }
  split; [| split].
  - intros p. rewrite in_flat_map. split.
    + intros (i & Hi & Hp). apply in_flat_map in Hp as (j & Hj & Hp).
      apply in_seq in Hi, Hj. apply Hcell in Hp.
      exists i, j. split; [lia |]. split; [lia | exact Hp].
    + intros (i & j & Hi & Hj & Hp). exists i. split; [apply in_seq; lia |].
      apply in_flat_map. exists j. split; [apply in_seq; lia |]. now apply Hcell.
  - change 441%nat with (21 * List.length (seq 0 21))%nat.
    apply length_flat_map_le. intros i.
    change 21%nat with (1 * List.length (seq 0 21))%nat at 2.
    apply length_flat_map_le. intros j. unfold cell.
    destruct (isInsideAirfoil _ _); [cbn; lia |].
    destruct (_ <? tolerance); cbn; lia.
  - intros Htol.
    assert (Hnone : forall i j, cell i j = []).
    { intros i j. unfold cell. destruct (isInsideAirfoil _ _); [reflexivity |].
      destruct (speed _ <? tolerance) eqn:Hslow; [| reflexivity].
      pose proof (ltb_not_positive _ _ Hslow Htol) as Hneg.
      unfold speed in Hneg. now rewrite sqrt_not_negative in Hneg. }
    apply flat_map_nil. intros i. apply flat_map_nil. apply Hnone.
Qed.

(** X16.  [calculateVelocityField] returns [resolution] abscissae,
    [resolution] ordinates and a [resolution] by [resolution] table whose
    entry [[j][i]] belongs to the point [(x[i], y[j])]: [0] when that point
    is inside the contour, the speed there otherwise; no entry is negative.
    The coordinates are [xMin + i * dx] and [yMin + i * dy] with the spacing
    [(max - min) / (resolution - 1)]; for [resolution = 1] the spacing
    divides by zero and the single abscissa and ordinate are [NaN], for any
    bounds. *)
Theorem calculateVelocityField_table (geometry : AirfoilGeometry)
  (solution : PanelSolution) (flow : FlowConditions) (bounds : Bounds)
  (resolution : nat) :
  let field := calculateVelocityField geometry solution flow bounds resolution in
  let dx := (xMax bounds - xMin bounds) / (numNat resolution - 1) in
  let dy := (yMax bounds - yMin bounds) / (numNat resolution - 1) in
  List.length (vf_x field) = resolution
  /\ List.length (vf_y field) = resolution
  /\ List.length (velocityMagnitude field) = resolution
  /\ (forall i, (i < resolution)%nat ->
        getNum (vf_x field) i = xMin bounds + numNat i * dx
        /\ getNum (vf_y field) i = yMin bounds + numNat i * dy
        /\ List.length (nth i (velocityMagnitude field) []) = resolution)
  /\ (forall i j, (i < resolution)%nat -> (j < resolution)%nat ->
        let point := mkPoint (getNum (vf_x field) i) (getNum (vf_y field) j) in
        entry (velocityMagnitude field) j i
        = (if isInsideAirfoil point (points geometry) then 0
           else speed (fieldVelocity point geometry solution flow))
        /\ (entry (velocityMagnitude field) j i <? 0) = false)
  /\ (resolution = 1%nat -> vf_x field = [nan] /\ vf_y field = [nan]).
Proof.
  cbn zeta. unfold calculateVelocityField. cbn [vf_x vf_y velocityMagnitude].
  set (dx := (xMax bounds - xMin bounds) / (numNat resolution - 1)).
  set (dy := (yMax bounds - yMin bounds) / (numNat resolution - 1)).
  set (x := map (fun i => xMin bounds + numNat i * dx) (seq 0 resolution)).
  set (y := map (fun i => yMin bounds + numNat i * dy) (seq 0 resolution)).
  split; [unfold x; now rewrite length_map, length_seq |].
  split; [unfold y; now rewrite length_map, length_seq |].
  split; [now rewrite length_map, length_seq |].
  split.
  { intros i Hi. unfold x, y. rewrite !getNum_map_seq by exact Hi.
    split; [reflexivity |]. split; [reflexivity |].
    rewrite nth_map_seq by exact Hi. now rewrite length_map, length_seq. }
  split.
  { intros i j Hi Hj. rewrite entry_map_seq, getNum_map_seq by assumption.
    split; [reflexivity |].
    destruct (isInsideAirfoil _ _); [reflexivity | apply sqrt_not_negative]. }
  intros ->. unfold x, y, dx, dy. cbn [seq map].
  change (numNat 1 - 1) with 0. change (numNat 0) with 0.
  now rewrite !zero_mul_div_zero, !nan_add_r.
Qed.

End GridFacts.

(** ** The store *)

Section StoreInvariant.

Lemma clamp_range (lo hi x : float) :
  minStep infinity hi = hi ->
  maxStep neg_infinity lo = lo ->
  is_nan hi = false ->
  is_nan lo = false ->
  isPosZero hi = false ->
  isNegZero lo = false ->
  (lo <=? hi) = true ->
  (lo <=? lo) = true ->
  (hi <=? hi) = true ->
  withinOrNan lo hi (clamp lo hi x) = true.
Proof.
  intros Hmin Hmax Hhi Hlo Hpz Hnz Hle Hll Hhh.
  unfold clamp, Math_min. cbn [existsb fold_left]. rewrite Hhi, Hmin. cbn [orb].
  destruct (is_nan x) eqn:Hx; cbn [orb].
  - unfold Math_max. cbn [existsb]. rewrite Hlo.
    replace (is_nan nan) with true by reflexivity. reflexivity.
  - unfold minStep. rewrite Hpz, andb_false_r.
    unfold Math_max. cbn [existsb fold_left]. rewrite Hlo, Hmax. cbn [orb].
    unfold withinOrNan, within, maxStep. rewrite Hnz, !andb_false_r. unfold gtb.
    destruct (x <? hi) eqn:Hxhi.
    + rewrite Hx. cbn [orb].
      destruct (lo <? x) eqn:Hlox.
      * rewrite Hx. cbn [orb]. now rewrite (ltb_leb _ _ Hlox), (ltb_leb _ _ Hxhi).
      * rewrite Hlo. cbn [orb]. now rewrite Hll, Hle.
    + rewrite Hhi. cbn [orb].
      destruct (lo <? hi); [rewrite Hhi | rewrite Hlo]; cbn [orb].
      * now rewrite Hle, Hhh.
      * now rewrite Hll, Hle.
Qed.

Lemma clamp_nan (lo hi : float) : clamp lo hi nan = nan.
Proof.
  unfold clamp, Math_min. cbn [existsb].
  replace (is_nan nan) with true by reflexivity. rewrite orb_true_r.
  unfold Math_max. cbn [existsb].
  replace (is_nan nan) with true by reflexivity. now rewrite orb_true_r.
Qed.

Lemma dispatch_invariant (st : DemoState) (a : Action) :
  isNacaDigits (nacaDigits st) = true /\ fieldsInRange st = true ->
  isNacaDigits (nacaDigits (dispatch st a)) = true
  /\ fieldsInRange (dispatch st a) = true.
Proof.
  intros [Hdigits Hrange]. unfold fieldsInRange in *.
  rewrite !andb_true_iff in Hrange.
  destruct Hrange as [[[[[[[Hc Hv] Hd] Ha] Hn] Hp] Hs] Har].
  destruct a; cbn [dispatch];
    try match goal with
        | |- context [setNacaDigits ?d st] =>
            unfold setNacaDigits; destruct (isNacaDigits d) eqn:Hnew
        end;
    cbn; rewrite ?Hc, ?Hv, ?Hd, ?Ha, ?Hn, ?Hp, ?Hs, ?Har; cbn [andb];
    split; try assumption; try reflexivity;
    rewrite ?andb_true_r; try (apply clamp_range; reflexivity).
Qed.

(** X17.  Whatever actions the store has received since it was created, it
    holds a four-digit designation, and each numeric field is inside its
    range or is [NaN]: chord and density in [0.1, 10], velocity in
    [1, 1000], the angle of attack (degrees) in [-30, 30], the panel count
    in [60, 240], the path difference in [0, 20], the span in [1, 100] and
    the area in [1, 1000].  [NaN] is not clamped away: setting a field to
    [NaN] stores [NaN].  A designation that is not four digits is ignored,
    so the geometry of [PanelTab] can always be built (the [catch] never
    sees the 'NACA digits must be 4 digits' error). *)
Theorem runStore_invariant (actions : list Action) :
  let st := runStore actions in
  isNacaDigits (nacaDigits st) = true
  /\ fieldsInRange st = true
  /\ (forall digits, isNacaDigits digits = false ->
        runStore (actions ++ [SetNacaDigits digits]) = st)
  /\ st_chord (runStore (actions ++ [SetChord nan])) = nan
  /\ st_nPanels (runStore (actions ++ [SetNPanels nan])) = nan
  /\ forall (M : MathLib) chord nPanels,
       exists g, panelTabGeometry (nacaDigits st) chord nPanels = Some g.
Proof.
  cbn zeta.
  assert (Hinv : isNacaDigits (nacaDigits (runStore actions)) = true
                 /\ fieldsInRange (runStore actions) = true).
  { unfold runStore.
    apply (fold_left_invariant
             (fun st => isNacaDigits (nacaDigits st) = true /\ fieldsInRange st = true)).
    - split; reflexivity.
    - intros st a. apply dispatch_invariant. }
  destruct Hinv as [Hdigits Hrange].
  split; [exact Hdigits |]. split; [exact Hrange |]. split; [| split; [| split]].
  - intros digits Hbad. unfold runStore. rewrite fold_left_app. cbn [fold_left dispatch].
    unfold setNacaDigits. now rewrite Hbad.
  - unfold runStore. rewrite fold_left_app. cbn [fold_left dispatch setChord st_chord].
    apply clamp_nan.
  - unfold runStore. rewrite fold_left_app. cbn [fold_left dispatch setNPanels st_nPanels].
    replace (Math_round nan) with nan by reflexivity. apply clamp_nan.
  - intros M chord nPanels. unfold panelTabGeometry, createAirfoilGeometry.
    cbn [digits nPoints naca_chord]. unfold isNacaDigits in Hdigits.
    destruct (parseNacaDigits (nacaDigits (runStore actions)))
      as [[[d0 d1] d23] |] eqn:Hparse; [| discriminate].
    rewrite (naca4_ok _ _ _ _ _ _ Hparse). cbn [bind]. eauto.
Qed.

End StoreInvariant.

(** ** Validation of a solution that is not a number *)

Section ValidationNan.
Context {M : MathLib} {F : NumberFormat}.

Lemma gtb_nan_l (x : float) : (nan >? x) = false.
Proof. apply ltb_nan_r. Qed.

Lemma abs_nan : Math_abs nan = nan.
Proof. reflexivity. Qed.

Lemma Math_max_nan (pre post : list float) : Math_max (pre ++ nan :: post) = nan.
Proof.
  unfold Math_max. rewrite existsb_app. cbn [existsb].
  replace (is_nan nan) with true by reflexivity.
  now rewrite orb_true_l, orb_true_r.
Qed.

Lemma Math_min_nan (pre post : list float) : Math_min (pre ++ nan :: post) = nan.
Proof.
  unfold Math_min. rewrite existsb_app. cbn [existsb].
  replace (is_nan nan) with true by reflexivity.
  now rewrite orb_true_l, orb_true_r.
Qed.

(** X18.  [validateSolution] accepts a solution that is not a number: with
    a [NaN] residual and a [NaN] [clGamma], and a [cp] array that holds a
    [NaN] or is empty, it returns [isValid = true] and no warning at all,
    for every geometry and flow (every comparison with [NaN] is false, and
    [Math.max] of nothing is [-Infinity]). *)
Theorem validateSolution_passes_nan (geometry : AirfoilGeometry)
  (flow : FlowConditions) (strengths speeds before after : list float)
  (circulation liftFromPressure : float) (count : Z) :
  validateSolution
    (mkSolution strengths circulation (before ++ nan :: after) speeds nan
                liftFromPressure nan count)
    geometry flow
  = mkValidation true []
  /\ validateSolution
       (mkSolution strengths circulation [] speeds nan liftFromPressure nan count)
       geometry flow
     = mkValidation true [].
Proof.
  unfold validateSolution. cbn [residual clGamma cp clPressure]. split.
  - rewrite Math_max_nan, Math_min_nan, !nan_sub_l, abs_nan, !gtb_nan_l, ltb_nan_l.
    now rewrite andb_false_r.
  - rewrite !nan_sub_l, abs_nan, !gtb_nan_l. now rewrite andb_false_r.
Qed.

End ValidationNan.

(** ** The velocity field of a solution *)

Section FieldOfSolution.
Context {M : MathLib}.

Lemma pair_fold {A : Type} (kernel : nat -> A -> Vector2D)
  (l : list (nat * A)) (acc : Vector2D) :
  fold_left (fun acc jp =>
               mkPoint (px acc + px (kernel (fst jp) (snd jp)))
                       (py acc + py (kernel (fst jp) (snd jp)))) l acc
  = mkPoint
      (fold_left (fun a jp => a + px (kernel (fst jp) (snd jp))) l (px acc))
      (fold_left (fun a jp => a + py (kernel (fst jp) (snd jp))) l (py acc)).
Proof.
  revert acc. induction l as [| jp l IH]; intros acc; cbn [fold_left].
  - now destruct acc.
  - now rewrite IH.
Qed.

Lemma totalVelocity_components (fieldPoint : Point2D) (panels : list Panel)
  (sourceStrengths : list float) (totalCirculation : float) (freestream : Vector2D) :
  let n := List.length panels in
  totalVelocity fieldPoint panels sourceStrengths totalCirculation freestream
  = mkPoint
      (sumOver panels
         (fun _ p => px (vortexInfluence fieldPoint p (totalCirculation / numNat n)))
         (sumOver panels
            (fun i p => px (sourceInfluence fieldPoint p (strengthAt sourceStrengths i)))
            (px freestream)))
      (sumOver panels
         (fun _ p => py (vortexInfluence fieldPoint p (totalCirculation / numNat n)))
         (sumOver panels
            (fun i p => py (sourceInfluence fieldPoint p (strengthAt sourceStrengths i)))
            (py freestream))).
Proof.
  cbn zeta. unfold totalVelocity, sumOver. cbv beta zeta.
  rewrite (pair_fold
             (fun i p => sourceInfluence fieldPoint p (strengthAt sourceStrengths i))).
  rewrite (pair_fold
             (fun (_ : nat) p =>
                vortexInfluence fieldPoint p
                  (totalCirculation / numNat (List.length panels)))).
  reflexivity.
Qed.

(** X19.  The velocity that [fieldVelocity] (and so every streamline) sees
    for a solution returned by [solvePanelMethod] on the same geometry: each
    component is the freestream component, plus the source kernel of every
    panel [j] at the strength [sigma[j]] (the default strength 1 of the
    kernel is never used: [sigma] has one entry per panel), plus the vortex
    kernel of every panel at [gamma / n], added in that order and separately
    for [x] and [y].  With no panel at all the velocity is the freestream. *)
Theorem fieldVelocity_of_solution (geometry : AirfoilGeometry) (flow : FlowConditions)
  (params : PanelMethodParameters) (sol : PanelSolution) (point : Point2D) :
  solvePanelMethod geometry flow params = Ok sol ->
  let ps := panels geometry in
  let n := List.length ps in
  let U := freestreamOf flow in
  fieldVelocity point geometry sol flow
  = mkPoint
      (sumOver ps
         (fun _ p => px (vortexInfluence point p (gamma sol / numNat n)))
         (sumOver ps
            (fun j p => px (sourceInfluence point p (getNum (sigma sol) j)))
            (px U)))
      (sumOver ps
         (fun _ p => py (vortexInfluence point p (gamma sol / numNat n)))
         (sumOver ps
            (fun j p => py (sourceInfluence point p (getNum (sigma sol) j)))
            (py U)))
  /\ forall (other : PanelSolution),
       panels geometry = [] -> fieldVelocity point geometry other flow = U.
Proof.
  intros Hsol ps n U. split.
  - destruct (index_cases ps (teUpperIndex geometry) (teLowerIndex geometry))
      as [Hbad | (upper & lower & Hu & Hl)].
    { rewrite (solvePanelMethod_bad_index _ _ _ Hbad) in Hsol. discriminate. }
    destruct (solvePanelMethod_good_index geometry flow params upper lower Hu Hl)
      as [(sol' & Hsol' & Hsigma & _) | (k & _ & Hk)]; [| congruence].
    assert (sol' = sol) by congruence. subst sol'. fold ps n in Hsigma.
    unfold fieldVelocity. rewrite totalVelocity_components. fold ps n U.
    f_equal; f_equal; apply sumOver_ext; intros j p Hj;
      unfold strengthAt, getNum;
      (rewrite (nth_indep _ 1 nan); [reflexivity |]);
      rewrite Hsigma; apply (nth_error_lt _ _ _ Hj).
  - intros other Hnil. unfold fieldVelocity. rewrite Hnil. cbn.
    unfold U. now destruct (freestreamOf flow).
Qed.

End FieldOfSolution.

Lemma fieldVelocity_of_solution_witness :
  exists sol,
    solvePanelMethod (M := refMath) diamond sampleFlow defaultParams = Ok sol
    /\ px (fieldVelocity (M := refMath) (mkPoint (-1) 0) diamond sol sampleFlow)
       = sumOver (panels diamond)
           (fun _ p => px (vortexInfluence (M := refMath) (mkPoint (-1) 0) p
                             (gamma sol / 4)))
           (sumOver (panels diamond)
              (fun j p => px (sourceInfluence (M := refMath) (mkPoint (-1) 0) p
                                (getNum (sigma sol) j)))
              (px (freestreamOf (M := refMath) sampleFlow))).
Proof.
  destruct (solvePanelMethod (M := refMath) diamond sampleFlow defaultParams)
    as [sol | e] eqn:E; [| vm_compute in E; discriminate].
  exists sol. split; [reflexivity |].
  destruct (fieldVelocity_of_solution (M := refMath) diamond sampleFlow defaultParams
              sol (mkPoint (-1) 0) E) as [Hfield _].
  cbv zeta in Hfield. rewrite Hfield. reflexivity.
Defined.

(** ** The frame of a panel *)

Lemma add_opp_diag (a : float) : a + - a = 0 \/ a + - a = nan.
Proof.
  assert (H : Prim2SF (a + - a) = S754_zero false \/ Prim2SF (a + - a) = S754_nan).
  { rewrite add_spec, opp_spec.
    destruct (Prim2SF a) as [[] | [] | | s m e]; cbn; auto.
    left. unfold SF64add, SFadd. rewrite Z.min_id. unfold shl_align.
    rewrite Z.sub_diag. cbn [fst].
    destruct s; cbn [cond_Zopp negb]; rewrite ?Z.add_opp_diag_r, ?Z.add_opp_diag_l;
      reflexivity. }
  destruct H as [H | H]; [left | right]; apply Prim2SF_inj; rewrite H; reflexivity.
Qed.

Section PanelFrame.
Context {M : MathLib}.

(** X20.  Every panel that [panelize] builds carries a frame that is
    orthogonal bit for bit: its normal is its tangent turned by a quarter
    turn clockwise, [(tangent.y, -tangent.x)], and [dot(tangent, normal)] is
    exactly [0] (or [NaN] when the host cosine or sine is not finite).  Its
    [length] is the [distance] between its end points, and its control
    point is the midpoint moved against the normal by [epsilon] times the
    extent of the points in [x]. *)
Theorem panelize_frames (points : list Point2D) (params : PanelMethodParameters)
  (i : nat) (panel : Panel) :
  nth_error (panelize points params) i = Some panel ->
  let extent := Math_max (map px points) - Math_min (map px points) in
  normal panel = mkPoint (py (tangent panel)) (- px (tangent panel))
  /\ (dot (tangent panel) (normal panel) = 0
      \/ dot (tangent panel) (normal panel) = nan)
  /\ length panel
     = distance (mkPoint (x1 panel) (y1 panel)) (mkPoint (x2 panel) (y2 panel))
  /\ controlPoint panel
     = mkPoint ((x1 panel + x2 panel) / 2 - epsilon params * extent * px (normal panel))
               ((y1 panel + y2 panel) / 2 - epsilon params * extent * py (normal panel)).
Proof.
  intros Hpanel extent. destruct (panelize_nth _ _ _ _ Hpanel) as [_ ->].
  cbn [makePanel normal tangent length controlPoint x1 y1 x2 y2 px py].
  split; [reflexivity |]. split; [| split; reflexivity].
  unfold dot. cbn [px py].
  rewrite (mul_comm (Math_sin _) (- Math_cos _)), mul_opp_l.
  apply add_opp_diag.
Qed.

End PanelFrame.

Lemma panelize_frames_witness :
  exists panel,
    nth_error (panelize (M := refMath) diamondPoints defaultParams) 1 = Some panel
    /\ (dot (tangent panel) (normal panel) = 0
        \/ dot (tangent panel) (normal panel) = nan).
Proof.
  eexists. split; [reflexivity |].
  destruct (panelize_frames (M := refMath) diamondPoints defaultParams 1 _ eq_refl)
    as (_ & Hdot & _).
  exact Hdot.
Defined.

(** ** The reported residual *)

Lemma firstn_getNum_snoc (l : list float) (n : nat) :
  List.length l = (n + 1)%nat -> firstn n l ++ [getNum l n] = l.
Proof.
  intros Hlen. rewrite <- (firstn_skipn n l) at 3. f_equal.
  assert (Hskip : List.length (skipn n l) = 1%nat) by (rewrite length_skipn; lia).
  unfold getNum. rewrite <- (firstn_skipn n l) at 1.
  rewrite app_nth2 by (rewrite length_firstn; lia).
  rewrite length_firstn. replace (n - Nat.min n (List.length l))%nat with 0%nat by lia.
  destruct (skipn n l) as [| v [| w rest]]; cbn in Hskip; try discriminate.
  reflexivity.
Qed.

Section ReportedResidual.
Context {M : MathLib}.

(** X21.  The strengths of a returned solution are the vector
    [solveLinearSystem] computed: [sigma] followed by [gamma] solves the
    assembled system with [params.regularization] added to its diagonal.
    The reported [residual] is measured against the assembled system
    itself, without the regularization: it is the square root of the sum
    over the rows [i] of [(A[i][0] * x[0] + ... + A[i][n] * x[n] - rhs[i])]
    squared, with [A], [rhs] the matrix and right-hand side assembled from
    the geometry and the flow, and [x] = [sigma] followed by [gamma]. *)
Theorem reported_residual (geometry : AirfoilGeometry) (flow : FlowConditions)
  (params : PanelMethodParameters) (sol : PanelSolution) :
  solvePanelMethod geometry flow params = Ok sol ->
  let n := List.length (panels geometry) in
  let x := sigma sol ++ [gamma sol] in
  exists extendedA rhs,
    assembleSystem geometry flow = Ok (extendedA, rhs)
    /\ solveLinearSystem extendedA rhs (regularization params) = Ok x
    /\ residual sol = calculateResidual extendedA x rhs
    /\ residual sol
       = Math_sqrt
           (forRange 0 (n + 1)
              (fun i acc =>
                 let row := forRange 0 (n + 1)
                              (fun j s => s + entry extendedA i j * getNum x j) 0
                            - getNum rhs i in
                 acc + row * row)
              0).
Proof.
  intros Hsol n x.
  destruct (solvePanelMethod_inv _ _ _ _ Hsol)
    as (extendedA & rhs & reduced & Hsys & Helim & Hpost).
  pose proof (assembleSystem_length _ _ _ _ Hsys) as Hlen. fold n in Hlen.
  exists extendedA, rhs. split; [exact Hsys |].
  set (solution := backSubstitute reduced (List.length extendedA)) in Hpost.
  assert (Hx : x = solution).
  { unfold x. rewrite Hpost. cbn [sigma gamma postProcess]. fold n.
    apply firstn_getNum_snoc. unfold solution.
    now rewrite length_backSubstitute. }
  assert (Hres : residual sol = calculateResidual extendedA x rhs).
  { rewrite Hx, Hpost. reflexivity. }
  split; [| split; [exact Hres |]].
  - unfold solveLinearSystem. rewrite Helim. cbn [bind]. now rewrite Hx.
  - rewrite Hres. unfold calculateResidual. rewrite Hlen.
    replace (List.length x) with (n + 1)%nat; [reflexivity |].
    rewrite Hx. unfold solution. now rewrite length_backSubstitute.
Qed.

End ReportedResidual.

Lemma reported_residual_witness :
  exists sol extendedA rhs,
    solvePanelMethod (M := refMath) diamond sampleFlow defaultParams = Ok sol
    /\ assembleSystem (M := refMath) diamond sampleFlow = Ok (extendedA, rhs)
    /\ residual sol = calculateResidual extendedA (sigma sol ++ [gamma sol]) rhs.
Proof.
  destruct (solvePanelMethod (M := refMath) diamond sampleFlow defaultParams)
    as [sol | e] eqn:E; [| vm_compute in E; discriminate].
  destruct (reported_residual (M := refMath) diamond sampleFlow defaultParams sol E)
    as (extendedA & rhs & Hsys & _ & Hres & _).
  exists sol, extendedA, rhs. auto.
Defined.

(** ** Systems of one equation *)

Lemma nan_div_r (a : float) : a / nan = nan.
Proof.
  apply Prim2SF_inj. rewrite div_spec. change (Prim2SF nan) with S754_nan.
  destruct (Prim2SF a); reflexivity.
Qed.

(** X22.  [solveLinearSystem] on one equation [a * x = b]: the
    regularization is added to [a] before the pivot test, so the result is
    [b / (a + regularization)] unless [|a + regularization| < 1e-14], which
    throws 'Singular matrix at row 0'.  A [NaN] coefficient is not reported
    as singular: the solution is [NaN].  The empty system has the empty
    solution. *)
Theorem solveLinearSystem_scalar (a b regularization : float) :
  solveLinearSystem [[a]] [b] regularization
  = (if Math_abs (a + regularization) <? 1e-14
     then Err (SingularMatrix 0)
     else Ok [b / (a + regularization)])
  /\ solveLinearSystem [[nan]] [b] regularization = Ok [nan]
  /\ solveLinearSystem [] [] regularization = Ok [].
Proof.
  assert (Hone : forall a', solveLinearSystem [[a']] [b] regularization
                 = (if Math_abs (a' + regularization) <? 1e-14
                    then Err (SingularMatrix 0)
                    else Ok [b / (a' + regularization)])).
  { intros a'. unfold solveLinearSystem. cbn.
    destruct (_ <? _); reflexivity. }
  split; [apply Hone |]. split; [| reflexivity].
  rewrite Hone, nan_add_l, nan_div_r. reflexivity.
Qed.
